(** * Moss-chat-web: the retrieval pipeline of the knowledge base

    A shallow embedding of [src/copilot-service.ts] (class [CopilotService])
    and [src/knowledge-service.ts] (class [KnowledgeService]), and the
    properties of the two-stage retrieval pipeline that they implement;
    with them the chat endpoint of [src/server.ts], which calls both, and
    the connection of [src/db.ts].

    Conventions of the embedding.
    - A JavaScript string is a [list ascii]: the sequence of its code units,
      for the strings whose code units are below 256 (ASCII and Latin-1).
      [toLowerCase] and the white space class are those of JavaScript on
      these code units.
    - A JavaScript number that the code uses as an index or a count is a [Z]
      (a [nat] where it is the length of an array or of a string).
    - A function that can throw returns an [exc]; [try]/[catch] is [catch].
    - The file has two parts: the embedding (definitions only), then the
      lemmas and theorems about it. *)

From Stdlib Require Import ZArith Lia Ascii String DecimalString.
From Stdlib Require DecimalNat DecimalFacts.
From stdpp Require Import base option list sorting strings gmap.

Open Scope Z_scope.
Open Scope nat_scope.
Open Scope stdpp_scope.

(** ** JavaScript values *)

Abbreviation jsstring := (list ascii).

(** A string literal of the source. *)
Definition str (s : string) : jsstring := String.list_ascii_of_string s.

Module JS.

(** *** Exceptions *)

Inductive exc (A : Type) : Type :=
| Ok (a : A)
| Throw (message : jsstring).
Arguments Ok {A} a.
Arguments Throw {A} message.

Definition bind {A B} (m : exc A) (k : A → exc B) : exc B :=
  match m with
  | Ok a => k a
  | Throw e => Throw e
  end.

(** [try { body } catch (error) { handler }] *)
Definition catch {A} (body : exc A) (handler : jsstring → exc A) : exc A :=
  match body with
  | Ok a => Ok a
  | Throw e => handler e
  end.

Definition throws {A} (m : exc A) : Prop := ∃ e, m = Throw e.

(** A loop body run over an array, stopping at the first exception. *)
Fixpoint for_of {A S} (body : S → A → exc S) (a : list A) (s : S) : exc S :=
  match a with
  | [] => Ok s
  | x :: a' => bind (body s x) (for_of body a')
  end.

(** *** Characters *)

Definition code (c : ascii) : nat := nat_of_ascii c.

(** [\d] *)
Definition is_digit (c : ascii) : bool :=
  (48 <=? code c) && (code c <=? 57).

Definition digit_value (c : ascii) : Z := Z.of_nat (code c - 48).

(** [\s], and the characters that [trim] strips: tab, line feed, vertical
    tab, form feed, carriage return, space and the no-break space U+00A0. *)
Definition is_space (c : ascii) : bool :=
  ((9 <=? code c) && (code c <=? 13)) || (code c =? 32) || (code c =? 160).

(** The letters with a lower case: [A] to [Z], and U+00C0 to U+00DE but
    for the multiplication sign U+00D7. Their lower case is 32 further. *)
Definition has_lower (c : ascii) : bool :=
  ((65 <=? code c) && (code c <=? 90))
  || ((192 <=? code c) && (code c <=? 214))
  || ((216 <=? code c) && (code c <=? 222)).

Definition lower (c : ascii) : ascii :=
  if has_lower c then ascii_of_nat (code c + 32) else c.

(** [s.toLowerCase()] *)
Definition toLowerCase (s : jsstring) : jsstring := map lower s.

(** *** Arrays *)

(** [Array.from({ length: n }, (_, i) => i)] *)
Definition Array_from_length (n : nat) : list Z := map Z.of_nat (seq 0 n).

(** [a.includes(x)] on an array of numbers *)
Definition Array_includes (a : list Z) (x : Z) : bool :=
  existsb (Z.eqb x) a.

(** A [Set] of numbers keeps its elements in insertion order: it is the
    list of the elements in the order of their first insertion. *)
Definition Set_add (s : list Z) (x : Z) : list Z :=
  if Array_includes s x then s else s ++ [x].

(** [new Set(a)] *)
Definition new_Set (a : list Z) : list Z := fold_left Set_add a [].

(** [Array.from(s)] for a [Set] [s] *)
Definition Array_from_Set (s : list Z) : list Z := s.

(** [a.slice(b, e)] for integers [b] and [e]: a negative bound counts from
    the end of the array. *)
Definition slice_bound (len : nat) (k : Z) : nat :=
  if (k <? 0)%Z then len - Z.to_nat (- k) else Nat.min (Z.to_nat k) len.

Definition slice {A} (a : list A) (b e : Z) : list A :=
  let from := slice_bound (length a) b in
  let to := slice_bound (length a) e in
  take (to - from) (drop from a).

(** [a[i]] for an integer [i]: [undefined] out of range. *)
Definition index {A} (a : list A) (i : Z) : option A :=
  if (i <? 0)%Z then None else a !! Z.to_nat i.

(** *** Regular expression [/\d+/g] *)

(** The scanner of [s.match(/\d+/g)]: [cur] is the run of digits being
    read, most recent first. *)
Fixpoint scan_digits (cur : jsstring) (s : jsstring) : list jsstring :=
  match s with
  | [] => match cur with [] => [] | _ => [rev cur] end
  | c :: s' =>
      if is_digit c then scan_digits (c :: cur) s'
      else match cur with
           | [] => scan_digits [] s'
           | _ => rev cur :: scan_digits [] s'
           end
  end.

(** [s.match(/\d+/g)]: [null] when nothing matches. *)
Definition match_digits (s : jsstring) : option (list jsstring) :=
  match scan_digits [] s with
  | [] => None
  | ms => Some ms
  end.

(** [parseInt(num, 10)] on a string of decimal digits. The value is exact
    here, where JavaScript rounds it to a double above 2^53; the code only
    compares it with an array length, and keeps it when it is smaller, and
    rounding changes neither the comparison nor a value that is kept. *)
Definition parseInt (num : jsstring) : Z :=
  fold_left (λ acc c, (10 * acc + digit_value c)%Z) num 0%Z.

End JS.

Import JS.

(** ** [CopilotService.parseRanking] *)

Module Ranking.

(** The [try] of [parseRanking] has nothing to catch: no operation of its
    body throws on a string and a count. *)
Definition parseRanking (content : jsstring) (documentCount : nat) : list Z :=
  let numbers :=
    default []
      (List.filter (λ num, (0 <=? num)%Z && (num <? Z.of_nat documentCount)%Z)
         <$> (map parseInt <$> match_digits content)) in
  let uniqueNumbers := Array_from_Set (new_Set numbers) in
  let missingIndices :=
    List.filter (λ i, negb (Array_includes uniqueNumbers i))
      (Array_from_length documentCount) in
  uniqueNumbers ++ missingIndices.

End Ranking.

(** ** The parsing policy, as the specification words it *)

Module RankingSpec.

Fixpoint take_while {A} (p : A → bool) (l : list A) : list A :=
  match l with
  | [] => []
  | x :: l' => if p x then x :: take_while p l' else []
  end.

(** A maximal run of digits starts at position [i]: a digit that no digit
    precedes. *)
Definition run_start (s : jsstring) (i : nat) : bool :=
  match s !! i with
  | Some c =>
      is_digit c &&
      match i with
      | 0 => true
      | S j => match s !! j with Some d => negb (is_digit d) | None => true end
      end
  | None => false
  end.

Definition run_at (s : jsstring) (i : nat) : jsstring :=
  take_while is_digit (drop i s).

(** Every integer substring of the reply, from left to right. *)
Definition digit_runs (s : jsstring) : list jsstring :=
  map (run_at s) (List.filter (run_start s) (seq 0 (length s))).

(** The number that a string of decimal digits denotes. *)
Fixpoint decimal (ds : jsstring) : Z :=
  match ds with
  | [] => 0
  | d :: ds' => digit_value d * 10 ^ Z.of_nat (length ds') + decimal ds'
  end.

(** Deduplication that keeps the first occurrence of every element. *)
Fixpoint dedup_first (l : list Z) : list Z :=
  match l with
  | [] => []
  | x :: l' => x :: filter (λ y, y ≠ x) (dedup_first l')
  end.

Definition in_range (N : nat) (v : Z) : Prop := (0 ≤ v < Z.of_nat N)%Z.

#[global] Instance in_range_dec N v : Decision (in_range N v).
Proof. unfold in_range. apply _. Defined.

Definition extracted (reply : jsstring) (N : nat) : list Z :=
  dedup_first (filter (in_range N) (map decimal (digit_runs reply))).

Definition ranking (reply : jsstring) (N : nat) : list Z :=
  extracted reply N ++
  filter (λ i, i ∉ extracted reply N) (map Z.of_nat (seq 0 N)).

End RankingSpec.

(** ** String operations of the standard library *)

Module Str.

Definition newline : ascii := ascii_of_nat 10.
Definition dquote : ascii := ascii_of_nat 34.

(** [s.startsWith(p)] *)
Fixpoint startsWith (s p : jsstring) : bool :=
  match p, s with
  | [], _ => true
  | _ :: _, [] => false
  | a :: p', b :: s' => Ascii.eqb a b && startsWith s' p'
  end.

(** [s.includes(t)]: [t] occurs in [s] as a substring. *)
Fixpoint includes (s t : jsstring) : bool :=
  startsWith s t ||
  match s with
  | [] => false
  | _ :: s' => includes s' t
  end.

(** [s.substring(0, n)] *)
Definition substring0 (s : jsstring) (n : nat) : jsstring := take n s.

Fixpoint drop_while {A} (p : A → bool) (l : list A) : list A :=
  match l with
  | [] => []
  | x :: l' => if p x then drop_while p l' else l
  end.

(** [s.trim()] *)
Definition trim (s : jsstring) : jsstring :=
  rev (drop_while is_space (rev (drop_while is_space s))).

(** [a.join(sep)] *)
Fixpoint join (sep : jsstring) (a : list jsstring) : jsstring :=
  match a with
  | [] => []
  | [x] => x
  | x :: a' => x ++ sep ++ join sep a'
  end.

(** [s.split(/\s+/)]: [cur] is the piece being read, most recent character
    first; [in_sep] tells that the previous character was white space. *)
Fixpoint split_ws_go (cur : jsstring) (in_sep : bool) (s : jsstring)
  : list jsstring :=
  match s with
  | [] => [rev cur]
  | c :: s' =>
      if is_space c then
        if in_sep then split_ws_go [] true s'
        else rev cur :: split_ws_go [] true s'
      else split_ws_go (c :: cur) false s'
  end.

Definition split_ws (s : jsstring) : list jsstring := split_ws_go [] false s.

(** [s.split(sep)] for a separator [sep] of one character *)
Fixpoint split_on_go (sep : ascii) (cur : jsstring) (s : jsstring)
  : list jsstring :=
  match s with
  | [] => [rev cur]
  | c :: s' =>
      if Ascii.eqb c sep then rev cur :: split_on_go sep [] s'
      else split_on_go sep (c :: cur) s'
  end.

Definition split_on (sep : ascii) (s : jsstring) : list jsstring :=
  split_on_go sep [] s.

(** [s.split('\n')] *)
Definition split_lines (s : jsstring) : list jsstring := split_on newline s.

(** [`${n}`] for an array index [n] *)
Definition of_nat (n : nat) : jsstring :=
  str (NilEmpty.string_of_uint (Nat.to_uint n)).

End Str.

(** ** Regular expressions built from a query term

    [new RegExp(term, 'g')] reads the term as a pattern. The embedding
    fixes the meaning of the patterns made of ordinary characters and of
    [.], which matches every character but a line terminator. The rest of
    the pattern language belongs to the engine: what it answers there, a
    number of matches or a [SyntaxError], is a parameter of the
    development. *)

Module RegExp.

Inductive item :=
| Char (c : ascii)
| AnyChar.

(** The syntax characters of the pattern language other than [.] *)
Definition is_special (c : ascii) : bool :=
  bool_decide (c ∈ str "^$\*+?()[]{}|").

Definition item_of (c : ascii) : item :=
  if Ascii.eqb c "."%char then AnyChar else Char c.

(** The patterns of the fragment: not empty, no special character. *)
Definition compile (pattern : jsstring) : option (list item) :=
  match pattern with
  | [] => None
  | _ => if existsb is_special pattern then None else Some (map item_of pattern)
  end.

Definition is_line_terminator (c : ascii) : bool :=
  (code c =? 10) || (code c =? 13).

Definition item_matches (i : item) (c : ascii) : bool :=
  match i with
  | Char a => Ascii.eqb a c
  | AnyChar => negb (is_line_terminator c)
  end.

(** The pattern matches at the start of [s]. *)
Fixpoint matches_at (p : list item) (s : jsstring) : bool :=
  match p, s with
  | [], _ => true
  | _ :: _, [] => false
  | i :: p', c :: s' => item_matches i c && matches_at p' s'
  end.

(** The matches of a global search, from left to right: after a match the
    search resumes behind it. [skip] counts the characters of the last match
    that are still to be passed. *)
Fixpoint count_matches_go (p : list item) (skip : nat) (s : jsstring) : nat :=
  match s with
  | [] => 0
  | _ :: s' =>
      match skip with
      | S k => count_matches_go p k s'
      | 0 =>
          if matches_at p s then S (count_matches_go p (length p - 1) s')
          else count_matches_go p 0 s'
      end
  end.

Definition count_matches (p : list item) (s : jsstring) : nat :=
  count_matches_go p 0 s.

(** The engine outside the fragment. *)
Class Engine := count_other : jsstring → jsstring → exc nat.

(** [(s.match(new RegExp(pattern, 'g')) ?? []).length] *)
Definition match_count `{Engine} (pattern s : jsstring) : exc nat :=
  match compile pattern with
  | Some p => Ok (count_matches p s)
  | None => count_other pattern s
  end.

(** An engine that refuses every pattern outside the fragment. *)
Definition strict : Engine := λ _ _, Throw (str "SyntaxError").

End RegExp.

(** ** [CopilotService]: the client of the ranking oracle *)

Module CopilotService.

(** What [session.sendAndWait] resolves to: an event whose [data.content]
    holds the reply, or [undefined]; the code reads it with
    [response?.data?.content]. *)
Record Data := { content : option jsstring }.
Record Response := { data : option Data }.

(** The handle of a started client. *)
Inductive CopilotClient := the_client.

(** The SDK is an external collaborator: each of its operations succeeds or
    throws, whatever the reason (no configuration, transport, timeout). One
    ranking call uses each operation at most once. *)
Record Sdk := {
  new_CopilotClient : exc CopilotClient;
  client_start : exc unit;
  client_createSession : exc unit;
  session_sendAndWait : jsstring → exc (option Response)
}.

(** The fields of the service object. *)
Record State := {
  client : option CopilotClient;
  isInitialized : bool
}.

Definition fresh : State := {| client := None; isInitialized := false |}.

Definition initialize (sdk : Sdk) (st : State) : exc unit * State :=
  if isInitialized st then (Ok (), st)
  else
    let failed :=
      Throw (str "Failed to initialize Copilot client. "
             ++ str "Ensure GitHub Copilot is configured.") in
    match new_CopilotClient sdk with
    | Throw _ => (failed, st)
    | Ok c =>
        let st1 := {| client := Some c; isInitialized := isInitialized st |} in
        match client_start sdk with
        | Throw _ => (failed, st1)
        | Ok _ => (Ok (), {| client := Some c; isInitialized := true |})
        end
    end.

(** A candidate as the oracle sees it. *)
Record Summary := { title : jsstring; snippet : jsstring }.

(** [documents.map((doc, idx) => `[${idx}] Title: ...\nSnippet: ...`)] *)
Fixpoint entries (idx : nat) (documents : list Summary) : list jsstring :=
  match documents with
  | [] => []
  | doc :: documents' =>
      (str "[" ++ Str.of_nat idx ++ str "] Title: " ++ title doc
         ++ [Str.newline] ++ str "Snippet: " ++ snippet doc)
      :: entries (S idx) documents'
  end.

Definition documentsList (documents : list Summary) : jsstring :=
  Str.join [Str.newline; Str.newline] (entries 0 documents).

Definition prompt (query : jsstring) (documents : list Summary) : jsstring :=
  str "Given the following user question and a list of documents, "
  ++ str "identify which documents are most relevant to answering the "
  ++ str "question. Return ONLY the document numbers in order of relevance "
  ++ str "(most relevant first), as a comma-separated list of numbers."
  ++ [Str.newline; Str.newline]
  ++ str "User Question: " ++ [Str.dquote] ++ query ++ [Str.dquote]
  ++ [Str.newline; Str.newline]
  ++ str "Documents:" ++ [Str.newline]
  ++ documentsList documents
  ++ [Str.newline; Str.newline]
  ++ str "Return format: Just the numbers separated by commas (e.g., "
  ++ [Str.dquote] ++ str "2,0,4,1" ++ [Str.dquote] ++ str ")" ++ [Str.newline]
  ++ str "Your response:".

(** [response?.data?.content] *)
Definition content_of (response : option Response) : option jsstring :=
  match response with
  | Some r => match data r with Some d => content d | None => None end
  | None => None
  end.

(** A string is truthy when it is not empty. *)
Definition truthy (s : option jsstring) : bool :=
  match s with
  | Some (_ :: _) => true
  | _ => false
  end.

(** The body of the [try] of [rankDocumentsByRelevance]. *)
Definition rank_try (sdk : Sdk) (st : State) (query : jsstring)
    (documents : list Summary) : exc (list Z) * State :=
  let '(started, st1) :=
    if bool_decide (client st = None) || negb (isInitialized st)
    then initialize sdk st
    else (Ok (), st) in
  (match started with
   | Throw e => Throw e
   | Ok _ =>
       match client st1 with
       | None => Throw (str "Copilot client is not initialized")
       | Some _ =>
           bind (client_createSession sdk) (λ _,
           bind (session_sendAndWait sdk (prompt query documents)) (λ response,
           if truthy (content_of response)
           then Ok (Ranking.parseRanking (default [] (content_of response))
                      (length documents))
           else Ok (Array_from_length (length documents))))
       end
   end, st1).

Definition rankDocumentsByRelevance (sdk : Sdk) (st : State) (query : jsstring)
    (documents : list Summary) : exc (list Z) * State :=
  let '(result, st1) := rank_try sdk st query documents in
  (catch result (λ _, Ok (Array_from_length (length documents))), st1).

End CopilotService.

(** ** [KnowledgeService]: scoring, snippets and the two search paths

    The functions of this module work on values: they take the documents
    that [getAllDocuments] returns as an argument and return documents.
    The corpus walk, the cache and the objects behind the documents are in
    module [Store] below, which is shown to agree with this one. *)

Module Knowledge.

Record KnowledgeDocument := {
  path : jsstring;
  title : jsstring;
  content : jsstring;
  snippet : option jsstring
}.

(** [KnowledgeDocument & { score: number }] *)
Record Candidate := {
  c_path : jsstring;
  c_title : jsstring;
  c_content : jsstring;
  c_snippet : option jsstring;
  c_score : Z
}.

(** [{ ...doc, snippet: s }] *)
Definition with_snippet (doc : KnowledgeDocument) (s : jsstring)
  : KnowledgeDocument :=
  {| path := path doc; title := title doc; content := content doc;
     snippet := Some s |}.

(** [{ ...doc, snippet: s, score }] *)
Definition candidate (doc : KnowledgeDocument) (s : jsstring) (score : Z)
  : Candidate :=
  {| c_path := path doc; c_title := title doc; c_content := content doc;
     c_snippet := Some s; c_score := score |}.

(** [({ score: _score, ...doc }) => doc] *)
Definition without_score (c : Candidate) : KnowledgeDocument :=
  {| path := c_path c; title := c_title c; content := c_content c;
     snippet := c_snippet c |}.

(** [query.toLowerCase().split(/\s+/)] *)
Definition queryTerms_of (query : jsstring) : list jsstring :=
  Str.split_ws (toLowerCase query).

(** *** [extractSnippet] *)

(** [s.length > 300 ? s.substring(0, 300) + '...' : s] *)
Definition ellipsis (s : jsstring) : jsstring :=
  if 300 <? length s then Str.substring0 s 300 ++ str "..." else s.

(** The lines around line [i], joined and trimmed. *)
Definition window (lines : list jsstring) (i : nat) : jsstring :=
  let start := Z.max 0 (Z.of_nat i - 1) in
  let end_ := Z.min (Z.of_nat (length lines)) (Z.of_nat i + 3) in
  Str.trim (Str.join [Str.newline] (slice lines start end_)).

(** The inner loop: [rest] holds the lines from index [i] on. *)
Fixpoint scan_lines (lines : list jsstring) (term : jsstring) (i : nat)
    (rest : list jsstring) : option jsstring :=
  match rest with
  | [] => None
  | line :: rest' =>
      if Str.includes (toLowerCase line) term then
        let snippet := window lines i in
        if 20 <? length snippet then Some (ellipsis snippet)
        else scan_lines lines term (S i) rest'
      else scan_lines lines term (S i) rest'
  end.

(** The outer loop over the query terms. *)
Fixpoint scan_terms (lines : list jsstring) (queryTerms : list jsstring)
  : option jsstring :=
  match queryTerms with
  | [] => None
  | term :: queryTerms' =>
      if length term <? 3 then scan_terms lines queryTerms'
      else match scan_lines lines term 0 lines with
           | Some snippet => Some snippet
           | None => scan_terms lines queryTerms'
           end
  end.

(** [l.trim() && !l.startsWith('#') && !l.startsWith('---')] *)
Definition meaningful (l : jsstring) : bool :=
  negb (bool_decide (Str.trim l = [])) && negb (Str.startsWith l (str "#"))
  && negb (Str.startsWith l (str "---")).

Definition extractSnippet (content : jsstring) (queryTerms : list jsstring)
  : jsstring :=
  let lines := Str.split_lines content in
  match scan_terms lines queryTerms with
  | Some snippet => snippet
  | None =>
      let firstContent :=
        Str.join [Str.newline] (slice (List.filter meaningful lines) 0 3) in
      ellipsis firstContent
  end.

(** *** Scoring *)

Section Scoring.
Context `{RegExp.Engine}.

(** The scoring loop that [search] and [searchWithCopilot] both contain. *)
Definition relevance_score (doc : KnowledgeDocument)
    (queryTerms : list jsstring) : exc Z :=
  let contentLower := toLowerCase (content doc) in
  let titleLower := toLowerCase (title doc) in
  for_of (λ score term,
    if length term <? 3 then Ok score
    else
      let score :=
        if Str.includes titleLower term then (score + 10)%Z else score in
      if Str.includes contentLower term then
        bind (RegExp.match_count term contentLower) (λ matches,
        Ok (score + Z.min (Z.of_nat matches) 5)%Z)
      else Ok score)
    queryTerms 0%Z.

Definition scoreDocument (doc : KnowledgeDocument)
    (queryTerms : list jsstring) : exc Z :=
  let contentLower := toLowerCase (content doc) in
  let titleLower := toLowerCase (title doc) in
  for_of (λ score term,
    if length term <? 3 then Ok score
    else
      let score :=
        if Str.includes titleLower term then (score + 10)%Z else score in
      bind (RegExp.match_count term contentLower) (λ matches,
      Ok (score + Z.min (Z.of_nat matches) 5)%Z))
    queryTerms 0%Z.

(** *** [Array.prototype.sort]

    The sort is stable. Which algorithm the engine runs is not observable
    with the comparators of this class. A comparator that does not throw
    orders by a score, and every stable algorithm returns the same array. A
    comparator that throws on an element makes every algorithm throw, since
    an algorithm compares each element of an array of two or more at least
    once; the array of one element is returned without a comparison.
    Insertion from the right is taken here. *)

(** [x] enters the sorted [l] behind the elements that the comparator puts
    before it. *)
Fixpoint insert_sorted {A} (compare : A → A → exc Z) (x : A) (l : list A)
  : exc (list A) :=
  match l with
  | [] => Ok [x]
  | y :: l' =>
      bind (compare x y) (λ c,
      if (0 <? c)%Z
      then bind (insert_sorted compare x l') (λ r, Ok (y :: r))
      else Ok (x :: l))
  end.

Fixpoint Array_sort {A} (compare : A → A → exc Z) (a : list A)
  : exc (list A) :=
  match a with
  | [] => Ok []
  | x :: a' => bind (Array_sort compare a') (insert_sorted compare x)
  end.

(** *** [search] *)

(** The body of the [try] of [search]. *)
Definition search_try (documents : list KnowledgeDocument) (query : jsstring)
  : exc (list KnowledgeDocument) :=
  let queryTerms := queryTerms_of query in
  bind (for_of (λ results doc,
          bind (relevance_score doc queryTerms) (λ score,
          if (0 <? score)%Z
          then Ok (results ++
                     [with_snippet doc
                        (extractSnippet (content doc) queryTerms)])
          else Ok results))
          documents []) (λ results,
  bind (Array_sort (λ a b,
          bind (scoreDocument b queryTerms) (λ sb,
          bind (scoreDocument a queryTerms) (λ sa,
          Ok (sb - sa)%Z))) results) (λ sorted,
  Ok (slice sorted 0 3))).

Definition search (documents : list KnowledgeDocument) (query : jsstring)
  : exc (list KnowledgeDocument) :=
  catch (search_try documents query) (λ _, Ok []).

(** *** [searchWithCopilot] *)

(** [copilotService.rankDocumentsByRelevance], as the orchestrator sees it:
    the outcome of a call. *)
Definition Oracle := jsstring → list CopilotService.Summary → exc (list Z).

(** The calls made to the oracle, with their arguments. *)
Definition Calls := list (jsstring * list CopilotService.Summary).

(** Step 1: the candidates of the keyword search. *)
Definition keyword_candidates (documents : list KnowledgeDocument)
    (queryTerms : list jsstring) : exc (list Candidate) :=
  for_of (λ candidates doc,
    bind (relevance_score doc queryTerms) (λ score,
    if (0 <? score)%Z
    then Ok (candidates ++
               [candidate doc (extractSnippet (content doc) queryTerms) score])
    else Ok candidates))
    documents [].

(** Without a keyword match, the first documents stand in as candidates. *)
Definition or_first_documents (documents : list KnowledgeDocument)
    (queryTerms : list jsstring) (maxCandidates : Z)
    (candidates : list Candidate) : list Candidate :=
  if length candidates =? 0 then
    candidates ++
    map (λ doc, candidate doc (extractSnippet (content doc) queryTerms) 0)
      (slice documents 0 maxCandidates)
  else candidates.

(** Step 2: the candidates sorted by keyword score, the first
    [maxCandidates] of them. *)
Definition topCandidates_of (documents : list KnowledgeDocument)
    (query : jsstring) (maxCandidates : Z) : exc (list Candidate) :=
  let queryTerms := queryTerms_of query in
  bind (keyword_candidates documents queryTerms) (λ candidates,
  let candidates :=
    or_first_documents documents queryTerms maxCandidates candidates in
  bind (Array_sort (λ a b, Ok (c_score b - c_score a)%Z) candidates)
    (λ sorted,
  Ok (slice sorted 0 maxCandidates))).

Definition summary (doc : Candidate) : CopilotService.Summary :=
  {| CopilotService.title := c_title doc;
     CopilotService.snippet := default [] (c_snippet doc) |}.

(** Step 4: [ranking.map(idx => topCandidates[idx]).filter(doc => doc !==
    undefined)] *)
Definition reorder (topCandidates : list Candidate) (ranking : list Z)
  : list Candidate :=
  omap (index topCandidates) ranking.

(** The body of the [try] of [searchWithCopilot], and the calls it makes. *)
Definition searchWithCopilot_try (oracle : Oracle)
    (documents : list KnowledgeDocument) (query : jsstring)
    (maxCandidates maxResults : Z) : exc (list KnowledgeDocument) * Calls :=
  match topCandidates_of documents query maxCandidates with
  | Throw e => (Throw e, [])
  | Ok topCandidates =>
      if (Z.of_nat (length topCandidates) <=? maxResults)%Z
      then (Ok (map without_score topCandidates), [])
      else
        let documentsToRank := map summary topCandidates in
        (bind (oracle query documentsToRank) (λ ranking,
         Ok (map without_score
               (slice (reorder topCandidates ranking) 0 maxResults))),
         [(query, documentsToRank)])
  end.

Definition searchWithCopilot (copilotService : option Oracle)
    (documents : list KnowledgeDocument) (query : jsstring)
    (maxCandidates maxResults : Z) : exc (list KnowledgeDocument) * Calls :=
  match copilotService with
  | None => (search documents query, [])
  | Some oracle =>
      let '(result, calls) :=
        searchWithCopilot_try oracle documents query maxCandidates maxResults in
      (catch result (λ _, search documents query), calls)
  end.

End Scoring.

End Knowledge.

(** ** The lexical scorer and the snippet window, as the specification
    words them *)

Module LexicalSpec.
Import Knowledge.

(** The lines of index [lo] to [hi], both included, that exist. *)
Definition lines_between (lines : list jsstring) (lo hi : Z) : list jsstring :=
  omap (index lines) (seqZ lo (hi - lo + 1)).

(** The window from one line before line [i] through [after] lines after
    it, joined and trimmed. *)
Definition window_through (after : Z) (lines : list jsstring) (i : nat)
  : jsstring :=
  Str.trim (Str.join [Str.newline]
              (lines_between lines (Z.of_nat i - 1) (Z.of_nat i + after))).

(** The term occurs in the line, whatever the case of the letters. *)
Definition occurs_ci (term line : jsstring) : Prop :=
  Str.includes (toLowerCase line) (toLowerCase term) = true.

(** Truncation to 300 characters with a trailing ellipsis marker. *)
Definition truncated (s : jsstring) : jsstring :=
  if decide (length s ≤ 300) then s else take 300 s ++ str "...".

(** The contract of the snippet window, for a window that ends [after]
    lines behind the match: when [term] is the first term of three
    characters or more that occurs in a line, and [line] the first line in
    which it occurs, and the window around that line has more than 20
    characters, [extractSnippet] returns that window, truncated. The terms
    are lower-cased, as [search] and [searchWithCopilot] pass them. *)
Definition snippet_contract (after : Z) : Prop :=
  ∀ (content : jsstring)
    (terms_before : list jsstring) (term : jsstring)
    (terms_after : list jsstring)
    (lines_before : list jsstring) (line : jsstring)
    (lines_after : list jsstring),
    Forall (λ u, toLowerCase u = u) (terms_before ++ term :: terms_after) →
    Str.split_lines content = lines_before ++ line :: lines_after →
    Forall (λ u, length u < 3
                 ∨ Forall (λ l, ¬ occurs_ci u l) (Str.split_lines content))
      terms_before →
    3 ≤ length term →
    Forall (λ l, ¬ occurs_ci term l) lines_before →
    occurs_ci term line →
    20 < length (window_through after (Str.split_lines content)
                   (length lines_before)) →
    extractSnippet content (terms_before ++ term :: terms_after)
    = truncated (window_through after (Str.split_lines content)
                   (length lines_before)).

(** The occurrences of [t] in [s], counted from left to right; an
    occurrence that overlaps the one counted before it is not counted
    again. [skip] is the number of characters of the last occurrence that
    are still to be passed. *)
Fixpoint occurrences_go (t : jsstring) (skip : nat) (s : jsstring) : nat :=
  match s with
  | [] => 0
  | _ :: s' =>
      match skip with
      | S k => occurrences_go t k s'
      | 0 =>
          if Str.startsWith s t then S (occurrences_go t (length t - 1) s')
          else occurrences_go t 0 s'
      end
  end.

Definition occurrences (t s : jsstring) : nat := occurrences_go t 0 s.

Definition term_score (doc : KnowledgeDocument) (t : jsstring) : Z :=
  (if Str.includes (toLowerCase (title doc)) t then 10 else 0)
  + Z.min (Z.of_nat (occurrences t (toLowerCase (content doc)))) 5.

(** The lexical score: the sum over the terms of three characters or
    more. *)
Definition score (doc : KnowledgeDocument) (query : jsstring) : Z :=
  foldr Z.add 0%Z
    (map (term_score doc)
       (List.filter (λ t, 3 <=? length t) (queryTerms_of query))).

(** A term that the pattern language reads as itself: it has no syntax
    character. *)
Definition literal (t : jsstring) : bool :=
  negb (existsb (λ c, RegExp.is_special c || Ascii.eqb c "."%char) t).

(** A query whose terms of three characters or more are all literal. *)
Definition literal_query (query : jsstring) : Prop :=
  Forall (λ t, length t < 3 ∨ literal t = true) (queryTerms_of query).

(** A document of the corpus as [search] returns it. *)
Definition with_its_snippet (query : jsstring) (doc : KnowledgeDocument)
  : KnowledgeDocument :=
  with_snippet doc (extractSnippet (content doc) (queryTerms_of query)).

End LexicalSpec.

(** ** Sorting by a score, highest first, ties in the order of the input *)

Module StableSort.

Section by_key.
Context {A : Type} (key : A → Z).

Fixpoint insert_desc (x : A) (l : list A) : list A :=
  match l with
  | [] => [x]
  | y :: l' => if (key x <? key y)%Z then y :: insert_desc x l' else x :: l
  end.

Definition sort_desc (l : list A) : list A := foldr insert_desc [] l.

(** Highest score first. *)
Definition descending : relation A := λ a b, (key b ≤ key a)%Z.

(** The elements of score [k], in the order in which [l] has them. *)
Definition of_score (k : Z) (l : list A) : list A :=
  filter (λ a, key a = k) l.

(** [l'] is [l] sorted by score, highest first, and the elements of an
    equal score keep the order that they have in [l]. *)
Definition stable_sorted (l l' : list A) : Prop :=
  l' ≡ₚ l ∧ StronglySorted descending l' ∧ ∀ k, of_score k l' = of_score k l.

End by_key.

End StableSort.

(** ** The orchestrator with the ranking client as its oracle *)

Module Retrieval.

(** [copilotService.rankDocumentsByRelevance] of a [CopilotService] in
    state [st], over an SDK. *)
Definition oracle (sdk : CopilotService.Sdk) (st : CopilotService.State)
  : Knowledge.Oracle :=
  λ query documents,
    (CopilotService.rankDocumentsByRelevance sdk st query documents).1.

End Retrieval.

(** ** Paths: [path.normalize] and [path.join] of Node.js, POSIX flavour

    These functions belong to the platform. The embedding follows the
    algorithm of the [path] module segment by segment. *)

Module Path.

Definition sep : ascii := "/"%char.

(** The segments of the path are read from left to right; [kept] holds the
    segments of the result, the last one first. A [..] removes the segment
    before it, unless there is none or it is a [..] itself: then it stays
    when the path is relative ([allowAboveRoot]) and goes when it is
    absolute. *)
Fixpoint normalizeSegments (allowAboveRoot : bool) (kept : list jsstring)
    (segments : list jsstring) : list jsstring :=
  match segments with
  | [] => rev kept
  | s :: segments' =>
      if bool_decide (s = []) || bool_decide (s = str ".") then
        normalizeSegments allowAboveRoot kept segments'
      else if bool_decide (s = str "..") then
        match kept with
        | last :: kept' =>
            if bool_decide (last = str "..") then
              normalizeSegments allowAboveRoot
                (if allowAboveRoot then s :: kept else kept) segments'
            else normalizeSegments allowAboveRoot kept' segments'
        | [] =>
            normalizeSegments allowAboveRoot
              (if allowAboveRoot then [s] else []) segments'
        end
      else normalizeSegments allowAboveRoot (s :: kept) segments'
  end.

Definition normalizeString (path : jsstring) (allowAboveRoot : bool)
  : jsstring :=
  Str.join [sep] (normalizeSegments allowAboveRoot [] (Str.split_on sep path)).

Definition isAbsolute (path : jsstring) : bool :=
  match path with
  | first :: _ => Ascii.eqb first sep
  | [] => false
  end.

(** [path.normalize(p)] *)
Definition normalize (path : jsstring) : jsstring :=
  match path with
  | [] => str "."
  | _ =>
      let trailingSeparator :=
        match last path with Some c => Ascii.eqb c sep | None => false end in
      match normalizeString path (negb (isAbsolute path)) with
      | [] =>
          if isAbsolute path then [sep]
          else if trailingSeparator then str "./" else str "."
      | normalized =>
          (if isAbsolute path then [sep] else [])
          ++ normalized ++ (if trailingSeparator then [sep] else [])
      end
  end.

(** The arguments of [path.join] that are not empty, joined by [/]. *)
Definition joined (a b : jsstring) : jsstring :=
  match a, b with
  | [], _ => b
  | _, [] => a
  | _, _ => a ++ [sep] ++ b
  end.

(** [path.join(a, b)] *)
Definition join (a b : jsstring) : jsstring := normalize (joined a b).

End Path.

(** ** A path under the corpus root *)

Module PathSpec.

(** The directories and the file that a path names, once its [.] and [..]
    are resolved: the segments that [path.normalize] joins. *)
Definition resolved (path : jsstring) : list jsstring :=
  Path.normalizeSegments (negb (Path.isAbsolute path)) []
    (Str.split_on Path.sep path).

(** The path [relative], taken from [root], stays under [root]: it names
    the directories that [root] names, and goes on from there. *)
Definition under (root relative : jsstring) : Prop :=
  resolved root `prefix_of` resolved (Path.joined root relative).

End PathSpec.

(** ** [KnowledgeService.loadDocument] *)

Module Loader.
Import Knowledge.

Section with_files.

(** [extractTitle] is a function of the content and of the path that does
    not throw; the title that it derives plays no part below. *)
Context (extractTitle : jsstring → jsstring → jsstring).

(** [fs.readFile(path, 'utf-8')]: the content, or the error. *)
Context (readFile : jsstring → exc jsstring).

(** The result, and the paths of the files that the call has tried to
    read. *)
Definition loadDocument (dataDirectory relativePath : jsstring)
  : exc (option KnowledgeDocument) * list jsstring :=
  let normalizedPath := Path.normalize relativePath in
  if Str.includes normalizedPath (str "..") then
    (Throw (str "Invalid path"), [])
  else
    let fullPath := Path.join dataDirectory normalizedPath in
    if negb (Str.startsWith fullPath dataDirectory) then
      (Throw (str "Invalid path"), [])
    else
      (catch
         (bind (readFile fullPath) (λ content,
          Ok (Some {| path := relativePath;
                      title := extractTitle content relativePath;
                      content := content;
                      snippet := None |})))
         (λ _, Ok None),
       [fullPath]).

End with_files.

End Loader.

(** ** The document cache and the objects of the service

    [getAllDocuments] hands out the cached document objects themselves, and
    [search] and [searchWithCopilot] read them and build new objects. The
    objects live in a heap, and arrays and the cache hold references to
    them, so that a write to a shared object would be visible. *)

Module Store.
Import Knowledge.

Definition ref := nat.

(** The two kinds of object that the service creates. *)
Inductive object :=
| Document (d : KnowledgeDocument)
| Scored (c : Candidate).

(** The fields of the service ([documentCache]) and the heap. A new object
    takes the next free reference. *)
Record State := {
  documentCache : gmap jsstring ref;
  heap : list object
}.

Definition initial : State := {| documentCache := ∅; heap := [] |}.

(** *** Computations on the state *)

Definition M (A : Type) : Type := State → exc A * State.

Definition ret {A} (a : A) : M A := λ st, (Ok a, st).

Definition bindM {A B} (m : M A) (k : A → M B) : M B :=
  λ st, match m st with
        | (Ok a, st') => k a st'
        | (Throw e, st') => (Throw e, st')
        end.

(** A computation that does not touch the state. *)
Definition lift {A} (m : exc A) : M A := λ st, (m, st).

(** [{ ... }]: a new object. *)
Definition new_object (o : object) : M ref :=
  λ st, (Ok (length (heap st)),
         {| documentCache := documentCache st; heap := heap st ++ [o] |}).

(** Reading the fields of a document through a reference. *)
Definition read_document (r : ref) : M KnowledgeDocument :=
  λ st, match heap st !! r with
        | Some (Document d) => (Ok d, st)
        | _ => (Throw (str "TypeError"), st)
        end.

Definition read_candidate (r : ref) : M Candidate :=
  λ st, match heap st !! r with
        | Some (Scored c) => (Ok c, st)
        | _ => (Throw (str "TypeError"), st)
        end.

Fixpoint for_ofM {A S} (body : S → A → M S) (a : list A) (s : S) : M S :=
  match a with
  | [] => ret s
  | x :: a' => bindM (body s x) (for_ofM body a')
  end.

(** [a.map(f)] for an [f] that builds objects. *)
Definition mapM {A B} (f : A → M B) (a : list A) : M (list B) :=
  for_ofM (λ bs x, bindM (f x) (λ b, ret (bs ++ [b]))) a [].

(** [a.sort(compare)] for a comparator that reads the heap and writes
    nothing: the sort runs in the current state and leaves it as it is. *)
Definition sortM {A} (compare : A → A → M Z) (a : list A) : M (list A) :=
  λ st, (Array_sort (λ x y, (compare x y st).1) a, st).

(** *** The corpus *)

(** An entry of a directory: a file with the outcome of reading it, a
    directory with the outcome of listing it, or something else. *)
Inductive entry :=
| File (name : jsstring) (read : exc jsstring)
| Directory (name : jsstring) (listing : exc (list entry))
| Other (name : jsstring).

(** [path.extname] of a file name: from the last dot on, unless the name
    starts with its only dot. *)
Fixpoint last_dot (i : nat) (name : jsstring) (found : option nat)
  : option nat :=
  match name with
  | [] => found
  | c :: name' =>
      last_dot (S i) name' (if Ascii.eqb c "."%char then Some i else found)
  end.

Definition extname (name : jsstring) : jsstring :=
  if bool_decide (name = str "..") then []
  else match last_dot 0 name None with
       | Some (S i) => drop (S i) name
       | _ => []
       end.

Section with_files.
Context `{RegExp.Engine}.
Context (extractTitle : jsstring → jsstring → jsstring).

(** The callback of the walk in [getAllDocuments], on the file of relative
    path [relativePath]. The relative path is the names from the root down
    joined by [/], which is what [path.relative] gives for a file under
    the root. *)
Definition visit (relativePath name : jsstring) (read : exc jsstring)
    (documents : list ref) (st : State) : list ref * State :=
  let ext := toLowerCase (extname name) in
  if bool_decide (ext = str ".md") || bool_decide (ext = str ".yaml")
     || bool_decide (ext = str ".yml") then
    match documentCache st !! relativePath with
    | Some doc => (documents ++ [doc], st)
    | None =>
        match read with
        | Throw _ => (documents, st)
        | Ok content =>
            if length (Str.trim content) <? 10 then (documents, st)
            else
              let doc := length (heap st) in
              (documents ++ [doc],
               {| documentCache := <[relativePath := doc]> (documentCache st);
                  heap := heap st ++
                    [Document {| path := relativePath;
                                 title := extractTitle content relativePath;
                                 content := content;
                                 snippet := None |}] |})
        end
    end
  else (documents, st).

Definition child (dir name : jsstring) : jsstring :=
  match dir with
  | [] => name
  | _ => dir ++ [Path.sep] ++ name
  end.

(** [walkDirectory]: [dir] is the path of the directory relative to the
    root, empty for the root itself. A directory that cannot be listed is
    passed over. *)
Fixpoint walkEntry (dir : jsstring) (e : entry) (acc : list ref * State)
  : list ref * State :=
  match e with
  | File name read => visit (child dir name) name read acc.1 acc.2
  | Directory name listing =>
      if Str.startsWith name (str ".") then acc
      else
        match listing with
        | Ok entries =>
            (fix walkEntries (es : list entry) (acc : list ref * State)
               : list ref * State :=
               match es with
               | [] => acc
               | e' :: es' =>
                   walkEntries es' (walkEntry (child dir name) e' acc)
               end) entries acc
        | Throw _ => acc
        end
  | Other _ => acc
  end.

Definition walkDirectory (root : exc (list entry)) (acc : list ref * State)
  : list ref * State :=
  match root with
  | Ok entries => fold_left (λ acc e, walkEntry [] e acc) entries acc
  | Throw _ => acc
  end.

Definition getAllDocuments (root : exc (list entry)) (st : State)
  : list ref * State :=
  walkDirectory root ([], st).

Definition clearCache (st : State) : State :=
  {| documentCache := ∅; heap := heap st |}.

(** *** [search] *)

Definition search_try (documents : list ref) (query : jsstring)
  : M (list ref) :=
  let queryTerms := queryTerms_of query in
  bindM (for_ofM (λ results r,
           bindM (read_document r) (λ doc,
           bindM (lift (relevance_score doc queryTerms)) (λ score,
           if (0 <? score)%Z then
             bindM (new_object
                      (Document (with_snippet doc
                                   (extractSnippet (content doc) queryTerms))))
               (λ result, ret (results ++ [result]))
           else ret results)))
           documents []) (λ results,
  bindM (sortM (λ a b,
           bindM (read_document b) (λ doc_b,
           bindM (lift (scoreDocument doc_b queryTerms)) (λ sb,
           bindM (read_document a) (λ doc_a,
           bindM (lift (scoreDocument doc_a queryTerms)) (λ sa,
           ret (sb - sa)%Z))))) results) (λ sorted,
  ret (slice sorted 0 3))).

Definition search (root : exc (list entry)) (query : jsstring) : M (list ref) :=
  λ st,
    let '(documents, st1) := getAllDocuments root st in
    let '(result, st2) := search_try documents query st1 in
    (catch result (λ _, Ok []), st2).

(** *** [searchWithCopilot] *)

Definition strip (c : ref) : M ref :=
  bindM (read_candidate c) (λ candidate,
  new_object (Document (without_score candidate))).

Definition searchWithCopilot_try (oracle : Oracle) (documents : list ref)
    (query : jsstring) (maxCandidates maxResults : Z) : M (list ref) :=
  let queryTerms := queryTerms_of query in
  bindM (for_ofM (λ candidates r,
           bindM (read_document r) (λ doc,
           bindM (lift (relevance_score doc queryTerms)) (λ score,
           if (0 <? score)%Z then
             bindM (new_object
                      (Scored (candidate doc
                                 (extractSnippet (content doc) queryTerms)
                                 score)))
               (λ c, ret (candidates ++ [c]))
           else ret candidates)))
           documents []) (λ candidates,
  bindM (if length candidates =? 0 then
           for_ofM (λ candidates r,
             bindM (read_document r) (λ doc,
             bindM (new_object
                      (Scored (candidate doc
                                 (extractSnippet (content doc) queryTerms)
                                 0)))
               (λ c, ret (candidates ++ [c]))))
             (slice documents 0 maxCandidates) candidates
         else ret candidates) (λ candidates,
  bindM (sortM (λ a b,
           bindM (read_candidate b) (λ cb,
           bindM (read_candidate a) (λ ca,
           ret (c_score cb - c_score ca)%Z))) candidates) (λ sorted,
  let topCandidates := slice sorted 0 maxCandidates in
  if (Z.of_nat (length topCandidates) <=? maxResults)%Z then
    mapM strip topCandidates
  else
    bindM (mapM (λ c, bindM (read_candidate c) (λ candidate,
                      ret (summary candidate))) topCandidates)
      (λ documentsToRank,
    bindM (lift (oracle query documentsToRank)) (λ ranking,
    mapM strip (slice (omap (index topCandidates) ranking) 0 maxResults)))))).

Definition searchWithCopilot (copilotService : option Oracle)
    (root : exc (list entry)) (query : jsstring)
    (maxCandidates maxResults : Z) : M (list ref) :=
  match copilotService with
  | None => search root query
  | Some oracle =>
      λ st,
        let '(documents, st1) := getAllDocuments root st in
        match searchWithCopilot_try oracle documents query
                maxCandidates maxResults st1 with
        | (Ok results, st2) => (Ok results, st2)
        | (Throw _, st2) => search root query st2
        end
  end.

(** *** The operations of the service, and the states that they reach *)

Inductive operation :=
| GetAllDocuments
| Search (query : jsstring)
| SearchWithCopilot (copilotService : option Oracle) (query : jsstring)
    (maxCandidates maxResults : Z)
| ClearCache.

(** The state after an operation, on the corpus as it is at that time,
    and the documents that the operation returns. *)
Definition run (root : exc (list entry)) (op : operation) (st : State)
  : list ref * State :=
  match op with
  | GetAllDocuments => getAllDocuments root st
  | Search query =>
      let '(results, st') := search root query st in
      (match results with Ok rs => rs | Throw _ => [] end, st')
  | SearchWithCopilot copilotService query maxCandidates maxResults =>
      let '(results, st') :=
        searchWithCopilot copilotService root query
          maxCandidates maxResults st in
      (match results with Ok rs => rs | Throw _ => [] end, st')
  | ClearCache => ([], clearCache st)
  end.

Inductive reachable : State → Prop :=
| reachable_initial : reachable initial
| reachable_run root op st : reachable st → reachable (run root op st).2.

End with_files.

End Store.

(** ** Pages and corpora of the examples *)

Definition moss_page : jsstring :=
  str "Care guide" ++ [Str.newline]
  ++ str "Moss likes shade and water" ++ [Str.newline]
  ++ str "line two" ++ [Str.newline]
  ++ str "line three" ++ [Str.newline]
  ++ str "line four".

(** An SDK whose client does not start. *)
Definition sdk_down : CopilotService.Sdk :=
  {| CopilotService.new_CopilotClient := Ok CopilotService.the_client;
     CopilotService.client_start := Throw (str "connect ECONNREFUSED");
     CopilotService.client_createSession := Ok ();
     CopilotService.session_sendAndWait := λ _, Ok None |}.

(** An SDK that answers every request with the same reply. *)
Definition sdk_replying (reply : jsstring) : CopilotService.Sdk :=
  {| CopilotService.new_CopilotClient := Ok CopilotService.the_client;
     CopilotService.client_start := Ok ();
     CopilotService.client_createSession := Ok ();
     CopilotService.session_sendAndWait := λ _,
       Ok (Some {| CopilotService.data :=
                     Some {| CopilotService.content := Some reply |} |}) |}.

Definition three_summaries : list CopilotService.Summary :=
  [ {| CopilotService.title := str "Moss Care Guide";
       CopilotService.snippet := str "General care information" |};
    {| CopilotService.title := str "Watering Schedule";
       CopilotService.snippet := str "Best practices for watering" |};
    {| CopilotService.title := str "Light Requirements";
       CopilotService.snippet := str "Proper lighting for moss" |} ].

Definition page (p t c : string) : Knowledge.KnowledgeDocument :=
  {| Knowledge.path := str p; Knowledge.title := str t;
     Knowledge.content := str c; Knowledge.snippet := None |}.

(** A corpus of three pages that all mention moss. *)
Definition moss_corpus : list Knowledge.KnowledgeDocument :=
  [ page "care.md" "Moss Care Guide" "Moss needs shade. Keep the moss moist.";
    page "water.md" "Watering Schedule" "Water the moss wall once a week.";
    page "light.md" "Light Requirements" "Indirect light keeps moss green." ].

(** An oracle that fails, as on a transport error. *)
Definition oracle_down : Knowledge.Oracle :=
  λ _ _, Throw (str "socket hang up").

(** A page whose content has a word that the pattern [moss.] matches but no
    occurrence of the term. *)
Definition mossy_page : Knowledge.KnowledgeDocument :=
  page "wall.md" "Guide" "mossy wall".

(** A page whose content has one occurrence of the term [moss.] and one
    word more that the pattern [moss.] matches. *)
Definition dotted_page : Knowledge.KnowledgeDocument :=
  page "dotted.md" "Guide" "moss. mossy".

(** Two pages with occurrences of the term [moss.]: two in the first, one
    in the second, which has three more words that the pattern matches. *)
Definition dotted_corpus : list Knowledge.KnowledgeDocument :=
  [ page "one.md" "One" "moss. moss.";
    page "two.md" "Two" "moss. mossy mossa mosse" ].

(** A stand-in for [extractTitle]: the path as the title. *)
Definition title_of_path : jsstring → jsstring → jsstring := λ _ path, path.

(** A file system without files. *)
Definition no_file : jsstring → exc jsstring :=
  λ _, Throw (str "ENOENT: no such file or directory").

(** A corpus root with two pages, a hidden directory, a file that is not a
    page and a file that cannot be read. *)
Definition small_root : exc (list Store.entry) :=
  Ok [ Store.File (str "care.md")
         (Ok (str "Moss needs shade and water to stay green."));
       Store.Directory (str ".git")
         (Ok [Store.File (str "notes.md") (Ok (str "hidden moss notes here"))]);
       Store.File (str "todo.txt") (Ok (str "buy more moss for the wall"));
       Store.File (str "broken.md") (Throw (str "EACCES"));
       Store.Directory (str "guides")
         (Ok [Store.File (str "light.MD")
                (Ok (str "Indirect light keeps the moss green."))]) ].

(** The state after a first search on that corpus. *)
Definition after_first_search : Store.State :=
  (Store.run (H := RegExp.strict) title_of_path small_root
     (Store.Search (str "moss")) Store.initial).2.

(** A page whose first line is a heading that mentions moss. *)
Definition headed_page : jsstring :=
  str "# Moss heading that is longer than twenty" ++ [Str.newline]
  ++ str "body text".


(** ** Notions used in the proofs *)

Module RankingAux.
Import RankingSpec.

(** The runs that start in [s], when [prev] tells whether a digit precedes
    [s]. *)
Fixpoint runs_after (prev : bool) (s : jsstring) : list jsstring :=
  match s with
  | [] => []
  | c :: s' =>
      (if is_digit c && negb prev then [take_while is_digit s] else [])
      ++ runs_after (is_digit c) s'
  end.

Definition ends_with_digit (p : jsstring) : bool :=
  match last p with Some d => is_digit d | None => false end.

End RankingAux.

Module SnippetAux.

(** A term that the outer loop passes over: too short, or in no line. *)
Definition passed (lines : list jsstring) (term : jsstring) : Prop :=
  length term < 3
  ∨ Forall (λ line, Str.includes (toLowerCase line) term = false) lines.

End SnippetAux.

Module ScoreAux.
Import Knowledge LexicalSpec.

(** What a term adds to the score. *)
Definition add_term (doc : KnowledgeDocument) (score : Z) (term : jsstring)
  : Z :=
  if length term <? 3 then score else (score + term_score doc term)%Z.

End ScoreAux.

(** Invariants of the cache and of the heap. *)
Module StoreInv.
Import Knowledge Store.

(** From [st] to [st'] the cache is the same and the heap has grown at its
    end: no object of [st] has changed. *)
Definition grows (st st' : State) : Prop :=
  documentCache st' = documentCache st ∧ heap st `prefix_of` heap st'.

Definition growing {A} (m : M A) : Prop := ∀ st, grows st (m st).2.

(** The references of [rs] are to objects made in [st] or later. *)
Definition made_since (st : State) (rs : list ref) : Prop :=
  Forall (λ r, length (heap st) ≤ r) rs.

(** All the references that [m] returns are to objects that it has made. *)
Definition makes {A} (get : A → list ref) (m : M A) : Prop :=
  ∀ st, match (m st).1 with
        | Ok a => made_since st (get a)
        | Throw _ => True
        end.

(** [body] adds to the array [s] only references to objects that it has
    made. *)
Definition appends {A} (body : list ref → A → M (list ref)) : Prop :=
  ∀ s x st, match (body s x st).1 with
            | Ok s' => ∃ new, s' = s ++ new ∧ made_since st new
            | Throw _ => True
            end.

(** Every entry of the cache refers to a document object that bears the
    path of the entry and no snippet. *)
Definition wf (st : State) : Prop :=
  ∀ p r, documentCache st !! p = Some r →
    ∃ d, heap st !! r = Some (Document d) ∧ path d = p ∧ snippet d = None.

(** From [st] to [st'] the cache has kept its entries and the heap has
    grown at its end. *)
Definition extends (st st' : State) : Prop :=
  documentCache st ⊆ documentCache st' ∧ heap st `prefix_of` heap st'.

(** What a step of the walk keeps. *)
Definition keeps (acc acc' : list ref * State) : Prop :=
  extends acc.2 acc'.2 ∧ (wf acc.2 → wf acc'.2).

(** The copies that a search returns are not entries of the cache. *)
Definition returns_copies (m : M (list ref)) : Prop :=
  ∀ st, wf st →
    extends st (m st).2 ∧ wf (m st).2
    ∧ ∀ rs r p, (m st).1 = Ok rs → r ∈ rs →
        documentCache (m st).2 !! p ≠ Some r.

(** The references [rs] are to the document objects of values [ds]. *)
Definition docs_at (st : State) (rs : list ref) (ds : list KnowledgeDocument)
  : Prop :=
  Forall2 (λ r d, heap st !! r = Some (Document d)) rs ds.

(** The references [rs] are to the candidate objects of values [cs]. *)
Definition candidates_at (st : State) (rs : list ref) (cs : list Candidate)
  : Prop :=
  Forall2 (λ r c, heap st !! r = Some (Scored c)) rs cs.

(** The references [rs] are entries of the cache. *)
Definition cached (st : State) (rs : list ref) : Prop :=
  Forall (λ r, ∃ p, documentCache st !! p = Some r) rs.

(** The files that the walk visits, in the order of the walk: relative
    path, name and outcome of the read. *)
Fixpoint files_of (dir : jsstring) (e : entry)
  : list (jsstring * jsstring * exc jsstring) :=
  match e with
  | File name read => [(child dir name, name, read)]
  | Directory name listing =>
      if Str.startsWith name (str ".") then []
      else
        match listing with
        | Ok entries =>
            (fix files_in (es : list entry) :=
               match es with
               | [] => []
               | e' :: es' => files_of (child dir name) e' ++ files_in es'
               end) entries
        | Throw _ => []
        end
  | Other _ => []
  end.

Definition files (root : exc (list entry))
  : list (jsstring * jsstring * exc jsstring) :=
  match root with
  | Ok entries => flat_map (files_of []) entries
  | Throw _ => []
  end.

(** The callback of the walk on a file. *)
Definition visit_file (extractTitle : jsstring → jsstring → jsstring)
    (acc : list ref * State) (f : jsstring * jsstring * exc jsstring)
  : list ref * State :=
  visit extractTitle f.1.1 f.1.2 f.2 acc.1 acc.2.

(** No two files of the corpus have the same relative path. *)
Definition distinct_paths (root : exc (list entry)) : Prop :=
  NoDup (map (λ f, f.1.1) (files root)).

(** The store computation [m] refines the computation [pure] on values:
    run from a state that [grows] from [st0], it fails when [pure] fails,
    and returns references to objects of the values that [pure] returns. *)
Definition refines {A V} (at_ : State → A → V → Prop) (st : State) (m : M A)
    (pure : exc V) : Prop :=
  match pure with
  | Ok v => ∃ a st', m st = (Ok a, st') ∧ grows st st' ∧ at_ st' a v
  | Throw e => ∃ st', m st = (Throw e, st') ∧ grows st st'
  end.

End StoreInv.

(** ** Notions of the search results *)

Module SearchAux.
Import Knowledge.

(** A document that the selection loop of [search] and of
    [searchWithCopilot] keeps: its score is positive. *)
Definition selected `{RegExp.Engine} (query : jsstring)
    (doc : KnowledgeDocument) : bool :=
  match relevance_score doc (queryTerms_of query) with
  | Ok score => (0 <? score)%Z
  | Throw _ => false
  end.

(** A term of three characters or more. *)
Definition long_term (term : jsstring) : bool := 3 <=? length term.

(** The score that the selection loop gives to a document. The loop of
    [searchWithCopilot] stores it in the candidate. Where the loop raises
    there is no score, and no candidate. *)
Definition loop_score `{RegExp.Engine} (query : jsstring)
    (doc : KnowledgeDocument) : Z :=
  match relevance_score doc (queryTerms_of query) with
  | Ok score => score
  | Throw _ => 0
  end.



End SearchAux.

(** ** Notions of the corpus and of the cache *)

Module CorpusAux.
Import Knowledge Store StoreInv.

(** Every entry of the cache refers to a document object of which [Q]
    holds, at the path of the entry. *)
Definition cache_holds (Q : jsstring → KnowledgeDocument → Prop) (st : State)
  : Prop :=
  ∀ p r, documentCache st !! p = Some r →
    ∃ d, heap st !! r = Some (Document d) ∧ Q p d.

(** A file name with the extension of a page: [.md], [.yaml] or [.yml],
    in upper or lower case. *)
Definition is_page (name : jsstring) : bool :=
  let ext := toLowerCase (extname name) in
  bool_decide (ext = str ".md") || bool_decide (ext = str ".yaml")
  || bool_decide (ext = str ".yml").

(** The document that a file of the walk gives when it is read: none for
    a file that is not a page, that cannot be read, or whose content has
    fewer than ten characters once trimmed. *)
Definition page_of (extractTitle : jsstring → jsstring → jsstring)
    (f : jsstring * jsstring * exc jsstring) : option KnowledgeDocument :=
  if is_page f.1.2 then
    match f.2 with
    | Ok content =>
        if length (Str.trim content) <? 10 then None
        else Some {| path := f.1.1;
                     title := extractTitle content f.1.1;
                     content := content;
                     snippet := None |}
    | Throw _ => None
    end
  else None.

(** The pages of the corpus, in the order of the walk. *)
Definition pages (extractTitle : jsstring → jsstring → jsstring)
    (root : exc (list entry)) : list KnowledgeDocument :=
  omap (page_of extractTitle) (files root).

End CorpusAux.

(** ** Patterns with a captured group

    [extractTitle] matches two patterns against the content. An engine
    runs a pattern by backtracking: each part of the pattern tries its
    alternatives in a fixed order, a greedy repetition from the longest
    run to the shortest and a lazy one from the shortest to the longest,
    and hands the rest of the input to the parts behind it; the first
    alternative for which they succeed is taken. A part is a function of
    its continuation [k] and of the input that is left. *)

Module Pattern.

(** [.] matches every character but a line terminator. *)
Definition not_terminator (c : ascii) : bool :=
  negb (RegExp.is_line_terminator c).

Section parts.
Context {A : Type}.

(** A text that is matched as it is. *)
Definition text (t : jsstring) (k : jsstring → option A) (s : jsstring)
  : option A :=
  if Str.startsWith s t then k (drop (length t) s) else None.

(** [x*] for a class [x] of characters, greedy. *)
Fixpoint star (class : ascii → bool) (k : jsstring → option A) (s : jsstring)
  : option A :=
  match s with
  | c :: s' =>
      if class c then
        match star class k s' with
        | Some r => Some r
        | None => k s
        end
      else k s
  | [] => k s
  end.

(** [x+], greedy. *)
Definition plus (class : ascii → bool) (k : jsstring → option A)
    (s : jsstring) : option A :=
  match s with
  | c :: s' => if class c then star class k s' else None
  | [] => None
  end.

(** [x?], greedy. *)
Definition optional (class : ascii → bool) (k : jsstring → option A)
    (s : jsstring) : option A :=
  match s with
  | c :: s' =>
      if class c then
        match k s' with
        | Some r => Some r
        | None => k s
        end
      else k s
  | [] => k s
  end.

(** [(x+)], greedy: [captured] holds the characters of the group that have
    been read, the last one first. *)
Fixpoint group_star (class : ascii → bool)
    (k : jsstring → jsstring → option A) (captured : jsstring) (s : jsstring)
  : option A :=
  match s with
  | c :: s' =>
      if class c then
        match group_star class k (c :: captured) s' with
        | Some r => Some r
        | None => k (rev captured) s
        end
      else k (rev captured) s
  | [] => k (rev captured) s
  end.

Definition group_plus (class : ascii → bool)
    (k : jsstring → jsstring → option A) (s : jsstring) : option A :=
  match s with
  | c :: s' => if class c then group_star class k [c] s' else None
  | [] => None
  end.

(** [(x+?)], lazy. *)
Fixpoint group_lazy_star (class : ascii → bool)
    (k : jsstring → jsstring → option A) (captured : jsstring) (s : jsstring)
  : option A :=
  match k (rev captured) s with
  | Some r => Some r
  | None =>
      match s with
      | c :: s' =>
          if class c then group_lazy_star class k (c :: captured) s' else None
      | [] => None
      end
  end.

Definition group_lazy_plus (class : ascii → bool)
    (k : jsstring → jsstring → option A) (s : jsstring) : option A :=
  match s with
  | c :: s' => if class c then group_lazy_star class k [c] s' else None
  | [] => None
  end.

(** [$] under the flag [m]: the end of the input or of a line. *)
Definition line_end (k : jsstring → option A) (s : jsstring) : option A :=
  match s with
  | [] => k s
  | c :: _ => if RegExp.is_line_terminator c then k s else None
  end.

(** [s.match(/^.../m)]: the pattern is tried at the positions of the input
    from left to right. [^] under the flag [m] holds at the start of the
    input and behind a line terminator; [line_start] tells whether it
    holds where [s] starts. *)
Fixpoint search (pattern : jsstring → option A) (line_start : bool)
    (s : jsstring) : option A :=
  match (if line_start then pattern s else None) with
  | Some r => Some r
  | None =>
      match s with
      | c :: s' => search pattern (RegExp.is_line_terminator c) s'
      | [] => None
      end
  end.

End parts.

End Pattern.

(** ** [path.extname] and [path.basename] of Node.js, POSIX flavour *)

Module PathName.

Definition is_sep (c : ascii) : bool := Ascii.eqb c Path.sep.

(** The separators at the end of the path. *)
Definition trailing (path : jsstring) : jsstring :=
  RankingSpec.take_while is_sep (rev path).

(** The last segment of the path; the separators at the end of the path
    do not count. *)
Definition last_segment (path : jsstring) : jsstring :=
  default []
    (last (Str.split_on Path.sep (rev (Str.drop_while is_sep (rev path))))).

(** [path.extname(p)]: the extension of the last segment. *)
Definition extname (path : jsstring) : jsstring :=
  Store.extname (last_segment path).

(** [s.endsWith(t)] *)
Definition endsWith (s t : jsstring) : bool := Str.startsWith (rev s) (rev t).

(** [path.basename(p, suffix)]: the last segment, without the suffix when
    it ends with it and is more than it. Two cases are particular to the
    algorithm: a suffix that is the whole path gives the empty string,
    and a last segment that is shorter than the suffix and ends it is
    returned with the separators that follow it. *)
Definition basename (path suffix : jsstring) : jsstring :=
  let name := last_segment path in
  if bool_decide (suffix = []) || (length path <? length suffix) then name
  else if bool_decide (suffix = path) then []
  else if (length name <? length suffix) && endsWith suffix name
  then name ++ trailing path
  else if endsWith name suffix && negb (bool_decide (name = suffix))
  then take (length name - length suffix) name
  else name.

End PathName.

(** ** [KnowledgeService.extractTitle] *)

Module Title.

Definition is_quote (c : ascii) : bool :=
  Ascii.eqb c Str.dquote || Ascii.eqb c "'"%char.

(** [content.match(/^#\s+(.+)$/m)]: the group of the match. *)
Definition headingMatch (content : jsstring) : option jsstring :=
  Pattern.search
    (Pattern.text (str "#")
       (Pattern.plus is_space
          (Pattern.group_plus Pattern.not_terminator (λ group,
             Pattern.line_end (λ _, Some group)))))
    true content.

(** [content.match(/^name:\s*["']?(.+?)["']?\s*$/m)]: the group of the
    match. *)
Definition yamlMatch (content : jsstring) : option jsstring :=
  Pattern.search
    (Pattern.text (str "name:")
       (Pattern.star is_space
          (Pattern.optional is_quote
             (Pattern.group_lazy_plus Pattern.not_terminator (λ group,
                Pattern.optional is_quote
                  (Pattern.star is_space
                     (Pattern.line_end (λ _, Some group))))))))
    true content.

(** [\w] *)
Definition is_word (c : ascii) : bool :=
  ((97 <=? code c) && (code c <=? 122)) || ((65 <=? code c) && (code c <=? 90))
  || is_digit c || Ascii.eqb c "_"%char.

(** [c.toUpperCase()] *)
Definition upper (c : ascii) : ascii :=
  if (97 <=? code c) && (code c <=? 122) then ascii_of_nat (code c - 32) else c.

(** [s.replace(/-/g, ' ')] *)
Definition spaced (s : jsstring) : jsstring :=
  map (λ c, if Ascii.eqb c "-"%char then " "%char else c) s.

(** [s.replace(/\b\w/g, c => c.toUpperCase())]: a word character is put in
    upper case when no word character precedes it; [word_before] tells
    whether one precedes [s]. *)
Fixpoint capitalized (word_before : bool) (s : jsstring) : jsstring :=
  match s with
  | [] => []
  | c :: s' =>
      (if is_word c && negb word_before then upper c else c)
      :: capitalized (is_word c) s'
  end.

Definition extractTitle (content filePath : jsstring) : jsstring :=
  match headingMatch content with
  | Some group => Str.trim group
  | None =>
      match yamlMatch content with
      | Some group => Str.trim group
      | None =>
          capitalized false
            (spaced (PathName.basename filePath (PathName.extname filePath)))
      end
  end.

End Title.

(** ** [CopilotService]: answers, streaming and shutdown *)

Module Lifecycle.
Import CopilotService.

(** The SDK with the operation that stops a client. The outcomes are those
    of the operations during one call of a method of the service; a method
    uses each operation at most once. *)
Record Sdk := {
  sdk :> CopilotService.Sdk;
  client_stop : exc unit
}.

(** [if (!this.client || !this.isInitialized) { await this.initialize(); }] *)
Definition started (sdk : CopilotService.Sdk) (st : State)
  : exc unit * State :=
  if bool_decide (client st = None) || negb (isInitialized st)
  then initialize sdk st
  else (Ok (), st).

Definition systemInstruction : jsstring :=
  str "You are a helpful and knowledgeable moss wall expert. Provide "
  ++ str "detailed, comprehensive answers with specific tips, care "
  ++ str "instructions, and explanations. Aim for thorough responses that "
  ++ str "fully address the question.".

(** The prompt with the context of the knowledge base, when there is one:
    a context that is [undefined] or empty is falsy. *)
Definition enhancedPrompt (prompt : jsstring) (context : option jsstring)
  : jsstring :=
  if truthy context then
    systemInstruction ++ [Str.newline; Str.newline]
    ++ str "Using the following context from the knowledge base:"
    ++ [Str.newline; Str.newline] ++ default [] context
    ++ [Str.newline; Str.newline]
    ++ str "Please provide a detailed answer to this question: " ++ prompt
  else
    systemInstruction ++ [Str.newline; Str.newline]
    ++ str "Please provide a detailed answer to this question: " ++ prompt.

Definition apology : jsstring :=
  str "I apologize, but I was unable to generate a response. "
  ++ str "Please try again.".

Definition getResponse (sdk : CopilotService.Sdk) (st : State)
    (prompt : jsstring) (context : option jsstring) : exc jsstring * State :=
  let '(ready, st1) := started sdk st in
  (match ready with
   | Throw e => Throw e
   | Ok _ =>
       match client st1 with
       | None => Throw (str "Copilot client is not initialized")
       | Some _ =>
           catch
             (bind (client_createSession sdk) (λ _,
              bind (session_sendAndWait sdk (enhancedPrompt prompt context))
                (λ response,
              if truthy (content_of response)
              then Ok (default [] (content_of response))
              else Ok apology)))
             (λ _, Throw (str "Failed to get response from Copilot"))
       end
   end, st1).

(** The result, the state, and the chunks that [onChunk] has been called
    with. The callback may throw. *)
Definition streamResponse (sdk : CopilotService.Sdk) (st : State)
    (prompt : jsstring) (context : option jsstring)
    (onChunk : jsstring → exc unit) : exc unit * State * list jsstring :=
  let '(ready, st1) := started sdk st in
  let failed := Throw (str "Failed to stream response from Copilot") in
  match ready with
  | Throw e => (Throw e, st1, [])
  | Ok _ =>
      match client st1 with
      | None => (Throw (str "Copilot client is not initialized"), st1, [])
      | Some _ =>
          match client_createSession sdk with
          | Throw _ => (failed, st1, [])
          | Ok _ =>
              match session_sendAndWait sdk (enhancedPrompt prompt context)
              with
              | Throw _ => (failed, st1, [])
              | Ok response =>
                  if truthy (content_of response) then
                    let chunk := default [] (content_of response) in
                    (catch (onChunk chunk) (λ _, failed), st1, [chunk])
                  else (Ok (), st1, [])
              end
          end
      end
  end.

Definition shutdown (sdk : Sdk) (st : State) : exc unit * State :=
  if negb (bool_decide (client st = None)) && isInitialized st then
    match client_stop sdk with
    | Ok _ => (Ok (), {| client := client st; isInitialized := false |})
    | Throw _ => (Ok (), st)
    end
  else (Ok (), st).

(** *** The methods of the service, and the states that they reach *)

Inductive operation :=
| Initialize
| GetResponse (prompt : jsstring) (context : option jsstring)
| StreamResponse (prompt : jsstring) (context : option jsstring)
    (onChunk : jsstring → exc unit)
| RankDocumentsByRelevance (query : jsstring) (documents : list Summary)
| Shutdown.

(** The state after a call, over the SDK as it behaves during the call. *)
Definition run (sdk : Sdk) (op : operation) (st : State) : State :=
  match op with
  | Initialize => (initialize sdk st).2
  | GetResponse prompt context => (getResponse sdk st prompt context).2
  | StreamResponse prompt context onChunk =>
      (streamResponse sdk st prompt context onChunk).1.2
  | RankDocumentsByRelevance query documents =>
      (rankDocumentsByRelevance sdk st query documents).2
  | Shutdown => (shutdown sdk st).2
  end.

Inductive reachable : State → Prop :=
| reachable_fresh : reachable fresh
| reachable_call sdk op st : reachable st → reachable (run sdk op st).

End Lifecycle.

(** ** The chat endpoint of the server

    [POST /api/chat] of the server that is built on both services: the
    search with the ranking service as its oracle, then the answer of the
    Copilot service with the documents found as its context. *)

Module Server.
Import Knowledge.

(** What the handler answers: the status and the [response] field of the
    body. *)
Record Response := { status : nat; response : jsstring }.

(** [`${doc.title}: ${doc.snippet}`]; a snippet that is [undefined] reads
    [undefined]. *)
Definition context_line (doc : KnowledgeDocument) : jsstring :=
  title doc ++ str ": " ++ default (str "undefined") (snippet doc).

(** [relevantDocs.length > 0 ? relevantDocs.map(...).join('\n\n') :
    undefined] *)
Definition context_of (relevantDocs : list KnowledgeDocument)
  : option jsstring :=
  if 0 <? length relevantDocs
  then Some (Str.join [Str.newline; Str.newline]
               (map context_line relevantDocs))
  else None.

Definition unavailable : jsstring :=
  str "The AI service is currently unavailable. Please ensure GitHub "
  ++ str "Copilot is properly configured.".

Definition fallbackResponse (context : option jsstring) : jsstring :=
  if CopilotService.truthy context then
    str "I found relevant information in the knowledge base:"
    ++ [Str.newline; Str.newline]
    ++ Str.substring0 (default [] context) 300 ++ str "..."
    ++ [Str.newline; Str.newline]
    ++ str "However, the AI service is currently unavailable. Please "
    ++ str "ensure GitHub Copilot is properly configured."
  else unavailable.

Section chat.
Context `{RegExp.Engine}.

(** The state of the Copilot service behind the search: the ranking call,
    when the search makes it, may have initialised the service. *)
Definition after_search (sdk : CopilotService.Sdk) (st : CopilotService.State)
    (calls : Calls) : CopilotService.State :=
  match calls with
  | (query, documents) :: _ =>
      (CopilotService.rankDocumentsByRelevance sdk st query documents).2
  | [] => st
  end.

(** The handler, on the [message] field of the body: [None] stands for a
    value that is not a string. [documents] are the documents of the
    corpus; [during_search] and [during_answer] are the SDK as it behaves
    during the two calls of the Copilot service. *)
Definition chat (during_search during_answer : CopilotService.Sdk)
    (st : CopilotService.State) (documents : list KnowledgeDocument)
    (message : option jsstring) : Response * CopilotService.State :=
  match message with
  | Some ((_ :: _) as text) =>
      let '(found, calls) :=
        searchWithCopilot (Some (Retrieval.oracle during_search st))
          documents text 10 3 in
      let st1 := after_search during_search st calls in
      match found with
      | Throw _ =>
          ({| status := 500;
              response := str "An error occurred processing your request" |},
           st1)
      | Ok relevantDocs =>
          let context := context_of relevantDocs in
          let '(answer, st2) :=
            Lifecycle.getResponse during_answer st1 text context in
          match answer with
          | Ok aiResponse => ({| status := 200; response := aiResponse |}, st2)
          | Throw _ =>
              ({| status := 200; response := fallbackResponse context |}, st2)
          end
      end
  | _ => ({| status := 400; response := str "Invalid message format" |}, st)
  end.

End chat.

End Server.

(** ** Services of the examples *)

(** An SDK that replies and whose client stops. *)
Definition sdk_live (reply : jsstring) : Lifecycle.Sdk :=
  {| Lifecycle.sdk := sdk_replying reply; Lifecycle.client_stop := Ok () |}.

(** An SDK whose session replies with an event that has no content. *)
Definition sdk_silent : CopilotService.Sdk :=
  {| CopilotService.new_CopilotClient := Ok CopilotService.the_client;
     CopilotService.client_start := Ok ();
     CopilotService.client_createSession := Ok ();
     CopilotService.session_sendAndWait := λ _,
       Ok (Some {| CopilotService.data := None |}) |}.

(** An SDK whose client starts and whose requests fail. *)
Definition sdk_refusing : CopilotService.Sdk :=
  {| CopilotService.new_CopilotClient := Ok CopilotService.the_client;
     CopilotService.client_start := Ok ();
     CopilotService.client_createSession := Ok ();
     CopilotService.session_sendAndWait := λ _, Throw (str "Timeout") |}.

(** A service whose client has started. *)
Definition started_service : CopilotService.State :=
  {| CopilotService.client := Some CopilotService.the_client;
     CopilotService.isInitialized := true |}.

(** ** Notions of the Copilot service *)

Module LifecycleInv.
Import CopilotService.

(** A service that is marked as initialised has a client. *)
Definition consistent (st : State) : Prop :=
  isInitialized st = true → client st ≠ None.

(** The error of [initialize]. *)
Definition initialize_failed : jsstring :=
  str "Failed to initialize Copilot client. "
  ++ str "Ensure GitHub Copilot is configured.".

(** The client of the SDK can be created and started. *)
Definition starts (sdk : Sdk) : Prop :=
  (∃ c, new_CopilotClient sdk = Ok c) ∧ client_start sdk = Ok ().

(** A method of the service finds the client started, or can start it. *)
Definition ready (sdk : Sdk) (st : State) : Prop :=
  isInitialized st = true ∨ starts sdk.

End LifecycleInv.

(** ** The database of the authentication layer ([db.ts])

    The module keeps one connection in the variable [db]. The driver is an
    external collaborator: opening, [pragma], [exec] and [close] succeed
    or throw. *)

Module Db.

(** The handle of an open database. *)
Inductive Database := the_database.

Record Driver := {
  new_Database : jsstring → exc Database;
  pragma : exc unit;
  exec : exc unit;
  close : exc unit
}.

(** The calls that reach the driver. *)
Inductive call :=
| Open (dbPath : jsstring)
| Pragma
| Exec
| Close.

(** [getDb]: the result, the variable [db] behind the call, and the calls
    made to the driver. *)
Definition getDb (driver : Driver) (dbPath : jsstring) (db : option Database)
  : exc Database * option Database * list call :=
  match db with
  | Some d => (Ok d, db, [])
  | None =>
      match new_Database driver dbPath with
      | Throw e => (Throw e, None, [Open dbPath])
      | Ok d =>
          match pragma driver with
          | Throw e => (Throw e, Some d, [Open dbPath; Pragma])
          | Ok _ =>
              match exec driver with
              | Throw e => (Throw e, Some d, [Open dbPath; Pragma; Exec])
              | Ok _ => (Ok d, Some d, [Open dbPath; Pragma; Exec])
              end
          end
      end
  end.

Definition closeDb (driver : Driver) (db : option Database)
  : exc unit * option Database * list call :=
  match db with
  | Some _ =>
      match close driver with
      | Throw e => (Throw e, db, [Close])
      | Ok _ => (Ok (), None, [Close])
      end
  | None => (Ok (), None, [])
  end.

End Db.

(** ** Characters above ASCII *)

(** [É] (U+00C9) has the lower case [é] (U+00E9), the multiplication sign
    (U+00D7) and [ß] (U+00DF) are left as they are, and the no-break space
    (U+00A0) is white space: [trim] strips it and [split(/\s+/)] splits at
    it. *)
Example latin1_ex :
  toLowerCase [ascii_of_nat 201; "A"%char; ascii_of_nat 215; ascii_of_nat 223]
  = [ascii_of_nat 233; "a"%char; ascii_of_nat 215; ascii_of_nat 223]
  ∧ Str.trim (ascii_of_nat 160 :: str " moss" ++ [ascii_of_nat 160])
    = str "moss"
  ∧ Str.split_ws (str "moss" ++ [ascii_of_nat 160] ++ str "wall")
    = [str "moss"; str "wall"].
Proof. repeat split; reflexivity. Qed.

(** * Part II: properties *)

(** ** Facts about the JavaScript primitives *)

Module JSFacts.

Lemma Array_includes_spec (a : list Z) (x : Z) :
  Array_includes a x = true ↔ x ∈ a.
Proof.
  unfold Array_includes. rewrite existsb_exists. split.
  - intros (y & Hy & Heq). apply Z.eqb_eq in Heq. subst y.
    by apply list_elem_of_In.
  - intros Hx. exists x. split; [by apply list_elem_of_In | apply Z.eqb_refl].
Qed.

Lemma Array_includes_false (a : list Z) (x : Z) :
  Array_includes a x = false ↔ x ∉ a.
Proof.
  rewrite <- Array_includes_spec. destruct (Array_includes a x); naive_solver.
Qed.

(** A boolean [filter] callback and its propositional reading select the
    same elements. *)
Lemma filter_bool_prop {A} (f : A → bool) (P : A → Prop)
    `{∀ x, Decision (P x)} (l : list A) :
  (∀ x, f x = true ↔ P x) → List.filter f l = filter P l.
Proof.
  intros Hf. induction l as [|x l IH]; [done|].
  simpl. rewrite filter_cons. destruct (f x) eqn:Hx.
  - rewrite decide_True by (by apply Hf). by rewrite IH.
  - rewrite decide_False; [done|]. intros HP. apply Hf in HP. congruence.
Qed.

End JSFacts.

(** ** The ranking parser *)

Module RankingFacts.
Import JSFacts Ranking RankingSpec RankingAux.

(** *** The scanner finds the maximal runs of digits *)

Lemma scan_digits_runs (cur s : jsstring) :
  scan_digits cur s =
  match cur with
  | [] => runs_after false s
  | _ => (rev cur ++ take_while is_digit s) :: runs_after true s
  end.
Proof.
  revert cur. induction s as [|c s IH]; intros cur.
  - destruct cur; simpl; [done|]. by rewrite app_nil_r.
  - simpl. destruct (is_digit c) eqn:Hc.
    + rewrite IH. destruct cur as [|d cur]; simpl; [done|].
      by rewrite <- !app_assoc.
    + destruct cur as [|d cur]; rewrite IH; simpl; [done|].
      by rewrite app_nil_r.
Qed.

Lemma run_start_app (p : jsstring) (c : ascii) (s : jsstring) :
  run_start (p ++ c :: s) (length p) = is_digit c && negb (ends_with_digit p).
Proof.
  unfold run_start, ends_with_digit.
  rewrite list_lookup_middle by done.
  destruct p as [|a p] using rev_ind; [done|].
  rewrite length_app, last_snoc. simpl.
  replace (length p + 1) with (S (length p)) by lia.
  rewrite <- app_assoc. simpl.
  by rewrite list_lookup_middle by done.
Qed.

Lemma run_at_app (p s : jsstring) :
  run_at (p ++ s) (length p) = take_while is_digit s.
Proof. unfold run_at. by rewrite drop_app_length. Qed.

Lemma digit_runs_from (p s : jsstring) :
  map (run_at (p ++ s))
    (List.filter (run_start (p ++ s)) (seq (length p) (length s)))
  = runs_after (ends_with_digit p) s.
Proof.
  revert p. induction s as [|c s IH]; intros p; [done|].
  cbn [length seq List.filter]. rewrite run_start_app.
  specialize (IH (p ++ [c])).
  rewrite <- app_assoc, length_app in IH. simpl in IH.
  replace (length p + 1) with (S (length p)) in IH by lia.
  assert (ends_with_digit (p ++ [c]) = is_digit c) as Hlast.
  { unfold ends_with_digit. by rewrite last_snoc. }
  rewrite Hlast in IH.
  cbn [runs_after].
  destruct (is_digit c && negb (ends_with_digit p)).
  - cbn [map app]. rewrite IH. by rewrite run_at_app.
  - by rewrite IH.
Qed.

Lemma scan_digits_spec (s : jsstring) : scan_digits [] s = digit_runs s.
Proof.
  rewrite scan_digits_runs. symmetry. exact (digit_runs_from [] s).
Qed.

(** *** [parseInt] reads the decimal value *)

Lemma parseInt_fold (ds : jsstring) (acc : Z) :
  fold_left (λ acc c, (10 * acc + digit_value c)%Z) ds acc
  = (acc * 10 ^ Z.of_nat (length ds) + decimal ds)%Z.
Proof.
  revert acc. induction ds as [|d ds IH]; intros acc; simpl fold_left.
  - simpl. lia.
  - rewrite IH. cbn [decimal length].
    rewrite Nat2Z.inj_succ, Z.pow_succ_r by lia. lia.
Qed.

Lemma parseInt_decimal (ds : jsstring) : parseInt ds = decimal ds.
Proof. unfold parseInt. rewrite parseInt_fold. lia. Qed.

(** *** A [Set] keeps first occurrences *)

Lemma dedup_first_elem (l : list Z) (x : Z) : x ∈ dedup_first l ↔ x ∈ l.
Proof.
  induction l as [|y l IH]; [done|].
  simpl. rewrite !elem_of_cons, list_elem_of_filter, IH.
  destruct (decide (x = y)); naive_solver.
Qed.

Lemma dedup_first_NoDup (l : list Z) : NoDup (dedup_first l).
Proof.
  induction l as [|y l IH]; simpl; [constructor|].
  constructor; [|by apply NoDup_filter].
  rewrite list_elem_of_filter. naive_solver.
Qed.

Lemma dedup_first_filter (P : Z → Prop) `{∀ x, Decision (P x)} (l : list Z) :
  dedup_first (filter P l) = filter P (dedup_first l).
Proof.
  induction l as [|y l IH]; [done|].
  rewrite filter_cons. simpl. destruct (decide (P y)).
  - simpl. rewrite filter_cons, decide_True by done. f_equal.
    rewrite IH. rewrite !list_filter_filter. apply list_filter_iff. naive_solver.
  - rewrite filter_cons, decide_False by done. rewrite IH.
    rewrite list_filter_filter. apply list_filter_iff. naive_solver.
Qed.

Lemma new_Set_fold (l acc : list Z) :
  fold_left Set_add l acc = acc ++ dedup_first (filter (λ x, x ∉ acc) l).
Proof.
  revert acc. induction l as [|x l IH]; intros acc; simpl.
  - by rewrite app_nil_r.
  - rewrite filter_cons. unfold Set_add at 2.
    destruct (Array_includes acc x) eqn:Hx.
    + apply Array_includes_spec in Hx.
      rewrite decide_False by naive_solver. apply IH.
    + apply Array_includes_false in Hx. rewrite decide_True by done.
      rewrite IH. simpl. rewrite <- app_assoc. simpl. do 2 f_equal.
      rewrite !dedup_first_filter, list_filter_filter.
      apply list_filter_iff. intros y. rewrite elem_of_app, list_elem_of_singleton.
      naive_solver.
Qed.

Lemma new_Set_spec (l : list Z) : new_Set l = dedup_first l.
Proof.
  unfold new_Set. rewrite new_Set_fold. simpl. f_equal.
  induction l as [|x l IH]; [done|].
  rewrite filter_cons, decide_True by apply not_elem_of_nil. by f_equal.
Qed.

(** *** The parser meets the policy *)

Lemma numbers_spec (content : jsstring) (N : nat) :
  default []
    (List.filter (λ num, (0 <=? num)%Z && (num <? Z.of_nat N)%Z)
       <$> (map parseInt <$> match_digits content))
  = filter (in_range N) (map decimal (digit_runs content)).
Proof.
  assert (∀ l, List.filter (λ num, (0 <=? num)%Z && (num <? Z.of_nat N)%Z) l
               = filter (in_range N) l) as Hfilter.
  { intros l. apply filter_bool_prop. intros v. unfold in_range.
    rewrite andb_true_iff, Z.leb_le, Z.ltb_lt. done. }
  unfold match_digits. rewrite scan_digits_spec.
  assert (map parseInt (digit_runs content) = map decimal (digit_runs content))
    as Hvalues by (apply map_ext; intros ds; apply parseInt_decimal).
  destruct (digit_runs content) as [|r rs] eqn:Hruns; [done|].
  cbn [fmap option_fmap option_map default]. by rewrite Hfilter, Hvalues.
Qed.

Lemma parseRanking_refines (content : jsstring) (N : nat) :
  parseRanking content N = ranking content N.
Proof.
  unfold parseRanking, ranking, extracted, Array_from_Set, Array_from_length.
  rewrite numbers_spec, new_Set_spec. f_equal.
  apply filter_bool_prop. intros i.
  rewrite negb_true_iff. apply Array_includes_false.
Qed.

Lemma extracted_in_range (reply : jsstring) (N : nat) (v : Z) :
  v ∈ extracted reply N → in_range N v.
Proof.
  unfold extracted. rewrite dedup_first_elem, list_elem_of_filter. tauto.
Qed.

Lemma identity_elem (N : nat) (v : Z) :
  v ∈ map Z.of_nat (seq 0 N) ↔ in_range N v.
Proof.
  unfold in_range. rewrite list_elem_of_fmap. split.
  - intros (i & -> & Hi). apply elem_of_seq in Hi. lia.
  - intros Hv. exists (Z.to_nat v). split; [lia|]. apply elem_of_seq. lia.
Qed.

Lemma identity_NoDup (N : nat) : NoDup (map Z.of_nat (seq 0 N)).
Proof. apply (NoDup_fmap_2 Z.of_nat), NoDup_seq. Qed.

Lemma ranking_permutation (reply : jsstring) (N : nat) :
  ranking reply N ≡ₚ map Z.of_nat (seq 0 N).
Proof.
  apply NoDup_Permutation.
  - unfold ranking. apply NoDup_app. split; [apply dedup_first_NoDup|].
    split; [|apply NoDup_filter, identity_NoDup].
    intros v Hv. rewrite list_elem_of_filter. tauto.
  - apply identity_NoDup.
  - intros v. unfold ranking.
    rewrite elem_of_app, list_elem_of_filter, identity_elem.
    split; [|destruct (decide (v ∈ extracted reply N)); tauto].
    intros [Hv | [_ Hv]]; [by eapply extracted_in_range | done].
Qed.

End RankingFacts.

Example parseRanking_ex1 :
  Ranking.parseRanking (str "2,0,4,1") 5 = [2; 0; 4; 1; 3]%Z.
Proof. reflexivity. Qed.

Example parseRanking_ex2 :
  Ranking.parseRanking (str "I think 3 then 1, 3 again, 17 and 007.") 4
  = [3; 1; 0; 2]%Z.
Proof. reflexivity. Qed.

(** C1. For every document count [N] and every reply, [parseRanking]
    returns the integers of the maximal digit runs of the reply that lie in
    [0, N), deduplicated in first-occurrence order, followed by the indices
    of [0..N-1] not yet present in ascending order; the result is therefore
    a sequence of exactly [N] distinct integers covering [0..N-1]. *)
Theorem parseRanking_full_permutation (content : jsstring) (N : nat) :
  Ranking.parseRanking content N = RankingSpec.ranking content N
  ∧ Ranking.parseRanking content N ≡ₚ Array_from_length N
  ∧ length (Ranking.parseRanking content N) = N
  ∧ NoDup (Ranking.parseRanking content N)
  ∧ (∀ i : Z, i ∈ Ranking.parseRanking content N ↔ (0 ≤ i < Z.of_nat N)%Z).
Proof.
  pose proof (RankingFacts.ranking_permutation content N) as Hperm.
  rewrite <- RankingFacts.parseRanking_refines in Hperm.
  split; [apply RankingFacts.parseRanking_refines|].
  split; [exact Hperm|]. split; [|split].
  - rewrite Hperm. by rewrite length_map, length_seq.
  - rewrite Hperm. apply RankingFacts.identity_NoDup.
  - intros i. rewrite Hperm. apply RankingFacts.identity_elem.
Qed.

(** ** Snippet extraction *)

Module SnippetFacts.
Import Knowledge LexicalSpec SnippetAux.

Lemma omap_index_seqZ {A} (l : list A) (j n : nat) :
  omap (index l) (seqZ (Z.of_nat j) (Z.of_nat n)) = take n (drop j l).
Proof.
  revert j. induction n as [|n IH]; intros j.
  - by rewrite seqZ_nil by lia.
  - rewrite seqZ_cons by lia.
    replace (Z.succ (Z.of_nat j)) with (Z.of_nat (S j)) by lia.
    replace (Z.pred (Z.of_nat (S n))) with (Z.of_nat n) by lia.
    cbn [omap list_omap]. rewrite IH. unfold index at 1.
    destruct (Z.ltb_spec (Z.of_nat j) 0); [lia|]. rewrite Nat2Z.id.
    destruct (l !! j) as [x|] eqn:Hx.
    + by rewrite (drop_S l x j Hx).
    + apply lookup_ge_None in Hx. rewrite !drop_ge by lia. by rewrite !take_nil.
Qed.

Lemma slice_nonneg {A} (l : list A) (b e : nat) :
  slice l (Z.of_nat b) (Z.of_nat e) = take (e - b) (drop b l).
Proof.
  unfold slice, slice_bound.
  destruct (Z.ltb_spec (Z.of_nat b) 0); [lia|].
  destruct (Z.ltb_spec (Z.of_nat e) 0); [lia|].
  rewrite !Nat2Z.id.
  destruct (decide (b ≤ length l)) as [Hb|Hb].
  - rewrite (Nat.min_l b) by lia.
    destruct (decide (e ≤ length l)) as [He|He].
    + by rewrite (Nat.min_l e) by lia.
    + rewrite (Nat.min_r e) by lia.
      rewrite !take_ge; [done | rewrite length_drop; lia..].
  - rewrite !drop_ge by lia. by rewrite !take_nil.
Qed.

(** The window of the code runs from one line before the match through
    two lines after it. *)
Lemma window_spec (lines : list jsstring) (i : nat) :
  i < length lines → window lines i = window_through 2 lines i.
Proof.
  intros Hi. unfold window, window_through, lines_between. do 2 f_equal.
  replace (Z.max 0 (Z.of_nat i - 1)) with (Z.of_nat (i - 1)) by lia.
  replace (Z.min (Z.of_nat (length lines)) (Z.of_nat i + 3))
    with (Z.of_nat (Nat.min (length lines) (i + 3))) by lia.
  rewrite slice_nonneg.
  replace (Z.of_nat i + 2 - (Z.of_nat i - 1) + 1)%Z with 4%Z by lia.
  destruct i as [|j].
  - change (Z.of_nat 0 - 1)%Z with (-1)%Z.
    rewrite seqZ_cons by lia. cbn [omap list_omap].
    change (index lines (-1)) with (@None jsstring). cbv iota.
    change (Z.succ (-1)) with (Z.of_nat 0). change (Z.pred 4) with (Z.of_nat 3).
    rewrite omap_index_seqZ. rewrite !drop_0, Nat.sub_0_r.
    destruct (decide (3 ≤ length lines)).
    + f_equal. lia.
    + rewrite !take_ge by lia. done.
  - replace (Z.of_nat (S j) - 1)%Z with (Z.of_nat j) by lia.
    change 4%Z with (Z.of_nat 4). rewrite omap_index_seqZ.
    replace (S j - 1) with j by lia.
    destruct (decide (j + 4 ≤ length lines)).
    + f_equal. lia.
    + rewrite !take_ge; [done | rewrite length_drop; lia..].
Qed.

Lemma ellipsis_truncated (s : jsstring) : ellipsis s = truncated s.
Proof.
  unfold ellipsis, truncated, Str.substring0.
  destruct (300 <? length s) eqn:Hlen.
  - apply Nat.ltb_lt in Hlen. by rewrite decide_False by lia.
  - apply Nat.ltb_ge in Hlen. by rewrite decide_True by lia.
Qed.

(** *** The inner loop *)

Lemma scan_lines_no_match (lines : list jsstring) (term : jsstring) (i : nat)
    (rest : list jsstring) :
  Forall (λ line, Str.includes (toLowerCase line) term = false) rest →
  scan_lines lines term i rest = None.
Proof.
  intros Hrest. revert i.
  induction Hrest as [|line rest Hline _ IH]; intros i; [done|].
  simpl. by rewrite Hline.
Qed.

Lemma scan_lines_first_match (lines : list jsstring) (term : jsstring)
    (i : nat) (before : list jsstring) (line : jsstring)
    (after : list jsstring) :
  Forall (λ l, Str.includes (toLowerCase l) term = false) before →
  Str.includes (toLowerCase line) term = true →
  20 < length (window lines (i + length before)) →
  scan_lines lines term i (before ++ line :: after)
  = Some (ellipsis (window lines (i + length before))).
Proof.
  intros Hbefore Hline Hlong. revert i Hlong.
  induction Hbefore as [|l before Hl _ IH]; intros i Hlong.
  - simpl in *. rewrite Nat.add_0_r in *. rewrite Hline.
    apply Nat.ltb_lt in Hlong. by rewrite Hlong.
  - simpl. rewrite Hl. rewrite IH.
    + do 3 f_equal. simpl. lia.
    + replace (S i + length before) with (i + length (l :: before))
        by (simpl; lia). done.
Qed.

(** *** The outer loop *)

Lemma scan_terms_first_term (lines : list jsstring)
    (before : list jsstring) (term : jsstring) (after : list jsstring)
    (snippet : jsstring) :
  Forall (passed lines) before →
  3 ≤ length term →
  scan_lines lines term 0 lines = Some snippet →
  scan_terms lines (before ++ term :: after) = Some snippet.
Proof.
  intros Hbefore Hlen Hscan.
  induction Hbefore as [|u before Hu _ IH].
  - simpl. destruct (length term <? 3) eqn:Hshort.
    + apply Nat.ltb_lt in Hshort. lia.
    + by rewrite Hscan.
  - simpl. destruct (length u <? 3) eqn:Hshort; [done|].
    apply Nat.ltb_ge in Hshort. destruct Hu as [Hu | Hu]; [lia|].
    by rewrite scan_lines_no_match.
Qed.

Lemma not_includes_false (s t : jsstring) :
  Str.includes s t ≠ true ↔ Str.includes s t = false.
Proof. destruct (Str.includes s t); naive_solver. Qed.

Lemma snippet_contract_two : snippet_contract 2.
Proof.
  intros content tb term ta lb line la Hlower Hlines Htb Hlen Hlb Hline Hlong.
  assert (toLowerCase term = term) as Hterm.
  { apply Forall_app in Hlower as [_ Hlower]. by inversion Hlower. }
  assert (length lb < length (Str.split_lines content)) as Hi.
  { rewrite Hlines, length_app. simpl. lia. }
  rewrite <- window_spec in * by done.
  unfold extractSnippet.
  rewrite (scan_terms_first_term _ tb term ta
             (ellipsis (window (Str.split_lines content) (length lb)))).
  - apply ellipsis_truncated.
  - apply Forall_app in Hlower as [Hlower _].
    clear -Htb Hlower. induction Htb as [|u tb Hu _ IH]; [constructor|].
    inversion Hlower as [|? ? Hu' Hlower']; subst.
    constructor; [|by apply IH].
    destruct Hu as [Hu | Hu]; [by left | right].
    eapply Forall_impl; [exact Hu|]. intros l Hl. unfold occurs_ci in Hl.
    rewrite Hu' in Hl. by apply not_includes_false.
  - done.
  - rewrite Hlines at 2.
    rewrite (scan_lines_first_match _ term 0 lb line la); [done | | | done].
    + eapply Forall_impl; [exact Hlb|]. intros l Hl. unfold occurs_ci in Hl.
      rewrite Hterm in Hl. by apply not_includes_false.
    + unfold occurs_ci in Hline. by rewrite Hterm in Hline.
Qed.

End SnippetFacts.

(** C8, as amended. When some term of three characters or more occurs in a
    line of the content (the terms being lower-cased, the lines compared
    in lower case), [extractSnippet] takes, for the first such term, the
    4-line window from one line before the first matching line through two
    lines after it, clipped to the content, joined and trimmed, and returns
    it when it has more than 20 characters, truncated to 300 characters
    with the ellipsis marker when it is longer. *)
Theorem extractSnippet_first_match_window
    (content : jsstring)
    (terms_before : list jsstring) (term : jsstring)
    (terms_after : list jsstring)
    (lines_before : list jsstring) (line : jsstring)
    (lines_after : list jsstring) :
  Forall (λ u, toLowerCase u = u) (terms_before ++ term :: terms_after) →
  Str.split_lines content = lines_before ++ line :: lines_after →
  Forall (λ u, length u < 3
               ∨ Forall (λ l, ¬ LexicalSpec.occurs_ci u l)
                   (Str.split_lines content))
    terms_before →
  3 ≤ length term →
  Forall (λ l, ¬ LexicalSpec.occurs_ci term l) lines_before →
  LexicalSpec.occurs_ci term line →
  20 < length (LexicalSpec.window_through 2 (Str.split_lines content)
                 (length lines_before)) →
  Knowledge.extractSnippet content (terms_before ++ term :: terms_after)
  = LexicalSpec.truncated
      (LexicalSpec.window_through 2 (Str.split_lines content)
         (length lines_before)).
Proof. apply SnippetFacts.snippet_contract_two. Qed.

Lemma extractSnippet_first_match_window_witness :
  Knowledge.extractSnippet moss_page [str "is"; str "fern"; str "moss"]
  = str "Care guide" ++ [Str.newline]
    ++ str "Moss likes shade and water" ++ [Str.newline]
    ++ str "line two" ++ [Str.newline]
    ++ str "line three".
Proof.
  refine (eq_trans
            (extractSnippet_first_match_window moss_page
               [str "is"; str "fern"] (str "moss") []
               [str "Care guide"] (str "Moss likes shade and water")
               [str "line two"; str "line three"; str "line four"]
               _ _ _ _ _ _ _) _).
  - repeat constructor.
  - reflexivity.
  - constructor; [left; vm_compute; lia|].
    constructor; [right|constructor].
    repeat constructor; vm_compute; discriminate.
  - vm_compute. lia.
  - repeat constructor; vm_compute; discriminate.
  - reflexivity.
  - vm_compute. lia.
  - reflexivity.
Defined.

(** The window does not reach the third line after the match: the claim as
    it is worded fails on a page that has one. *)
Lemma extractSnippet_three_after_counterexample :
  ¬ LexicalSpec.snippet_contract 3.
Proof.
  intros Hclaim.
  specialize (Hclaim moss_page [] (str "moss") []
                [str "Care guide"] (str "Moss likes shade and water")
                [str "line two"; str "line three"; str "line four"]).
  assert (Knowledge.extractSnippet moss_page [str "moss"]
          ≠ LexicalSpec.truncated
              (LexicalSpec.window_through 3 (Str.split_lines moss_page) 1))
    as Hne by (vm_compute; discriminate).
  apply Hne, Hclaim.
  - repeat constructor.
  - reflexivity.
  - constructor.
  - vm_compute. lia.
  - repeat constructor; vm_compute; discriminate.
  - reflexivity.
  - vm_compute. lia.
Qed.


(** The lines are lower-cased and the terms are not: a term with a capital
    letter matches no line, and the snippet falls back to the first
    lines that are no headings. *)
Example extractSnippet_term_case :
  LexicalSpec.occurs_ci (str "Moss")
    (str "# Moss heading that is longer than twenty")
  ∧ Knowledge.extractSnippet headed_page [str "Moss"] = str "body text"
  ∧ Knowledge.extractSnippet headed_page [str "moss"] = headed_page.
Proof. repeat split; reflexivity. Qed.

(** ** Exceptions and loops *)

Module ExcFacts.

Lemma bind_Ok {A B} (m : exc A) (k : A → exc B) (b : B) :
  bind m k = Ok b ↔ ∃ a, m = Ok a ∧ k a = Ok b.
Proof. destruct m; simpl; naive_solver. Qed.

Lemma catch_Ok_handler {A} (body : exc A) (fallback : A) :
  ∃ a, catch body (λ _, Ok fallback) = Ok a.
Proof. destruct body; simpl; eauto. Qed.

Lemma catch_throws {A} (body : exc A) (handler : jsstring → exc A) :
  throws body → ∃ e, body = Throw e ∧ catch body handler = handler e.
Proof. intros [e ->]. eauto. Qed.

Lemma not_throws_Ok {A} (m : exc A) : ¬ throws m ↔ ∃ a, m = Ok a.
Proof.
  unfold throws. destruct m as [a|e]; naive_solver.
Qed.

(** A loop whose body never throws is a fold. *)
Lemma for_of_total {A S} (body : S → A → exc S) (step : S → A → S)
    (a : list A) (s : S) :
  (∀ s x, x ∈ a → body s x = Ok (step s x)) →
  for_of body a s = Ok (fold_left step a s).
Proof.
  revert s. induction a as [|x a IH]; intros s Hbody; [done|].
  simpl. rewrite Hbody by left. simpl. apply IH.
  intros s' y Hy. apply Hbody. by right.
Qed.

End ExcFacts.

(** ** The sort *)

Module SortFacts.
Import Knowledge StableSort.

Section by_key.
Context {A : Type} (key : A → Z).

Lemma insert_desc_perm (x : A) (l : list A) : insert_desc key x l ≡ₚ x :: l.
Proof.
  induction l as [|y l IH]; [done|].
  simpl. destruct (key x <? key y)%Z; [|done].
  rewrite IH. apply Permutation_swap.
Qed.

Lemma sort_desc_perm (l : list A) : sort_desc key l ≡ₚ l.
Proof.
  induction l as [|x l IH]; [done|].
  simpl. rewrite insert_desc_perm. by rewrite IH.
Qed.

Lemma insert_desc_sorted (x : A) (l : list A) :
  StronglySorted (descending key) l →
  StronglySorted (descending key) (insert_desc key x l).
Proof.
  induction 1 as [|y l Hl IH Hy]; simpl.
  - repeat constructor.
  - destruct (Z.ltb_spec (key x) (key y)).
    + constructor; [done|].
      rewrite insert_desc_perm. constructor; [unfold descending; lia | done].
    + constructor; [by constructor|].
      constructor; [done|].
      eapply Forall_impl; [exact Hy|]. unfold descending. intros; lia.
Qed.

Lemma sort_desc_sorted (l : list A) :
  StronglySorted (descending key) (sort_desc key l).
Proof.
  induction l as [|x l IH]; simpl; [constructor | by apply insert_desc_sorted].
Qed.

Lemma insert_desc_of_score (k : Z) (x : A) (l : list A) :
  of_score key k (insert_desc key x l) = of_score key k (x :: l).
Proof.
  unfold of_score. induction l as [|y l IH]; [done|].
  simpl. destruct (Z.ltb_spec (key x) (key y)); [|done].
  rewrite filter_cons, IH, !filter_cons.
  destruct (decide (key y = k)), (decide (key x = k)); try done. lia.
Qed.

Lemma sort_desc_of_score (k : Z) (l : list A) :
  of_score key k (sort_desc key l) = of_score key k l.
Proof.
  induction l as [|x l IH]; [done|].
  simpl. rewrite insert_desc_of_score. unfold of_score in *.
  by rewrite !filter_cons, IH.
Qed.

Lemma sort_desc_stable (l : list A) : stable_sorted key l (sort_desc key l).
Proof.
  split; [apply sort_desc_perm|].
  split; [apply sort_desc_sorted | intros k; apply sort_desc_of_score].
Qed.

(** The sort of the code with a comparator that subtracts scores. *)
Lemma insert_sorted_by_key (compare : A → A → exc Z) (x : A) (l : list A) :
  (∀ y, y ∈ l → compare x y = Ok (key y - key x)%Z) →
  insert_sorted compare x l = Ok (insert_desc key x l).
Proof.
  induction l as [|y l IH]; intros Hcmp; [done|].
  simpl. rewrite Hcmp by left. simpl.
  replace (0 <? key y - key x)%Z with (key x <? key y)%Z
    by (destruct (Z.ltb_spec (key x) (key y)), (Z.ltb_spec 0 (key y - key x));
        done || lia).
  destruct (key x <? key y)%Z; [|done].
  rewrite IH; [done|]. intros z Hz. apply Hcmp. by right.
Qed.

Lemma Array_sort_by_key (compare : A → A → exc Z) (l : list A) :
  (∀ x y, x ∈ l → y ∈ l → compare x y = Ok (key y - key x)%Z) →
  Array_sort compare l = Ok (sort_desc key l).
Proof.
  induction l as [|x l IH]; intros Hcmp; [done|].
  simpl. rewrite IH by (intros; apply Hcmp; by right). simpl.
  apply insert_sorted_by_key. intros y Hy.
  apply Hcmp; [by left | right]. by rewrite <- (sort_desc_perm l).
Qed.

End by_key.

(** A sublist of a sorted list is sorted. *)
Lemma sorted_take {A} (R : relation A) (n : nat) (l : list A) :
  StronglySorted R l → StronglySorted R (take n l).
Proof.
  intros Hl. rewrite <- (take_drop n l) in Hl.
  by apply StronglySorted_app in Hl as (_ & Hl & _).
Qed.

Lemma slice0_take {A} (l : list A) (e : Z) :
  ∃ n, slice l 0 e = take n l.
Proof.
  unfold slice. change (slice_bound (length l) 0) with (Nat.min 0 (length l)).
  rewrite Nat.min_0_l, drop_0, Nat.sub_0_r. eauto.
Qed.

Lemma sorted_slice0 {A} (R : relation A) (l : list A) (e : Z) :
  StronglySorted R l → StronglySorted R (slice l 0 e).
Proof.
  destruct (slice0_take l e) as [n ->]. apply sorted_take.
Qed.

Lemma length_slice0 {A} (l : list A) (e : Z) :
  (0 ≤ e)%Z → (Z.of_nat (length (slice l 0 e)) ≤ e)%Z.
Proof.
  intros He. unfold slice, slice_bound.
  destruct (Z.ltb_spec 0 0); [lia|]. destruct (Z.ltb_spec e 0); [lia|].
  rewrite length_take, length_drop. lia.
Qed.

End SortFacts.

(** ** The client of the ranking oracle *)

Module CopilotFacts.
Import CopilotService.

(** The two ways in which a ranking call ends: the identity ordering, or
    the ordering parsed from a reply that has a content. *)
Lemma rank_cases (sdk : Sdk) (st : State) (query : jsstring)
    (documents : list Summary) :
  (rankDocumentsByRelevance sdk st query documents).1
    = Ok (Array_from_length (length documents))
  ∨ ∃ response reply,
      (rank_try sdk st query documents).1
        = Ok (Ranking.parseRanking reply (length documents))
      ∧ session_sendAndWait sdk (prompt query documents) = Ok response
      ∧ content_of response = Some reply
      ∧ truthy (Some reply) = true
      ∧ (rankDocumentsByRelevance sdk st query documents).1
          = Ok (Ranking.parseRanking reply (length documents)).
Proof.
  unfold rankDocumentsByRelevance, rank_try.
  destruct (if bool_decide (client st = None) || negb (isInitialized st)
            then initialize sdk st else (Ok (), st)) as [started st1].
  destruct started as [[]|e]; [|by left].
  destruct (client st1); [|by left].
  destruct (client_createSession sdk) as [[]|e]; [|by left].
  cbn [bind fst].
  destruct (session_sendAndWait sdk (prompt query documents))
    as [response|e] eqn:Hsend; [|by left].
  cbn [bind]. destruct (truthy (content_of response)) eqn:Hcontent; [|by left].
  right. destruct (content_of response) as [reply|] eqn:Hreply; [|done].
  exists response, reply. by rewrite Hreply.
Qed.

(** The call never raises, and its result is always a permutation of the
    candidate indices. *)
Lemma rank_permutation (sdk : Sdk) (st : State) (query : jsstring)
    (documents : list Summary) :
  ∃ ranking,
    (rankDocumentsByRelevance sdk st query documents).1 = Ok ranking
    ∧ ranking ≡ₚ Array_from_length (length documents).
Proof.
  destruct (rank_cases sdk st query documents)
    as [Hid | (response & reply & _ & _ & _ & _ & Hparsed)].
  - eauto.
  - eexists. split; [exact Hparsed|].
    rewrite RankingFacts.parseRanking_refines.
    apply RankingFacts.ranking_permutation.
Qed.

Lemma rank_try_throws (sdk : Sdk) (st : State) (query : jsstring)
    (documents : list Summary) :
  throws (rank_try sdk st query documents).1 →
  (rankDocumentsByRelevance sdk st query documents).1
  = Ok (Array_from_length (length documents)).
Proof.
  unfold rankDocumentsByRelevance.
  destruct (rank_try sdk st query documents) as [result st1].
  intros [e He]. simpl in He. by subst result.
Qed.

End CopilotFacts.

(** C2. If an exception occurs during [rankDocumentsByRelevance] (the
    client cannot be created or started, the session or the request fails
    or times out), or the reply has no content, or there is no document,
    the call returns the identity ordering [0, 1, ..., N-1], empty when
    [N = 0], and does not raise. *)
Theorem rankDocumentsByRelevance_falls_back_to_identity
    (sdk : CopilotService.Sdk) (st : CopilotService.State)
    (query : jsstring) (documents : list CopilotService.Summary) :
  throws (CopilotService.rank_try sdk st query documents).1
  ∨ (∃ response,
       CopilotService.session_sendAndWait sdk
         (CopilotService.prompt query documents) = Ok response
       ∧ CopilotService.truthy (CopilotService.content_of response) = false)
  ∨ length documents = 0 →
  (CopilotService.rankDocumentsByRelevance sdk st query documents).1
  = Ok (Array_from_length (length documents)).
Proof.
  intros Hcase.
  destruct (CopilotFacts.rank_cases sdk st query documents)
    as [Hid | (response & reply & Htry & Hsend & Hreply & Htruthy & Hparsed)];
    [done|].
  destruct Hcase as [[e He] | [(response' & Hsend' & Hempty) | Hnone]].
  - congruence.
  - rewrite Hsend in Hsend'. injection Hsend' as <-. congruence.
  - rewrite Hparsed. f_equal. rewrite Hnone.
    pose proof (RankingFacts.ranking_permutation reply 0) as Hperm.
    rewrite <- RankingFacts.parseRanking_refines in Hperm.
    by apply Permutation_nil_r in Hperm.
Qed.

Lemma rankDocumentsByRelevance_falls_back_to_identity_witness :
  (CopilotService.rankDocumentsByRelevance sdk_down CopilotService.fresh
     (str "How do I water my moss?") three_summaries).1
  = Ok [0; 1; 2]%Z.
Proof.
  apply (rankDocumentsByRelevance_falls_back_to_identity sdk_down
           CopilotService.fresh (str "How do I water my moss?")
           three_summaries).
  left. eexists. reflexivity.
Defined.

Example rank_reply_ex :
  (CopilotService.rankDocumentsByRelevance (sdk_replying (str "1, 0"))
     CopilotService.fresh (str "How do I water my moss?") three_summaries).1
  = Ok [1; 0; 2]%Z.
Proof. reflexivity. Qed.

Example entries_ex :
  CopilotService.entries 9 (take 2 three_summaries)
  = [ str "[9] Title: Moss Care Guide" ++ [Str.newline]
      ++ str "Snippet: General care information";
      str "[10] Title: Watering Schedule" ++ [Str.newline]
      ++ str "Snippet: Best practices for watering" ].
Proof. reflexivity. Qed.

(** ** The two search paths *)

Module SearchFacts.
Import Knowledge StableSort ExcFacts SortFacts.

Section with_engine.
Context `{RegExp.Engine}.

Lemma search_never_throws (documents : list KnowledgeDocument)
    (query : jsstring) :
  ∃ results, search documents query = Ok results.
Proof. apply catch_Ok_handler. Qed.

(** *** The candidates *)

(** The sort of the candidates cannot fail: it compares stored scores. *)
Lemma candidates_sort (candidates : list Candidate) :
  Array_sort (λ a b, Ok (c_score b - c_score a)%Z) candidates
  = Ok (sort_desc c_score candidates).
Proof. by apply Array_sort_by_key. Qed.

Lemma topCandidates_of_Ok (documents : list KnowledgeDocument)
    (query : jsstring) (maxCandidates : Z) (topCandidates : list Candidate) :
  topCandidates_of documents query maxCandidates = Ok topCandidates ↔
  ∃ candidates,
    keyword_candidates documents (queryTerms_of query) = Ok candidates
    ∧ topCandidates
      = slice (sort_desc c_score
                 (or_first_documents documents (queryTerms_of query)
                    maxCandidates candidates)) 0 maxCandidates.
Proof.
  unfold topCandidates_of. rewrite bind_Ok.
  split; intros (candidates & Hcandidates & Htop); exists candidates;
    (split; [done|]); rewrite candidates_sort in *; simpl in *; congruence.
Qed.

Lemma topCandidates_sorted (documents : list KnowledgeDocument)
    (query : jsstring) (maxCandidates : Z) (topCandidates : list Candidate) :
  topCandidates_of documents query maxCandidates = Ok topCandidates →
  StronglySorted (descending c_score) topCandidates.
Proof.
  intros (candidates & _ & ->)%topCandidates_of_Ok.
  apply sorted_slice0, sort_desc_sorted.
Qed.

(** The candidates are documents of the corpus, each taken at most once. *)
Lemma keyword_candidates_paths (documents : list KnowledgeDocument)
    (queryTerms : list jsstring) (acc candidates : list Candidate) :
  for_of (λ candidates doc,
    bind (relevance_score doc queryTerms) (λ score,
    if (0 <? score)%Z
    then Ok (candidates ++
               [candidate doc (extractSnippet (content doc) queryTerms) score])
    else Ok candidates)) documents acc = Ok candidates →
  ∃ new, candidates = acc ++ new
         ∧ c_path <$> new `sublist_of` path <$> documents.
Proof.
  revert acc. induction documents as [|doc documents IH]; intros acc Hloop.
  - simpl in Hloop. injection Hloop as <-. exists []. by rewrite app_nil_r.
  - simpl in Hloop. apply bind_Ok in Hloop as (acc' & Hdoc & Hloop).
    apply bind_Ok in Hdoc as (score & _ & Hdoc).
    apply IH in Hloop as (new & -> & Hnew).
    destruct (0 <? score)%Z; injection Hdoc as <-.
    + eexists (_ :: new). rewrite <- app_assoc. split; [done|].
      simpl. by apply sublist_skip.
    + exists new. split; [done|]. simpl. by apply sublist_cons.
Qed.

Lemma slice0_submseteq {A} (l : list A) (e : Z) : slice l 0 e ⊆+ l.
Proof. destruct (slice0_take l e) as [n ->]. apply submseteq_take. Qed.

Lemma topCandidates_paths (documents : list KnowledgeDocument)
    (query : jsstring) (maxCandidates : Z) (topCandidates : list Candidate) :
  topCandidates_of documents query maxCandidates = Ok topCandidates →
  c_path <$> topCandidates ⊆+ path <$> documents.
Proof.
  intros (candidates & Hcandidates & ->)%topCandidates_of_Ok.
  etrans; [apply fmap_submseteq, slice0_submseteq|].
  rewrite sort_desc_perm.
  apply keyword_candidates_paths in Hcandidates as (new & -> & Hnew).
  simpl. unfold or_first_documents.
  destruct (length new =? 0) eqn:Hnone.
  - apply Nat.eqb_eq, nil_length_inv in Hnone. subst new. simpl.
    rewrite <- list_fmap_compose.
    change (c_path ∘ _) with path.
    apply fmap_submseteq, slice0_submseteq.
  - by apply sublist_submseteq.
Qed.

Lemma submseteq_NoDup {A} (l k : list A) : l ⊆+ k → NoDup k → NoDup l.
Proof.
  intros (k' & Hk)%submseteq_Permutation Hnodup.
  rewrite Hk in Hnodup. by apply NoDup_app in Hnodup as [? _].
Qed.

(** *** Reordering by a permutation *)

Lemma index_nat {A} (l : list A) (i : nat) : index l (Z.of_nat i) = l !! i.
Proof.
  unfold index. destruct (Z.ltb_spec (Z.of_nat i) 0); [lia|].
  by rewrite Nat2Z.id.
Qed.

Lemma Array_from_length_seqZ (n : nat) :
  Array_from_length n = seqZ 0 (Z.of_nat n).
Proof.
  unfold Array_from_length, seqZ. rewrite Nat2Z.id.
  apply map_ext. intros i. lia.
Qed.

(** Reordering by a permutation of the indices permutes the candidates. *)
Lemma reorder_permutation (topCandidates : list Candidate) (ranking : list Z) :
  ranking ≡ₚ Array_from_length (length topCandidates) →
  reorder topCandidates ranking ≡ₚ topCandidates.
Proof.
  intros Hperm. unfold reorder. rewrite Hperm, Array_from_length_seqZ.
  rewrite (SnippetFacts.omap_index_seqZ topCandidates 0).
  by rewrite drop_0, firstn_all.
Qed.

(** *** The enhanced path *)

Lemma searchWithCopilot_try_throws (oracle : Oracle)
    (documents : list KnowledgeDocument) (query : jsstring)
    (maxCandidates maxResults : Z) :
  throws (searchWithCopilot_try oracle documents query
            maxCandidates maxResults).1 →
  (searchWithCopilot (Some oracle) documents query
     maxCandidates maxResults).1
  = search documents query.
Proof.
  unfold searchWithCopilot.
  destruct (searchWithCopilot_try oracle documents query
              maxCandidates maxResults) as [result calls].
  intros [e He]. simpl in He. by subst result.
Qed.

Lemma searchWithCopilot_never_throws (copilotService : option Oracle)
    (documents : list KnowledgeDocument) (query : jsstring)
    (maxCandidates maxResults : Z) :
  ∃ results,
    (searchWithCopilot copilotService documents query
       maxCandidates maxResults).1 = Ok results.
Proof.
  unfold searchWithCopilot. destruct copilotService as [oracle|].
  - destruct (searchWithCopilot_try oracle documents query
                maxCandidates maxResults) as [[results|e] calls]; simpl.
    + eauto.
    + apply search_never_throws.
  - apply search_never_throws.
Qed.

Lemma searchWithCopilot_few_candidates (oracle : Oracle)
    (documents : list KnowledgeDocument) (query : jsstring)
    (maxCandidates maxResults : Z) (topCandidates : list Candidate) :
  topCandidates_of documents query maxCandidates = Ok topCandidates →
  (Z.of_nat (length topCandidates) ≤ maxResults)%Z →
  searchWithCopilot (Some oracle) documents query maxCandidates maxResults
  = (Ok (map without_score topCandidates), []).
Proof.
  intros Htop Hfew. unfold searchWithCopilot, searchWithCopilot_try.
  rewrite Htop.
  destruct (Z.leb_spec (Z.of_nat (length topCandidates)) maxResults); [done|lia].
Qed.

Lemma searchWithCopilot_ranked (oracle : Oracle)
    (documents : list KnowledgeDocument) (query : jsstring)
    (maxCandidates maxResults : Z) (topCandidates : list Candidate)
    (ranking : list Z) :
  topCandidates_of documents query maxCandidates = Ok topCandidates →
  (maxResults < Z.of_nat (length topCandidates))%Z →
  oracle query (map summary topCandidates) = Ok ranking →
  searchWithCopilot (Some oracle) documents query maxCandidates maxResults
  = (Ok (map without_score
           (slice (reorder topCandidates ranking) 0 maxResults)),
     [(query, map summary topCandidates)]).
Proof.
  intros Htop Hmany Horacle. unfold searchWithCopilot, searchWithCopilot_try.
  rewrite Htop.
  destruct (Z.leb_spec (Z.of_nat (length topCandidates)) maxResults); [lia|].
  by rewrite Horacle.
Qed.

End with_engine.

End SearchFacts.

(** C5. If an exception is thrown inside the enhanced pipeline of
    [searchWithCopilot] (scoring, truncation, the oracle call, reordering),
    the call returns the result of the plain [search] for the same query,
    and does not raise. *)
Theorem searchWithCopilot_falls_back_to_search `{RegExp.Engine}
    (oracle : Knowledge.Oracle)
    (documents : list Knowledge.KnowledgeDocument) (query : jsstring)
    (maxCandidates maxResults : Z) :
  throws (Knowledge.searchWithCopilot_try oracle documents query
            maxCandidates maxResults).1 →
  (Knowledge.searchWithCopilot (Some oracle) documents query
     maxCandidates maxResults).1
  = Knowledge.search documents query
  ∧ ∃ results,
      (Knowledge.searchWithCopilot (Some oracle) documents query
         maxCandidates maxResults).1 = Ok results.
Proof.
  intros Hthrows. split.
  - by apply SearchFacts.searchWithCopilot_try_throws.
  - apply SearchFacts.searchWithCopilot_never_throws.
Qed.

Lemma searchWithCopilot_falls_back_to_search_witness :
  (Knowledge.searchWithCopilot (H := RegExp.strict) (Some oracle_down)
     moss_corpus (str "moss") 10 1).1
  = Knowledge.search (H := RegExp.strict) moss_corpus (str "moss")
  ∧ ∃ results,
      (Knowledge.searchWithCopilot (H := RegExp.strict) (Some oracle_down)
         moss_corpus (str "moss") 10 1).1 = Ok results.
Proof.
  apply (searchWithCopilot_falls_back_to_search (H := RegExp.strict)
           oracle_down moss_corpus (str "moss") 10 1).
  eexists. vm_compute. reflexivity.
Defined.

(** C10, as amended. When [searchWithCopilot] takes the oracle branch with
    the ranking client as its oracle and [maxResults] is not negative, the
    result is drawn from the truncated top candidates without using a
    candidate twice, has at most [maxResults] documents, has no two
    documents of the same path when the corpus has none, and its documents
    are candidates without their score. *)
Theorem searchWithCopilot_ranked_result `{RegExp.Engine}
    (sdk : CopilotService.Sdk) (st : CopilotService.State)
    (documents : list Knowledge.KnowledgeDocument) (query : jsstring)
    (maxCandidates maxResults : Z)
    (topCandidates : list Knowledge.Candidate) :
  Knowledge.topCandidates_of documents query maxCandidates = Ok topCandidates →
  (maxResults < Z.of_nat (length topCandidates))%Z →
  (0 ≤ maxResults)%Z →
  ∃ results,
    Knowledge.searchWithCopilot (Some (Retrieval.oracle sdk st)) documents
      query maxCandidates maxResults
    = (Ok results, [(query, map Knowledge.summary topCandidates)])
    ∧ results ⊆+ map Knowledge.without_score topCandidates
    ∧ (Z.of_nat (length results) ≤ maxResults)%Z
    ∧ (NoDup (map Knowledge.path documents) →
       NoDup (map Knowledge.path results)).
Proof.
  intros Htop Hmany Hnonneg.
  destruct (CopilotFacts.rank_permutation sdk st query
              (map Knowledge.summary topCandidates))
    as (ranking & Hranking & Hperm).
  rewrite length_map in Hperm.
  apply SearchFacts.reorder_permutation in Hperm.
  eexists. split.
  { by apply (SearchFacts.searchWithCopilot_ranked _ _ _ _ _ topCandidates
                ranking). }
  assert (map Knowledge.without_score
            (slice (Knowledge.reorder topCandidates ranking) 0 maxResults)
          ⊆+ map Knowledge.without_score topCandidates) as Hsub.
  { apply (fmap_submseteq Knowledge.without_score).
    rewrite <- Hperm at 2. apply SearchFacts.slice0_submseteq. }
  split; [exact Hsub|]. split.
  - rewrite length_map. by apply SortFacts.length_slice0.
  - intros Hpaths. eapply SearchFacts.submseteq_NoDup.
    + apply (fmap_submseteq Knowledge.path), Hsub.
    + change (NoDup (Knowledge.path <$>
                       (Knowledge.without_score <$> topCandidates))).
      rewrite <- list_fmap_compose.
      eapply SearchFacts.submseteq_NoDup; [|exact Hpaths].
      by eapply SearchFacts.topCandidates_paths.
Qed.

Lemma searchWithCopilot_ranked_result_witness :
  ∃ results,
    Knowledge.searchWithCopilot (H := RegExp.strict)
      (Some (Retrieval.oracle (sdk_replying (str "2,0")) CopilotService.fresh))
      moss_corpus (str "moss") 10 2
    = (Ok results,
       [(str "moss",
         map Knowledge.summary
           (map (λ d, Knowledge.candidate d (Knowledge.content d)
                        (if decide (Knowledge.path d = str "care.md")
                         then 12 else 1)%Z) moss_corpus))])
    ∧ results ⊆+ map Knowledge.without_score
                   (map (λ d, Knowledge.candidate d (Knowledge.content d)
                                (if decide (Knowledge.path d = str "care.md")
                                 then 12 else 1)%Z) moss_corpus)
    ∧ (Z.of_nat (length results) ≤ 2)%Z
    ∧ (NoDup (map Knowledge.path moss_corpus) →
       NoDup (map Knowledge.path results)).
Proof.
  apply (searchWithCopilot_ranked_result (H := RegExp.strict)
           (sdk_replying (str "2,0")) CopilotService.fresh
           moss_corpus (str "moss") 10 2).
  - vm_compute. reflexivity.
  - vm_compute. reflexivity.
  - lia.
Defined.

Example searchWithCopilot_ranked_ex :
  map Knowledge.path
    (default []
       (match (Knowledge.searchWithCopilot (H := RegExp.strict)
                 (Some (Retrieval.oracle (sdk_replying (str "2,0"))
                          CopilotService.fresh))
                 moss_corpus (str "moss") 10 2).1 with
        | Ok results => Some results
        | Throw _ => None
        end))
  = [str "light.md"; str "care.md"].
Proof. reflexivity. Qed.

(** With a negative [maxResults] the oracle branch is always taken, and
    [slice] counts the bound from the end: of three candidates, two are
    returned. *)
Lemma searchWithCopilot_negative_maxResults_counterexample :
  ∃ results calls,
    Knowledge.searchWithCopilot (H := RegExp.strict)
      (Some (Retrieval.oracle (sdk_replying (str "2,0")) CopilotService.fresh))
      moss_corpus (str "moss") 10 (-1)
    = (Ok results, calls)
    ∧ length calls = 1
    ∧ ¬ (Z.of_nat (length results) ≤ -1)%Z.
Proof.
  do 2 eexists. split; [vm_compute; reflexivity|].
  split; [reflexivity|]. vm_compute. intros Hle. by apply Hle.
Qed.

(** ** The lexical score *)

Module ScoreFacts.
Import Knowledge LexicalSpec StableSort ExcFacts SortFacts ScoreAux.

(** *** Literal terms *)

Lemma literal_chars (t : jsstring) :
  literal t = true →
  existsb RegExp.is_special t = false ∧ map RegExp.item_of t = map RegExp.Char t.
Proof.
  unfold literal. rewrite negb_true_iff.
  induction t as [|c t IH]; [done|].
  simpl. intros [Hc Ht]%orb_false_elim. apply orb_false_elim in Hc as [Hs Hd].
  destruct (IH Ht) as [IH1 IH2]. rewrite Hs, IH1, IH2.
  unfold RegExp.item_of. by rewrite Hd.
Qed.

Lemma compile_literal (t : jsstring) :
  literal t = true → t ≠ [] → RegExp.compile t = Some (map RegExp.Char t).
Proof.
  intros [Hs Hi]%literal_chars Hne. unfold RegExp.compile.
  destruct t as [|c t]; [done|]. by rewrite Hs, Hi.
Qed.

Lemma matches_at_literal (t s : jsstring) :
  RegExp.matches_at (map RegExp.Char t) s = Str.startsWith s t.
Proof.
  revert s. induction t as [|a t IH]; intros [|c s]; simpl; try done.
  by rewrite IH.
Qed.

Lemma count_matches_literal (t : jsstring) (skip : nat) (s : jsstring) :
  RegExp.count_matches_go (map RegExp.Char t) skip s = occurrences_go t skip s.
Proof.
  revert skip. induction s as [|c s IH]; intros skip; [done|].
  cbn [RegExp.count_matches_go occurrences_go]. destruct skip as [|k]; [|apply IH].
  rewrite matches_at_literal, length_map. by rewrite !IH.
Qed.

Section with_engine.
Context `{RegExp.Engine}.

Lemma match_count_literal (t s : jsstring) :
  literal t = true → t ≠ [] → RegExp.match_count t s = Ok (occurrences t s).
Proof.
  intros Ht Hne. unfold RegExp.match_count. rewrite compile_literal by done.
  unfold RegExp.count_matches, occurrences. by rewrite count_matches_literal.
Qed.

(** A term that is not in the content has no occurrence to count. *)
Lemma startsWith_includes (s t : jsstring) :
  Str.startsWith s t = true → Str.includes s t = true.
Proof. destruct s; simpl; intros ->; done. Qed.

Lemma occurrences_go_not_included (t : jsstring) (skip : nat) (s : jsstring) :
  Str.includes s t = false → occurrences_go t skip s = 0.
Proof.
  revert skip. induction s as [|c s IH]; intros skip Hs; [done|].
  cbn [Str.includes] in Hs. apply orb_false_elim in Hs as [Hhere Hrest].
  cbn [occurrences_go]. destruct skip as [|k]; [|by apply IH].
  rewrite Hhere. by apply IH.
Qed.

(** *** The two scoring loops on literal terms *)

Lemma fold_add_term (doc : KnowledgeDocument) (terms : list jsstring)
    (score : Z) :
  fold_left (add_term doc) terms score
  = (score + foldr Z.add 0
               (map (term_score doc)
                  (List.filter (λ t, (3 <=? length t)%nat) terms)))%Z.
Proof.
  revert score. induction terms as [|t terms IH]; intros score.
  - simpl. lia.
  - cbn [fold_left List.filter]. rewrite IH. unfold add_term.
    destruct (Nat.ltb_spec (length t) 3), (Nat.leb_spec 3 (length t));
      try lia; cbn [map foldr]; lia.
Qed.

Lemma long_term_not_empty (t : jsstring) : ¬ length t < 3 → t ≠ [].
Proof. intros Hlen ->. simpl in Hlen. lia. Qed.

Lemma scoreDocument_literal (doc : KnowledgeDocument) (query : jsstring) :
  literal_query query →
  scoreDocument doc (queryTerms_of query) = Ok (score doc query).
Proof.
  intros Hquery. unfold scoreDocument, score.
  rewrite (for_of_total _ (add_term doc)).
  - by rewrite fold_add_term.
  - intros s t Ht. unfold literal_query in Hquery.
    rewrite Forall_forall in Hquery. specialize (Hquery t Ht).
    unfold add_term, term_score.
    destruct (Nat.ltb_spec (length t) 3) as [Hshort|Hlong]; [done|].
    destruct Hquery as [?|Hlit]; [lia|].
    rewrite match_count_literal by (done || apply long_term_not_empty; lia).
    simpl. f_equal. destruct (Str.includes (toLowerCase (title doc)) t); lia.
Qed.

Lemma relevance_score_literal (doc : KnowledgeDocument) (query : jsstring) :
  literal_query query →
  relevance_score doc (queryTerms_of query) = Ok (score doc query).
Proof.
  intros Hquery. unfold relevance_score, score.
  rewrite (for_of_total _ (add_term doc)).
  - by rewrite fold_add_term.
  - intros s t Ht. unfold literal_query in Hquery.
    rewrite Forall_forall in Hquery. specialize (Hquery t Ht).
    unfold add_term, term_score.
    destruct (Nat.ltb_spec (length t) 3) as [Hshort|Hlong]; [done|].
    destruct Hquery as [?|Hlit]; [lia|].
    destruct (Str.includes (toLowerCase (content doc)) t) eqn:Hcontent.
    + rewrite match_count_literal by (done || apply long_term_not_empty; lia).
      simpl. f_equal. destruct (Str.includes (toLowerCase (title doc)) t); lia.
    + unfold occurrences. rewrite occurrences_go_not_included by done.
      f_equal. destruct (Str.includes (toLowerCase (title doc)) t); lia.
Qed.

(** *** [search] on a query of literal terms *)

Lemma score_with_snippet (doc : KnowledgeDocument) (s query : jsstring) :
  score (with_snippet doc s) query = score doc query.
Proof. done. Qed.

Lemma search_loop_literal (documents : list KnowledgeDocument)
    (query : jsstring) (results : list KnowledgeDocument) :
  literal_query query →
  for_of (λ results doc,
    bind (relevance_score doc (queryTerms_of query)) (λ score,
    if (0 <? score)%Z
    then Ok (results ++
               [with_snippet doc
                  (extractSnippet (content doc) (queryTerms_of query))])
    else Ok results)) documents results
  = Ok (results ++
          map (with_its_snippet query)
            (List.filter (λ d, (0 <? score d query)%Z) documents)).
Proof.
  intros Hquery. revert results.
  induction documents as [|doc documents IH]; intros results; simpl.
  - by rewrite app_nil_r.
  - rewrite relevance_score_literal by done. simpl.
    destruct (0 <? score doc query)%Z; simpl; rewrite IH; [|done].
    by rewrite <- app_assoc.
Qed.

(** On a query of literal terms, [search] returns the documents of a
    positive lexical score, each with its snippet, sorted by descending
    score with ties in the order of the corpus, the first three of them. *)
Lemma search_literal (documents : list KnowledgeDocument) (query : jsstring) :
  literal_query query →
  ∃ sorted,
    search documents query = Ok (take 3 sorted)
    ∧ stable_sorted (λ d, score d query)
        (map (with_its_snippet query)
           (List.filter (λ d, (0 <? score d query)%Z) documents))
        sorted.
Proof.
  intros Hquery. eexists. split; [|apply sort_desc_stable].
  unfold search, search_try.
  rewrite (search_loop_literal documents query []) by done. simpl.
  rewrite (Array_sort_by_key (λ d, score d query)).
  - simpl. rewrite (SnippetFacts.slice_nonneg _ 0 3). by rewrite drop_0.
  - intros a b _ _. by rewrite !scoreDocument_literal.
Qed.

End with_engine.

End ScoreFacts.

Example literal_query_ex :
  LexicalSpec.literal_query (str "How is MOSS watered")
  ∧ ¬ LexicalSpec.literal_query (str "is moss. green")
  ∧ ¬ LexicalSpec.literal_query (str "what about C++?").
Proof.
  split; [|split].
  - repeat constructor; vm_compute; lia.
  - intros Hq. apply Forall_inv_tail, Forall_inv in Hq.
    vm_compute in Hq. destruct Hq as [Hq | Hq]; [lia | discriminate].
  - intros Hq. do 2 apply Forall_inv_tail in Hq. apply Forall_inv in Hq.
    vm_compute in Hq. destruct Hq as [Hq | Hq]; [lia | discriminate].
Qed.

Example relevance_score_ex :
  map (λ d, Knowledge.relevance_score (H := RegExp.strict) d
              (Knowledge.queryTerms_of (str "How is MOSS watered")))
    moss_corpus
  = [Ok 12%Z; Ok 1%Z; Ok 1%Z].
Proof. reflexivity. Qed.

Example spec_score_ex :
  map (λ d, LexicalSpec.score d (str "How is MOSS watered")) moss_corpus
  = [12%Z; 1%Z; 1%Z].
Proof. reflexivity. Qed.

(** C3, at a failing input that [search] and [searchWithCopilot] reach.
    The term [moss.] occurs once in the content of the page [dotted_page]
    and not in its title, so that the lexical score of the specification
    is 1. The page passes the guard [contentLower.includes(term)] of the
    scoring loop, and the loop, as [scoreDocument] does, then counts the
    matches of the term read as a pattern, which are [moss.] and [mossy]:
    both score 2. [search] keeps the page on this score, and
    [searchWithCopilot] stores the score in the candidate that it makes of
    the page. *)
Theorem score_reads_term_as_pattern `{RegExp.Engine} :
  Knowledge.queryTerms_of (str "moss.") = [str "moss."]
  ∧ Knowledge.relevance_score dotted_page
      (Knowledge.queryTerms_of (str "moss.")) = Ok 2%Z
  ∧ Knowledge.scoreDocument dotted_page
      (Knowledge.queryTerms_of (str "moss.")) = Ok 2%Z
  ∧ LexicalSpec.score dotted_page (str "moss.") = 1%Z
  ∧ Str.includes (toLowerCase (Knowledge.title dotted_page)) (str "moss.")
    = false
  ∧ LexicalSpec.occurrences (str "moss.")
      (toLowerCase (Knowledge.content dotted_page)) = 1
  ∧ Knowledge.search [dotted_page] (str "moss.")
    = Ok [LexicalSpec.with_its_snippet (str "moss.") dotted_page]
  ∧ Knowledge.topCandidates_of [dotted_page] (str "moss.") 10
    = Ok [Knowledge.candidate dotted_page (str "moss. mossy") 2].
Proof. repeat split; reflexivity. Qed.

(** C4, at failing inputs. Both pages of [dotted_corpus] contain the term
    [moss.], the first twice and the second once, so that the first has the
    higher lexical score; [search] returns the second page first, because
    the comparator of its sort counts the matches of the pattern. And
    [search] leaves out the page [mossy_page], to which its own
    [scoreDocument] gives a positive score: the loop that selects the
    documents and the comparator that sorts them do not score alike. *)
Theorem search_orders_by_pattern_matches `{RegExp.Engine} :
  (map Knowledge.path <$>
     match Knowledge.search dotted_corpus (str "moss.") with
     | Ok results => Some results
     | Throw _ => None
     end) = Some [str "two.md"; str "one.md"]
  ∧ map (λ d, LexicalSpec.score d (str "moss.")) dotted_corpus = [2%Z; 1%Z]
  ∧ map (λ d, Knowledge.scoreDocument d
                (Knowledge.queryTerms_of (str "moss."))) dotted_corpus
    = [Ok 2%Z; Ok 4%Z]
  ∧ Knowledge.search [mossy_page] (str "moss.") = Ok []
  ∧ Knowledge.scoreDocument mossy_page (Knowledge.queryTerms_of (str "moss."))
    = Ok 1%Z.
Proof. repeat split; reflexivity. Qed.

(** With an engine that refuses the pattern [c++], as the engines of
    JavaScript do, the comparator of the sort throws as soon as two
    documents are compared, and [search] returns nothing, where the keyword
    [moss] alone finds the three pages. *)
Example search_pattern_refused :
  Knowledge.search (H := RegExp.strict) moss_corpus (str "moss c++") = Ok []
  ∧ (length <$>
       match Knowledge.search (H := RegExp.strict) moss_corpus (str "moss") with
       | Ok results => Some results
       | Throw _ => None
       end) = Some 3.
Proof. split; reflexivity. Qed.

(** ** Loading one document *)

Example normalize_ex :
  map Path.normalize
    [str "../secrets.txt"; str "a/../../b"; str "guides//care.md";
     str "./a/./b/"; str "/a/../../b"; str "a/.."; str ""]
  = [str "../secrets.txt"; str "../b"; str "guides/care.md";
     str "a/b/"; str "/b"; str "."; str "."].
Proof. reflexivity. Qed.

Example join_ex :
  Path.join (str "/srv/app/data") (str "guides/care.md")
  = str "/srv/app/data/guides/care.md".
Proof. reflexivity. Qed.

Module PathFacts.
Import PathSpec.

Lemma split_on_go_app (sep : ascii) (cur a b : jsstring) :
  Str.split_on_go sep cur (a ++ sep :: b)
  = Str.split_on_go sep cur a ++ Str.split_on sep b.
Proof.
  revert cur. induction a as [|c a IH]; intros cur; simpl.
  - by rewrite Ascii.eqb_refl.
  - destruct (Ascii.eqb c sep); simpl; by rewrite IH.
Qed.

(** A piece of a split string is a part of the string. *)
Lemma split_on_go_piece (sep : ascii) (cur p s : jsstring) :
  s ∈ Str.split_on_go sep cur p → ∃ a b, rev cur ++ p = a ++ s ++ b.
Proof.
  revert cur. induction p as [|c p IH]; intros cur; simpl.
  - intros ->%list_elem_of_singleton. exists [], []. by rewrite !app_nil_r.
  - destruct (Ascii.eqb c sep).
    + intros [-> | Hs]%elem_of_cons.
      * exists [], (c :: p). done.
      * apply IH in Hs as (a & b & Hab). simpl in Hab.
        exists (rev cur ++ c :: a), b. rewrite Hab.
        by rewrite <- !app_assoc.
    + intros Hs. apply IH in Hs as (a & b & Hab). exists a, b.
      rewrite <- Hab. simpl. by rewrite <- app_assoc.
Qed.

Lemma startsWith_app (s b : jsstring) : Str.startsWith (s ++ b) s = true.
Proof.
  induction s as [|c s IH]; [by destruct b|].
  simpl. by rewrite Ascii.eqb_refl, IH.
Qed.

Lemma includes_part (a s b : jsstring) : Str.includes (a ++ s ++ b) s = true.
Proof.
  induction a as [|c a IH]; simpl.
  - apply ScoreFacts.startsWith_includes, startsWith_app.
  - rewrite IH. apply orb_true_r.
Qed.

Lemma segment_included (p s : jsstring) :
  s ∈ Str.split_on Path.sep p → Str.includes p s = true.
Proof.
  intros (a & b & Hab)%split_on_go_piece. simpl in Hab. rewrite Hab.
  apply includes_part.
Qed.

Lemma normalizeSegments_app (allow : bool) (kept a b : list jsstring) :
  Path.normalizeSegments allow kept (a ++ b)
  = Path.normalizeSegments allow
      (rev (Path.normalizeSegments allow kept a)) b.
Proof.
  revert kept. induction a as [|s a IH]; intros kept; simpl.
  - by rewrite rev_involutive.
  - repeat case_match; apply IH.
Qed.

(** Without a [..], every segment that is not empty and not [.] is kept. *)
Lemma normalizeSegments_plain (allow : bool) (kept segments : list jsstring) :
  Forall (λ s, s ≠ str "..") segments →
  ∃ more, Path.normalizeSegments allow kept segments = rev kept ++ more.
Proof.
  intros Hplain. revert kept.
  induction Hplain as [|s segments Hs _ IH]; intros kept; simpl.
  - exists []. by rewrite app_nil_r.
  - destruct (_ || _); [apply IH|].
    rewrite bool_decide_eq_false_2 by done.
    destruct (IH (s :: kept)) as [more ->]. exists (s :: more).
    simpl. by rewrite <- app_assoc.
Qed.

(** A relative path without [..] stays under the root. *)
Lemma plain_path_under (root relative : jsstring) :
  Str.includes relative (str "..") = false → under root relative.
Proof.
  intros Hplain. unfold under, Path.joined.
  destruct root as [|c root]; [apply prefix_nil|].
  destruct relative as [|d relative]; [done|].
  unfold resolved.
  change (Path.isAbsolute ((c :: root) ++ [Path.sep] ++ d :: relative))
    with (Path.isAbsolute (c :: root)).
  unfold Str.split_on.
  change ((c :: root) ++ [Path.sep] ++ d :: relative)
    with ((c :: root) ++ Path.sep :: d :: relative).
  rewrite split_on_go_app, normalizeSegments_app.
  destruct (normalizeSegments_plain (negb (Path.isAbsolute (c :: root)))
              (rev (Path.normalizeSegments
                      (negb (Path.isAbsolute (c :: root))) []
                      (Str.split_on_go Path.sep [] (c :: root))))
              (Str.split_on Path.sep (d :: relative))) as [more ->].
  - apply Forall_forall. intros s Hs ->.
    apply segment_included in Hs. congruence.
  - rewrite rev_involutive. by apply prefix_app_r.
Qed.

End PathFacts.

Example under_ex :
  PathSpec.under (str "/srv/app/data") (str "guides/care.md")
  ∧ ¬ PathSpec.under (str "/srv/app/data") (str "../data2/care.md")
  ∧ ¬ PathSpec.under (str "/srv/app/data") (str "../../etc/passwd").
Proof.
  split; [|split].
  - by exists [str "guides"; str "care.md"].
  - intros [more Hmore]. vm_compute in Hmore. discriminate.
  - intros [more Hmore]. vm_compute in Hmore. discriminate.
Qed.

(** C7. A relative path whose normal form contains [..], or which taken
    from the corpus root does not stay under the root, or whose join with
    the root does not start with the root as the code tests it, is
    rejected with [Invalid path] before any file is read, whatever the
    files are; the paths [../secrets.txt] and [a/../../b] are rejected. *)
Theorem loadDocument_rejects_traversal
    (extractTitle : jsstring → jsstring → jsstring)
    (readFile : jsstring → exc jsstring) (dataDirectory : jsstring) :
  (∀ relativePath,
     Str.includes (Path.normalize relativePath) (str "..") = true
     ∨ ¬ PathSpec.under dataDirectory (Path.normalize relativePath)
     ∨ Str.startsWith
         (Path.join dataDirectory (Path.normalize relativePath))
         dataDirectory = false →
     Loader.loadDocument extractTitle readFile dataDirectory relativePath
     = (Throw (str "Invalid path"), []))
  ∧ Loader.loadDocument extractTitle readFile dataDirectory
      (str "../secrets.txt") = (Throw (str "Invalid path"), [])
  ∧ Loader.loadDocument extractTitle readFile dataDirectory
      (str "a/../../b") = (Throw (str "Invalid path"), []).
Proof.
  split; [|split; reflexivity].
  intros relativePath Hbad. unfold Loader.loadDocument.
  destruct (Str.includes (Path.normalize relativePath) (str "..")) eqn:Hdots;
    [done|].
  destruct Hbad as [Hbad | [Hbad | Hbad]]; [done | | by rewrite Hbad].
  destruct Hbad. by apply PathFacts.plain_path_under.
Qed.

Lemma loadDocument_rejects_traversal_witness :
  Loader.loadDocument title_of_path no_file (str "/srv/app/data")
    (str "guides/../../../etc/passwd")
  = (Throw (str "Invalid path"), []).
Proof.
  apply (proj1 (loadDocument_rejects_traversal title_of_path no_file
                  (str "/srv/app/data"))).
  left. reflexivity.
Defined.

Example loadDocument_not_under :
  ¬ PathSpec.under (str "/srv/app/data")
      (Path.normalize (str "guides/../../../etc/passwd")).
Proof. intros [more Hmore]. vm_compute in Hmore. discriminate. Qed.

Example loadDocument_root_not_normal :
  Loader.loadDocument title_of_path no_file (str "./data") (str "care.md")
  = (Throw (str "Invalid path"), []).
Proof. reflexivity. Qed.

Example loadDocument_reads :
  Loader.loadDocument title_of_path no_file (str "/srv/app/data")
    (str "guides/care.md")
  = (Ok None, [str "/srv/app/data/guides/care.md"]).
Proof. reflexivity. Qed.

(** ** The cache and the heap *)

Module StoreFacts.
Import Knowledge Store StoreInv.

Lemma insert_sorted_perm {A} (compare : A → A → exc Z) (x : A)
    (l r : list A) :
  insert_sorted compare x l = Ok r → r ≡ₚ x :: l.
Proof.
  revert r. induction l as [|y l IH]; intros r Hr; simpl in Hr.
  - by injection Hr as <-.
  - apply ExcFacts.bind_Ok in Hr as (c & _ & Hr).
    destruct (0 <? c)%Z; [|by injection Hr as <-].
    apply ExcFacts.bind_Ok in Hr as (r' & Hr' & Hr). injection Hr as <-.
    rewrite (IH r' Hr'). apply Permutation_swap.
Qed.

Lemma Array_sort_perm {A} (compare : A → A → exc Z) (l r : list A) :
  Array_sort compare l = Ok r → r ≡ₚ l.
Proof.
  revert r. induction l as [|x l IH]; intros r Hr; simpl in Hr.
  - by injection Hr as <-.
  - apply ExcFacts.bind_Ok in Hr as (r' & Hr' & Hr).
    apply insert_sorted_perm in Hr. rewrite Hr. by rewrite (IH r' Hr').
Qed.

(** *** Computations that only add objects *)

#[local] Instance grows_preorder : PreOrder grows.
Proof.
  split.
  - by intros st.
  - intros st1 st2 st3 [Hc12 Hh12] [Hc23 Hh23]. split; [congruence|].
    by etrans.
Qed.

Lemma growing_ret {A} (a : A) : growing (ret a).
Proof. by intros st. Qed.

Lemma growing_lift {A} (m : exc A) : growing (lift m).
Proof. by intros st. Qed.

Lemma growing_bind {A B} (m : M A) (k : A → M B) :
  growing m → (∀ a, growing (k a)) → growing (bindM m k).
Proof.
  intros Hm Hk st. unfold bindM. specialize (Hm st).
  destruct (m st) as [[a|e] st1]; simpl in *; [|done].
  etrans; [exact Hm | apply Hk].
Qed.

Lemma growing_new_object (o : object) : growing (new_object o).
Proof. intros st. split; [done|]. simpl. by apply prefix_app_r. Qed.

Lemma growing_read_document (r : ref) : growing (read_document r).
Proof.
  intros st. unfold read_document. by destruct (heap st !! r) as [[]|].
Qed.

Lemma growing_read_candidate (r : ref) : growing (read_candidate r).
Proof.
  intros st. unfold read_candidate. by destruct (heap st !! r) as [[]|].
Qed.

Lemma growing_for_of {A S} (body : S → A → M S) (a : list A) (s : S) :
  (∀ s x, growing (body s x)) → growing (for_ofM body a s).
Proof.
  intros Hbody. revert s. induction a as [|x a IH]; intros s; simpl.
  - apply growing_ret.
  - by apply growing_bind.
Qed.

Lemma growing_sort {A} (compare : A → A → M Z) (a : list A) :
  growing (sortM compare a).
Proof. by intros st. Qed.

Create HintDb growing.
#[local] Hint Resolve growing_ret growing_lift growing_new_object
  growing_read_document growing_read_candidate growing_sort : growing.

Ltac solve_growing :=
  repeat first
    [ progress (intros)
    | apply growing_bind
    | apply growing_for_of
    | match goal with |- growing (if ?b then _ else _) => destruct b end
    | solve [auto with growing] ].

Lemma growing_mapM {A B} (f : A → M B) (a : list A) :
  (∀ x, growing (f x)) → growing (mapM f a).
Proof. intros Hf. unfold mapM. solve_growing. Qed.

Lemma growing_strip (c : ref) : growing (strip c).
Proof. unfold strip. solve_growing. Qed.

(** *** References to objects made during a computation *)

Lemma made_since_grows (st st' : State) (rs : list ref) :
  grows st st' → made_since st' rs → made_since st rs.
Proof.
  intros [_ Hh%prefix_length] Hrs. eapply Forall_impl; [exact Hrs|].
  simpl. intros; lia.
Qed.

Lemma for_of_appends {A} (body : list ref → A → M (list ref)) (a : list A) :
  (∀ s x, growing (body s x)) → appends body →
  ∀ s st, match (for_ofM body a s st).1 with
          | Ok s' => ∃ new, s' = s ++ new ∧ made_since st new
          | Throw _ => True
          end.
Proof.
  intros Hgrow Happ. induction a as [|x a IH]; intros s st; simpl.
  - exists []. split; [by rewrite app_nil_r | constructor].
  - unfold bindM. specialize (Happ s x st). specialize (Hgrow s x st).
    destruct (body s x st) as [[s1|e] st1]; simpl in *; [|done].
    destruct Happ as (new1 & -> & Hnew1).
    specialize (IH (s ++ new1) st1).
    destruct (for_ofM body a (s ++ new1) st1).1 as [s2|e]; [|done].
    destruct IH as (new2 & -> & Hnew2).
    exists (new1 ++ new2). rewrite app_assoc. split; [done|].
    apply Forall_app. split; [done|]. by eapply made_since_grows.
Qed.

Lemma makes_bind {A B} (get : B → list ref) (m : M A) (k : A → M B) :
  growing m → (∀ a, makes get (k a)) → makes get (bindM m k).
Proof.
  intros Hm Hk st. unfold bindM. specialize (Hm st).
  destruct (m st) as [[a|e] st1]; simpl in *; [|done].
  specialize (Hk a st1). destruct (k a st1).1; [|done].
  by eapply made_since_grows.
Qed.

Lemma makes_mapM {A} (f : A → M ref) (a : list A) :
  (∀ x, growing (f x)) → (∀ x, makes (λ r, [r]) (f x)) →
  makes (λ rs, rs) (mapM f a).
Proof.
  intros Hgrow Hf st. unfold mapM.
  pose proof (for_of_appends
                (λ bs x, bindM (f x) (λ b, ret (bs ++ [b]))) a) as Hloop.
  specialize (Hloop (ltac:(intros; solve_growing))).
  specialize (λ Happ, Hloop Happ [] st).
  destruct (for_ofM _ a [] st).1 as [rs|e]; [|done].
  destruct Hloop as (new & -> & Hnew); [|done].
  intros s x st'. unfold bindM, ret. specialize (Hf x st').
  destruct (f x st') as [[r|e] st1]; simpl in *; [|done]. by exists [r].
Qed.

Lemma makes_strip (c : ref) : makes (λ r, [r]) (strip c).
Proof.
  intros st. unfold strip, bindM, read_candidate, new_object.
  destruct (heap st !! c) as [[d|cand]|]; simpl; [done| |done].
  by constructor.
Qed.

Section with_files.
Context `{RegExp.Engine}.
Context (extractTitle : jsstring → jsstring → jsstring).

Lemma growing_search_try (documents : list ref) (query : jsstring) :
  growing (search_try documents query).
Proof. unfold search_try. solve_growing. Qed.

Lemma growing_searchWithCopilot_try (oracle : Oracle) (documents : list ref)
    (query : jsstring) (maxCandidates maxResults : Z) :
  growing (searchWithCopilot_try oracle documents query
             maxCandidates maxResults).
Proof.
  unfold searchWithCopilot_try. solve_growing;
    apply growing_mapM; intros; try apply growing_strip; solve_growing.
Qed.

(** *** The cache *)

#[local] Instance extends_preorder : PreOrder extends.
Proof.
  split.
  - by intros st.
  - intros st1 st2 st3 [Hc12 Hh12] [Hc23 Hh23]. split; by etrans.
Qed.

Lemma grows_extends (st st' : State) : grows st st' → extends st st'.
Proof. intros [Hc Hh]. split; [by rewrite Hc | done]. Qed.

Lemma grows_wf (st st' : State) : grows st st' → wf st → wf st'.
Proof.
  intros [Hc Hh] Hwf p r Hr. rewrite Hc in Hr.
  destruct (Hwf p r Hr) as (d & Hd & Hp & Hs). exists d.
  split; [|done]. by eapply prefix_lookup_Some.
Qed.

Lemma wf_initial : wf initial.
Proof. intros p r Hr. simpl in Hr. by rewrite lookup_empty in Hr. Qed.

Lemma wf_clearCache (st : State) : wf (clearCache st).
Proof. intros p r Hr. simpl in Hr. by rewrite lookup_empty in Hr. Qed.

#[local] Instance keeps_preorder : PreOrder keeps.
Proof.
  split.
  - by intros acc.
  - intros a1 a2 a3 [He12 Hw12] [He23 Hw23]. split; [by etrans | auto].
Qed.

Lemma visit_keeps (relativePath name : jsstring) (read : exc jsstring)
    (acc : list ref * State) :
  keeps acc (visit extractTitle relativePath name read acc.1 acc.2).
Proof.
  destruct acc as [documents st]. unfold visit. cbn [fst snd].
  destruct (_ || _); [|done].
  destruct (documentCache st !! relativePath) as [doc|] eqn:Hcached; [done|].
  destruct read as [content|e]; [|done].
  destruct (length (Str.trim content) <? 10); [done|].
  split; cbn [fst snd].
  - split; simpl; [by apply insert_subseteq | by apply prefix_app_r].
  - intros Hwf p r Hr. simpl in *.
    destruct (decide (relativePath = p)) as [->|Hne].
    + rewrite lookup_insert_eq in Hr. injection Hr as <-.
      eexists. split; [by apply list_lookup_middle | done].
    + rewrite lookup_insert_ne in Hr by done.
      destruct (Hwf p r Hr) as (d & Hd & Hp & Hs). exists d.
      split; [|done]. by apply lookup_app_l_Some.
Qed.

Lemma entry_induction (P : entry → Prop) :
  (∀ name read, P (File name read)) →
  (∀ name e, P (Directory name (Throw e))) →
  (∀ name entries, Forall P entries → P (Directory name (Ok entries))) →
  (∀ name, P (Other name)) →
  ∀ e, P e.
Proof.
  intros Hfile Hthrow Hdir Hother. fix IH 1.
  intros [name read|name [entries|e]|name].
  - apply Hfile.
  - apply Hdir. induction entries as [|e entries IHentries]; constructor.
    + apply IH.
    + apply IHentries.
  - apply Hthrow.
  - apply Hother.
Qed.

(** An invariant of the callback is an invariant of the walk. *)
Lemma walkEntry_invariant (P : list ref * State → Prop) :
  (∀ relativePath name read acc,
     P acc → P (visit extractTitle relativePath name read acc.1 acc.2)) →
  ∀ dir e acc, P acc → P (walkEntry extractTitle dir e acc).
Proof.
  intros Hvisit dir e. revert dir.
  induction e as [name read|name e|name entries IH|name]
    using entry_induction; intros dir acc Hacc; simpl.
  - by apply Hvisit.
  - by destruct (Str.startsWith _ _).
  - destruct (Str.startsWith _ _); [done|].
    revert acc Hacc. induction IH as [|e entries He _ IHentries];
      intros acc Hacc; [done|].
    apply IHentries, He, Hacc.
  - done.
Qed.

Lemma getAllDocuments_invariant (P : list ref * State → Prop)
    (root : exc (list entry)) (st : State) :
  (∀ relativePath name read acc,
     P acc → P (visit extractTitle relativePath name read acc.1 acc.2)) →
  P ([], st) → P (getAllDocuments extractTitle root st).
Proof.
  intros Hvisit. unfold getAllDocuments, walkDirectory.
  destruct root as [entries|e]; [|done].
  generalize (@nil ref, st). induction entries as [|e entries IH];
    intros acc Hacc; [done|].
  simpl. by apply IH, walkEntry_invariant.
Qed.

Lemma getAllDocuments_keeps (root : exc (list entry)) (st : State) :
  keeps ([], st) (getAllDocuments extractTitle root st).
Proof.
  apply (getAllDocuments_invariant (keeps ([], st))); [|done].
  intros relativePath name read acc Hacc.
  etrans; [exact Hacc | apply visit_keeps].
Qed.

(** The documents that [getAllDocuments] returns are the cached objects. *)
Lemma getAllDocuments_cached (root : exc (list entry)) (st : State) :
  cached (getAllDocuments extractTitle root st).2
    (getAllDocuments extractTitle root st).1.
Proof.
  apply (getAllDocuments_invariant (λ acc, cached acc.2 acc.1));
    [|constructor].
  intros relativePath name read [documents st1] Hacc. unfold visit.
  cbn [fst snd] in *.
  destruct (_ || _); [|done].
  destruct (documentCache st1 !! relativePath) as [doc|] eqn:Hcached.
  { apply Forall_app. split; [done|]. repeat constructor. eauto. }
  destruct read as [content|e]; [|done].
  destruct (length (Str.trim content) <? 10); [done|].
  cbn [fst snd]. apply Forall_app. split.
  - eapply Forall_impl; [exact Hacc|]. simpl. intros r [p Hp].
    exists p. rewrite lookup_insert_ne; [done|]. congruence.
  - repeat constructor. exists relativePath. simpl.
    by rewrite lookup_insert_eq.
Qed.

Lemma cached_docs_at (st : State) (rs : list ref) :
  wf st → cached st rs → ∃ ds, docs_at st rs ds.
Proof.
  intros Hwf Hrs. induction Hrs as [|r rs [p Hp] _ [ds IH]].
  - exists []. constructor.
  - destruct (Hwf p r Hp) as (d & Hd & _). exists (d :: ds). by constructor.
Qed.

(** *** The results of a search are objects of that search *)

Lemma search_try_makes (documents : list ref) (query : jsstring) :
  makes (λ rs, rs) (search_try documents query).
Proof.
  intros st. unfold search_try. unfold bindM at 1.
  match goal with |- context [for_ofM ?body documents [] st] =>
    pose proof (for_of_appends body documents) as Hloop end.
  specialize (Hloop (ltac:(intros; solve_growing))).
  specialize (λ Happ, Hloop Happ [] st).
  destruct (for_ofM _ documents [] st) as [[results|e] st1]; [|done].
  simpl in Hloop. destruct Hloop as (new & -> & Hnew).
  { intros s r st'. unfold bindM, read_document, lift, new_object, ret.
    destruct (heap st' !! r) as [[d|c]|]; simpl; [|done..].
    destruct (relevance_score d (queryTerms_of query)) as [score|e];
      simpl; [|done].
    destruct (0 <? score)%Z; simpl.
    - eexists [_]. split; [done|]. by constructor.
    - exists []. split; [by rewrite app_nil_r | constructor]. }
  unfold bindM, sortM, ret. simpl.
  destruct (Array_sort _ new) as [sorted|e] eqn:Hsort; simpl; [|done].
  apply Array_sort_perm in Hsort.
  destruct (SortFacts.slice0_take sorted 3) as [n ->].
  unfold made_since in *. apply Forall_take. by rewrite Hsort.
Qed.

Lemma searchWithCopilot_try_makes (oracle : Oracle) (documents : list ref)
    (query : jsstring) (maxCandidates maxResults : Z) :
  makes (λ rs, rs)
    (searchWithCopilot_try oracle documents query maxCandidates maxResults).
Proof.
  unfold searchWithCopilot_try.
  repeat (apply makes_bind; [solve_growing | intros]).
  destruct (_ <=? _)%Z.
  - apply makes_mapM; [apply growing_strip | apply makes_strip].
  - repeat (apply makes_bind;
            [try apply growing_mapM; solve_growing | intros]).
    apply makes_mapM; [apply growing_strip | apply makes_strip].
Qed.

(** A reference to an object made after a state with a well-formed cache
    is not in that cache. *)
Lemma made_since_not_cached (st : State) (rs : list ref) (r : ref) (p : jsstring) :
  wf st → made_since st rs → r ∈ rs → documentCache st !! p ≠ Some r.
Proof.
  intros Hwf Hrs Hr Hcached.
  destruct (Hwf p r Hcached) as (d & Hd%lookup_lt_Some & _).
  unfold made_since in Hrs. rewrite Forall_forall in Hrs.
  specialize (Hrs r Hr). lia.
Qed.

Lemma search_returns_copies (root : exc (list entry)) (query : jsstring) :
  returns_copies (search extractTitle root query).
Proof.
  intros st Hwf. unfold search.
  destruct (getAllDocuments_keeps root st) as [Hext Hwf1].
  destruct (getAllDocuments extractTitle root st) as [documents st1].
  simpl in Hext, Hwf1. specialize (Hwf1 Hwf).
  pose proof (growing_search_try documents query st1) as Hgrow.
  pose proof (search_try_makes documents query st1) as Hmade.
  destruct (search_try documents query st1) as [result st2].
  simpl in *. split; [|split].
  - etrans; [exact Hext | by apply grows_extends].
  - by eapply grows_wf.
  - intros rs r p Hrs Hr. destruct Hgrow as [Hcache _]. rewrite Hcache.
    destruct result as [results|e]; simpl in Hrs; injection Hrs as <-.
    + by eapply made_since_not_cached.
    + by apply not_elem_of_nil in Hr.
Qed.

Lemma searchWithCopilot_returns_copies (copilotService : option Oracle)
    (root : exc (list entry)) (query : jsstring)
    (maxCandidates maxResults : Z) :
  returns_copies
    (searchWithCopilot extractTitle copilotService root query
       maxCandidates maxResults).
Proof.
  destruct copilotService as [oracle|]; [|apply search_returns_copies].
  intros st Hwf. unfold searchWithCopilot.
  destruct (getAllDocuments_keeps root st) as [Hext Hwf1].
  destruct (getAllDocuments extractTitle root st) as [documents st1].
  simpl in Hext, Hwf1. specialize (Hwf1 Hwf).
  pose proof (growing_searchWithCopilot_try oracle documents query
                maxCandidates maxResults st1) as Hgrow.
  pose proof (searchWithCopilot_try_makes oracle documents query
                maxCandidates maxResults st1) as Hmade.
  destruct (searchWithCopilot_try oracle documents query
              maxCandidates maxResults st1) as [[results|e] st2]; simpl in *.
  - split; [|split].
    + etrans; [exact Hext | by apply grows_extends].
    + by eapply grows_wf.
    + intros rs r p Hrs Hr. injection Hrs as <-.
      destruct Hgrow as [Hcache _]. rewrite Hcache.
      by eapply made_since_not_cached.
  - assert (wf st2) as Hwf2 by (by eapply grows_wf).
    destruct (search_returns_copies root query st2 Hwf2)
      as (Hext2 & Hwf3 & Hcopies).
    split; [|done].
    etrans; [exact Hext|]. etrans; [by apply grows_extends | done].
Qed.

Lemma reachable_wf (st : State) : reachable extractTitle st → wf st.
Proof.
  induction 1 as [|root op st _ IH]; [apply wf_initial|].
  destruct op as [|query|copilotService query maxCandidates maxResults|];
    simpl.
  - by apply (getAllDocuments_keeps root st).
  - pose proof (search_returns_copies root query st IH) as (_ & Hwf & _).
    by destruct (search extractTitle root query st).
  - pose proof (searchWithCopilot_returns_copies copilotService root query
                  maxCandidates maxResults st IH) as (_ & Hwf & _).
    by destruct (searchWithCopilot extractTitle copilotService root query
                   maxCandidates maxResults st).
  - apply wf_clearCache.
Qed.

(** *** The store and the functions on values agree *)

Lemma insert_sorted_related {A V} (R : A → V → Prop)
    (compareA : A → A → exc Z) (compareV : V → V → exc Z)
    (x : A) (xv : V) (l : list A) (lv : list V) :
  (∀ a av b bv, R a av → R b bv → compareA a b = compareV av bv) →
  R x xv → Forall2 R l lv →
  match insert_sorted compareV xv lv with
  | Ok rv => ∃ r, insert_sorted compareA x l = Ok r ∧ Forall2 R r rv
  | Throw e => insert_sorted compareA x l = Throw e
  end.
Proof.
  intros Hcmp Hx Hl. induction Hl as [|y yv l lv Hy Hl IH]; simpl.
  - exists [x]. split; [done|]. by constructor.
  - rewrite (Hcmp x xv y yv) by done.
    destruct (compareV xv yv) as [c|e]; simpl; [|done].
    destruct (0 <? c)%Z.
    + destruct (insert_sorted compareV xv lv) as [rv|e]; simpl.
      * destruct IH as (r & -> & Hr). simpl. eexists. split; [done|].
        by constructor.
      * by rewrite IH.
    + eexists. split; [done|]. by repeat constructor.
Qed.

Lemma Array_sort_related {A V} (R : A → V → Prop)
    (compareA : A → A → exc Z) (compareV : V → V → exc Z)
    (l : list A) (lv : list V) :
  (∀ a av b bv, R a av → R b bv → compareA a b = compareV av bv) →
  Forall2 R l lv →
  match Array_sort compareV lv with
  | Ok rv => ∃ r, Array_sort compareA l = Ok r ∧ Forall2 R r rv
  | Throw e => Array_sort compareA l = Throw e
  end.
Proof.
  intros Hcmp Hl. induction Hl as [|x xv l lv Hx Hl IH]; simpl.
  - exists []. by split.
  - destruct (Array_sort compareV lv) as [sv|e]; simpl.
    + destruct IH as (s' & -> & Hs). simpl.
      by apply insert_sorted_related.
    + by rewrite IH.
Qed.

Lemma slice_related {A V} (R : A → V → Prop) (l : list A) (lv : list V)
    (b e : Z) :
  Forall2 R l lv → Forall2 R (slice l b e) (slice lv b e).
Proof.
  intros Hl. unfold slice. rewrite <- (Forall2_length _ _ _ Hl).
  by apply Forall2_take, Forall2_drop.
Qed.

Lemma docs_at_grows (st st' : State) (rs : list ref)
    (ds : list KnowledgeDocument) :
  grows st st' → docs_at st rs ds → docs_at st' rs ds.
Proof.
  intros [_ Hh] Hrs. eapply Forall2_impl; [exact Hrs|].
  simpl. intros r d Hr. by eapply prefix_lookup_Some.
Qed.

Lemma candidates_at_grows (st st' : State) (rs : list ref)
    (cs : list Candidate) :
  grows st st' → candidates_at st rs cs → candidates_at st' rs cs.
Proof.
  intros [_ Hh] Hrs. eapply Forall2_impl; [exact Hrs|].
  simpl. intros r d Hr. by eapply prefix_lookup_Some.
Qed.

Lemma refines_bind {A V B W} (atA : State → A → V → Prop)
    (atB : State → B → W → Prop) (st : State)
    (m : M A) (k : A → M B) (pure : exc V) (kp : V → exc W) :
  refines atA st m pure →
  (∀ a v st', grows st st' → atA st' a v → refines atB st' (k a) (kp v)) →
  refines atB st (bindM m k) (bind pure kp).
Proof.
  unfold refines, bindM. intros Hm Hk.
  destruct pure as [v|e]; simpl.
  - destruct Hm as (a & st1 & -> & Hgrow & Ha).
    specialize (Hk a v st1 Hgrow Ha).
    destruct (kp v) as [w|e].
    + destruct Hk as (b & st2 & -> & Hgrow2 & Hb).
      exists b, st2. split; [done|]. split; [by etrans | done].
    + destruct Hk as (st2 & -> & Hgrow2). exists st2. split; [done|].
      by etrans.
  - destruct Hm as (st1 & -> & Hgrow). eauto.
Qed.

Lemma refines_for_of {X XV S SV} (atX : State → X → XV → Prop)
    (atS : State → S → SV → Prop)
    (body : S → X → M S) (pbody : SV → XV → exc SV) :
  (∀ st st' x xv, grows st st' → atX st x xv → atX st' x xv) →
  (∀ st s sv x xv, atS st s sv → atX st x xv →
     refines atS st (body s x) (pbody sv xv)) →
  ∀ a av st s sv, Forall2 (atX st) a av → atS st s sv →
    refines atS st (for_ofM body a s) (for_of pbody av sv).
Proof.
  intros Hmono Hbody. induction a as [|x a IH]; intros av st s sv Ha Hs;
    inversion Ha as [|? xv ? av' Hx Ha']; subst; simpl.
  - exists s, st. by split.
  - apply (refines_bind atS atS); [by apply Hbody|].
    intros s1 sv1 st1 Hgrow Hs1. apply IH; [|done].
    eapply Forall2_impl; [exact Ha'|]. intros; by eapply Hmono.
Qed.

Lemma document_at_grows (st st' : State) (r : ref) (d : KnowledgeDocument) :
  grows st st' →
  heap st !! r = Some (Document d) → heap st' !! r = Some (Document d).
Proof. intros [_ Hh] Hr. by eapply prefix_lookup_Some. Qed.

Lemma candidate_at_grows (st st' : State) (r : ref) (c : Candidate) :
  grows st st' →
  heap st !! r = Some (Scored c) → heap st' !! r = Some (Scored c).
Proof. intros [_ Hh] Hr. by eapply prefix_lookup_Some. Qed.

Lemma grows_new (st : State) (o : object) :
  grows st {| documentCache := documentCache st; heap := heap st ++ [o] |}.
Proof. split; [done|]. by apply prefix_app_r. Qed.

Lemma docs_at_snoc (st : State) (rs : list ref) (ds : list KnowledgeDocument)
    (d : KnowledgeDocument) :
  docs_at st rs ds →
  docs_at {| documentCache := documentCache st;
             heap := heap st ++ [Document d] |}
    (rs ++ [length (heap st)]) (ds ++ [d]).
Proof.
  intros Hrs. apply Forall2_app.
  - eapply docs_at_grows; [apply grows_new | done].
  - repeat constructor. by apply list_lookup_middle.
Qed.

Lemma candidates_at_snoc (st : State) (rs : list ref) (cs : list Candidate)
    (c : Candidate) :
  candidates_at st rs cs →
  candidates_at {| documentCache := documentCache st;
                   heap := heap st ++ [Scored c] |}
    (rs ++ [length (heap st)]) (cs ++ [c]).
Proof.
  intros Hrs. apply Forall2_app.
  - eapply candidates_at_grows; [apply grows_new | done].
  - repeat constructor. by apply list_lookup_middle.
Qed.

(** The plain path. *)
Lemma search_try_refines (documents : list ref)
    (ds : list KnowledgeDocument) (query : jsstring) (st : State) :
  docs_at st documents ds →
  refines docs_at st (Store.search_try documents query)
    (Knowledge.search_try ds query).
Proof.
  intros Hdocs. unfold Store.search_try, Knowledge.search_try.
  apply (refines_bind docs_at docs_at).
  { apply (refines_for_of (λ st r d, heap st !! r = Some (Document d)) docs_at);
      [intros; by eapply document_at_grows | | done | constructor].
    clear. intros st s sv r d Hs Hr.
    unfold refines, bindM, read_document, lift, new_object, ret.
    destruct (relevance_score d (queryTerms_of query)) as [score|e] eqn:Hscore;
      simpl; rewrite Hr, Hscore.
    - destruct (0 <? score)%Z.
      + do 2 eexists. split; [done|]. split; [apply grows_new|].
        by apply docs_at_snoc.
      + exists s, st. by split.
    - exists st. by split. }
  intros results rv st1 Hgrow Hresults.
  apply (refines_bind docs_at docs_at).
  { unfold refines, sortM.
    match goal with |- context [Array_sort ?c rv] =>
      pose proof (Array_sort_related
                    (λ r d, heap st1 !! r = Some (Document d))
                    (λ x y,
                       (bindM (read_document y) (λ doc_b,
                        bindM (lift (scoreDocument doc_b (queryTerms_of query)))
                          (λ sb,
                        bindM (read_document x) (λ doc_a,
                        bindM (lift (scoreDocument doc_a (queryTerms_of query)))
                          (λ sa, ret (sb - sa)%Z)))) st1).1)
                    c results rv) as Hsort end.
    simpl in Hsort.
    destruct (Array_sort _ rv) as [sv|e].
    - destruct Hsort as (sorted & Hsorted & Hat); [|done|].
      + intros a av b bv Ha Hb.
        unfold bindM, read_document, lift, ret. rewrite Hb.
        destruct (scoreDocument bv _); simpl; [|done]. rewrite Ha.
        by destruct (scoreDocument av _).
      + exists sorted, st1. by rewrite Hsorted.
    - rewrite Hsort; [by exists st1 | | done].
      intros a av b bv Ha Hb.
      unfold bindM, read_document, lift, ret. rewrite Hb.
      destruct (scoreDocument bv _); simpl; [|done]. rewrite Ha.
      by destruct (scoreDocument av _). }
  intros sorted sv st2 Hgrow2 Hsorted.
  exists (slice sorted 0 3), st2. split; [done|]. split; [done|].
  by apply slice_related.
Qed.


Lemma search_agrees (root : exc (list entry)) (query : jsstring)
    (st : State) :
  wf st →
  ∃ ds results rs,
    docs_at (getAllDocuments extractTitle root st).2
      (getAllDocuments extractTitle root st).1 ds
    ∧ Knowledge.search ds query = Ok results
    ∧ (Store.search extractTitle root query st).1 = Ok rs
    ∧ docs_at (Store.search extractTitle root query st).2 rs results.
Proof.
  intros Hwf. unfold Store.search, Knowledge.search.
  pose proof (getAllDocuments_cached root st) as Hcached.
  destruct (getAllDocuments_keeps root st) as [_ Hwf1].
  destruct (getAllDocuments extractTitle root st) as [documents st1].
  simpl in *. destruct (cached_docs_at st1 documents (Hwf1 Hwf) Hcached)
    as [ds Hds].
  exists ds. pose proof (search_try_refines documents ds query st1 Hds) as Href.
  unfold refines in Href.
  destruct (Knowledge.search_try ds query) as [results|e]; simpl.
  - destruct Href as (rs & st2 & -> & _ & Hrs). by exists results, rs.
  - destruct Href as (st2 & -> & _). exists [], []. simpl.
    repeat split; [done | constructor].
Qed.

(** The enhanced path. *)
Lemma first_documents_loop (ds : list KnowledgeDocument)
    (queryTerms : list jsstring) (candidates : list Candidate) :
  for_of (λ candidates doc,
    Ok (candidates ++
          [candidate doc (extractSnippet (content doc) queryTerms) 0]))
    ds candidates
  = Ok (candidates ++
          map (λ doc, candidate doc
                        (extractSnippet (content doc) queryTerms) 0) ds).
Proof.
  revert candidates. induction ds as [|d ds IH]; intros candidates; simpl.
  - by rewrite app_nil_r.
  - rewrite IH. by rewrite <- app_assoc.
Qed.

Lemma strip_loop (cs : list Candidate) (acc : list KnowledgeDocument) :
  for_of (λ acc c, Ok (acc ++ [without_score c])) cs acc
  = Ok (acc ++ map without_score cs).
Proof.
  revert acc. induction cs as [|c cs IH]; intros acc; simpl.
  - by rewrite app_nil_r.
  - rewrite IH. by rewrite <- app_assoc.
Qed.

Lemma mapM_strip_refines (rs : list ref) (cs : list Candidate) (st : State) :
  candidates_at st rs cs →
  refines docs_at st (mapM strip rs) (Ok (map without_score cs)).
Proof.
  intros Hrs. change (map without_score cs) with ([] ++ map without_score cs).
  rewrite <- (strip_loop cs []). unfold mapM.
  apply (refines_for_of (λ st r c, heap st !! r = Some (Scored c)) docs_at);
    [intros; by eapply candidate_at_grows | | done | constructor].
  clear. intros st s sv r c Hs Hr.
  unfold refines, bindM, strip, read_candidate, new_object, ret, bindM.
  rewrite Hr. do 2 eexists. split; [done|]. split; [apply grows_new|].
  by apply docs_at_snoc.
Qed.

Lemma mapM_summary (rs : list ref) (cs : list Candidate) (st : State)
    (acc : list CopilotService.Summary) :
  candidates_at st rs cs →
  for_ofM (λ bs c,
    bindM (bindM (read_candidate c) (λ candidate, ret (summary candidate)))
      (λ b, ret (bs ++ [b]))) rs acc st
  = (Ok (acc ++ map summary cs), st).
Proof.
  intros Hrs. revert acc. induction Hrs as [|r c rs cs Hr Hrs IH];
    intros acc; simpl.
  - by rewrite app_nil_r.
  - unfold bindM at 1 2 3. unfold read_candidate, ret. rewrite Hr.
    rewrite IH. by rewrite <- app_assoc.
Qed.

Lemma index_related {A V} (R : A → V → Prop) (l : list A) (lv : list V)
    (ranking : list Z) :
  Forall2 R l lv →
  Forall2 R (omap (index l) ranking) (omap (index lv) ranking).
Proof.
  intros Hl. induction ranking as [|i ranking IH]; [constructor|].
  cbn [omap list_omap].
  assert (index l i = None ∧ index lv i = None
          ∨ ∃ x y, index l i = Some x ∧ index lv i = Some y ∧ R x y)
    as [[-> ->] | (x & y & -> & -> & Hxy)]; [|done|by constructor].
  unfold index. destruct (i <? 0)%Z; [by left|].
  destruct (l !! Z.to_nat i) as [x|] eqn:Hx.
  - destruct (Forall2_lookup_l _ _ _ _ _ Hl Hx) as (y & -> & Hxy).
    right. eauto.
  - apply lookup_ge_None in Hx. rewrite (Forall2_length _ _ _ Hl) in Hx.
    apply lookup_ge_None in Hx. by left.
Qed.

(** The enhanced pipeline on values, as one chain of steps. *)
Lemma searchWithCopilot_try_steps (oracle : Oracle)
    (ds : list KnowledgeDocument) (query : jsstring)
    (maxCandidates maxResults : Z) :
  (Knowledge.searchWithCopilot_try oracle ds query
     maxCandidates maxResults).1
  = bind (keyword_candidates ds (queryTerms_of query)) (λ candidates,
    bind (Ok (or_first_documents ds (queryTerms_of query) maxCandidates
                candidates)) (λ candidates,
    bind (Array_sort (λ a b, Ok (c_score b - c_score a)%Z) candidates)
      (λ sorted,
    if (Z.of_nat (length (slice sorted 0 maxCandidates)) <=? maxResults)%Z
    then Ok (map without_score (slice sorted 0 maxCandidates))
    else
      bind (oracle query (map summary (slice sorted 0 maxCandidates)))
        (λ ranking,
      Ok (map without_score
            (slice (reorder (slice sorted 0 maxCandidates) ranking)
               0 maxResults)))))).
Proof.
  unfold Knowledge.searchWithCopilot_try, topCandidates_of.
  destruct (keyword_candidates ds (queryTerms_of query)) as [candidates|e];
    simpl; [|done].
  destruct (Array_sort _ _) as [sorted|e]; simpl; [|done].
  by destruct (_ <=? _)%Z.
Qed.

Lemma searchWithCopilot_try_refines (oracle : Oracle) (documents : list ref)
    (ds : list KnowledgeDocument) (query : jsstring)
    (maxCandidates maxResults : Z) (st : State) :
  docs_at st documents ds →
  refines docs_at st
    (Store.searchWithCopilot_try oracle documents query
       maxCandidates maxResults)
    (Knowledge.searchWithCopilot_try oracle ds query
       maxCandidates maxResults).1.
Proof.
  intros Hdocs. rewrite searchWithCopilot_try_steps.
  unfold Store.searchWithCopilot_try, keyword_candidates.
  apply (refines_bind candidates_at docs_at).
  { apply (refines_for_of (λ st r d, heap st !! r = Some (Document d))
             candidates_at);
      [intros; by eapply document_at_grows | | done | constructor].
    clear. intros st s sv r d Hs Hr.
    unfold refines, bindM, read_document, lift, new_object, ret.
    destruct (relevance_score d (queryTerms_of query)) as [score|e] eqn:Hscore;
      simpl; rewrite Hr, Hscore.
    - destruct (0 <? score)%Z.
      + do 2 eexists. split; [done|]. split; [apply grows_new|].
        by apply candidates_at_snoc.
      + exists s, st. by split.
    - exists st. by split. }
  intros candidates cv st1 Hgrow1 Hcandidates.
  apply (docs_at_grows _ _ _ _ Hgrow1) in Hdocs.
  apply (refines_bind candidates_at docs_at).
  { unfold or_first_documents.
    rewrite <- (Forall2_length _ _ _ Hcandidates).
    destruct (length candidates =? 0); [|by exists candidates, st1].
    rewrite <- first_documents_loop.
    apply (refines_for_of (λ st r d, heap st !! r = Some (Document d))
             candidates_at);
      [intros; by eapply document_at_grows | | by apply slice_related | done].
    clear. intros st s sv r d Hs Hr.
    unfold refines, bindM, read_document, new_object, ret. rewrite Hr.
    do 2 eexists. split; [done|]. split; [apply grows_new|].
    by apply candidates_at_snoc. }
  clear candidates cv Hcandidates.
  intros candidates cv st2 Hgrow2 Hcandidates.
  apply (refines_bind candidates_at docs_at).
  { unfold refines, sortM.
    pose proof (Array_sort_related
                  (λ r c, heap st2 !! r = Some (Scored c))
                  (λ x y,
                     (bindM (read_candidate y) (λ cb,
                      bindM (read_candidate x) (λ ca,
                      ret (c_score cb - c_score ca)%Z)) st2).1)
                  (λ a b, Ok (c_score b - c_score a)%Z)
                  candidates cv) as Hsort.
    simpl in Hsort.
    assert (∀ a av b bv,
              heap st2 !! a = Some (Scored av) →
              heap st2 !! b = Some (Scored bv) →
              (bindM (read_candidate b) (λ cb,
               bindM (read_candidate a) (λ ca,
               ret (c_score cb - c_score ca)%Z)) st2).1
              = Ok (c_score bv - c_score av)%Z) as Hcmp.
    { intros a av b bv Ha Hb. unfold bindM, read_candidate, ret.
      by rewrite Hb, Ha. }
    specialize (Hsort Hcmp Hcandidates).
    destruct (Array_sort _ cv) as [sv|e].
    - destruct Hsort as (sorted & Hsorted & Hat).
      exists sorted, st2. by rewrite Hsorted.
    - rewrite Hsort. by exists st2. }
  intros sorted sv st3 Hgrow3 Hsorted.
  assert (candidates_at st3 (slice sorted 0 maxCandidates)
            (slice sv 0 maxCandidates)) as Htop by (by apply slice_related).
  rewrite <- (Forall2_length _ _ _ Htop).
  destruct (_ <=? _)%Z; [by apply mapM_strip_refines|].
  assert (∀ k : list CopilotService.Summary → M (list ref),
            bindM (mapM (λ c, bindM (read_candidate c) (λ candidate,
                               ret (summary candidate)))
                     (slice sorted 0 maxCandidates)) k st3
            = k (map summary (slice sv 0 maxCandidates)) st3) as Hsummaries.
  { intros k. unfold mapM, bindM at 1.
    by rewrite (mapM_summary _ _ _ [] Htop). }
  unfold refines. rewrite Hsummaries. unfold bindM at 1, lift.
  destruct (oracle query (map summary (slice sv 0 maxCandidates)))
    as [ranking|e]; simpl; [|by exists st3].
  apply (mapM_strip_refines _ _ st3).
  by apply slice_related, index_related.
Qed.

(** *** A second walk of the same corpus *)

Lemma walkEntry_files (dir : jsstring) (e : entry) (acc : list ref * State) :
  walkEntry extractTitle dir e acc
  = fold_left (visit_file extractTitle) (files_of dir e) acc.
Proof.
  revert dir acc.
  induction e as [name read|name e|name entries IH|name]
    using entry_induction; intros dir acc; simpl.
  - done.
  - by destruct (Str.startsWith _ _).
  - destruct (Str.startsWith _ _); [done|].
    revert acc. induction IH as [|e entries He _ IHentries]; intros acc.
    + done.
    + rewrite fold_left_app, <- He. apply IHentries.
  - done.
Qed.

Lemma getAllDocuments_files (root : exc (list entry)) (st : State) :
  getAllDocuments extractTitle root st
  = fold_left (visit_file extractTitle) (files root) ([], st).
Proof.
  unfold getAllDocuments, walkDirectory, files.
  destruct root as [entries|e]; [|done].
  generalize (@nil ref, st). induction entries as [|e entries IH];
    intros acc; [done|].
  simpl. rewrite fold_left_app, <- walkEntry_files. apply IH.
Qed.

Lemma fold_visit_keeps (fs : list (jsstring * jsstring * exc jsstring))
    (acc : list ref * State) :
  keeps acc (fold_left (visit_file extractTitle) fs acc).
Proof.
  revert acc. induction fs as [|f fs IH]; intros acc; [done|].
  simpl. etrans; [apply visit_keeps | apply IH].
Qed.

(** The walk caches only paths of files that it visits. *)
Lemma fold_visit_paths (fs : list (jsstring * jsstring * exc jsstring))
    (acc : list ref * State) (p : jsstring) :
  documentCache (fold_left (visit_file extractTitle) fs acc).2 !! p ≠ None →
  documentCache acc.2 !! p ≠ None ∨ p ∈ map (λ f, f.1.1) fs.
Proof.
  revert acc. induction fs as [|f fs IH]; intros acc Hp; [by left|].
  simpl in Hp. apply IH in Hp as [Hp | Hp]; [|right; by right].
  destruct acc as [docs st], f as [[path name] read].
  unfold visit_file, visit in Hp. cbn [fst snd] in Hp.
  destruct (_ || _); [|by left].
  destruct (documentCache st !! path); [by left|].
  destruct read as [content|e]; [|by left].
  destruct (length (Str.trim content) <? 10); [by left|].
  simpl in Hp. destruct (decide (path = p)) as [->|Hne].
  - right. by left.
  - rewrite lookup_insert_ne in Hp by done. by left.
Qed.

(** What a visit adds to the documents, it adds again in every state whose
    cache has the entries that the visit has left, and the path of the file
    only if the visit has left it. *)
Lemma visit_file_again (docs : list ref) (st : State)
    (f : jsstring * jsstring * exc jsstring) :
  ∃ added,
    (visit_file extractTitle (docs, st) f).1 = docs ++ added
    ∧ ∀ st2 docs',
        documentCache (visit_file extractTitle (docs, st) f).2
        ⊆ documentCache st2 →
        (documentCache st2 !! f.1.1 ≠ None →
         documentCache (visit_file extractTitle (docs, st) f).2 !! f.1.1
         ≠ None) →
        visit_file extractTitle (docs', st2) f = (docs' ++ added, st2).
Proof.
  destruct f as [[path name] read]. unfold visit_file, visit. cbn [fst snd].
  destruct (_ || _).
  2: { exists []. split; [by rewrite app_nil_r|]. intros.
       by rewrite app_nil_r. }
  destruct (documentCache st !! path) as [r|] eqn:Hcached.
  { exists [r]. split; [done|]. intros st2 docs' Hsub _.
    by rewrite (lookup_weaken _ _ _ _ Hcached Hsub). }
  assert (∀ st2, (documentCache st2 !! path ≠ None →
                  documentCache st !! path ≠ None) →
                 documentCache st2 !! path = None) as Hnone.
  { intros st2 Hst2. destruct (documentCache st2 !! path) eqn:Hp; [|done].
    exfalso. by apply Hst2. }
  destruct read as [content|e].
  2: { exists []. split; [by rewrite app_nil_r|]. intros st2 docs' _ Hst2.
       rewrite (Hnone st2 Hst2). by rewrite app_nil_r. }
  destruct (length (Str.trim content) <? 10).
  { exists []. split; [by rewrite app_nil_r|]. intros st2 docs' _ Hst2.
    rewrite (Hnone st2 Hst2). by rewrite app_nil_r. }
  exists [length (heap st)]. split; [done|]. intros st2 docs' Hsub _.
  cbn [fst snd] in Hsub.
  erewrite (lookup_weaken _ _ path); [done| |exact Hsub].
  apply lookup_insert_eq.
Qed.

(** On a corpus of distinct paths, a second walk from a state with the
    cache that the first walk has left returns the same documents and
    changes nothing. *)
Lemma fold_visit_again (fs : list (jsstring * jsstring * exc jsstring)) :
  NoDup (map (λ f, f.1.1) fs) →
  ∀ docs st st2 docs',
    documentCache st2
    = documentCache (fold_left (visit_file extractTitle) fs (docs, st)).2 →
    ∃ added,
      (fold_left (visit_file extractTitle) fs (docs, st)).1 = docs ++ added
      ∧ fold_left (visit_file extractTitle) fs (docs', st2)
        = (docs' ++ added, st2).
Proof.
  induction fs as [|f fs IH]; intros Hnodup docs st st2 docs' Hcache.
  { exists []. by rewrite !app_nil_r. }
  apply NoDup_cons in Hnodup as [Hf Hnodup]. specialize (IH Hnodup).
  cbn [fold_left] in *.
  destruct (visit_file_again docs st f) as (added & Hadded & Hagain).
  pose proof (fold_visit_keeps fs (visit_file extractTitle (docs, st) f))
    as [[Hsub _] _].
  pose proof (fold_visit_paths fs (visit_file extractTitle (docs, st) f)
                f.1.1) as Hpaths.
  destruct (visit_file extractTitle (docs, st) f) as [docs_f st_f].
  cbn [fst snd] in *. subst docs_f.
  rewrite (Hagain st2 docs').
  - destruct (IH (docs ++ added) st_f st2 (docs' ++ added) Hcache)
      as (added' & Hadded' & Hagain').
    exists (added ++ added'). rewrite Hadded', Hagain'.
    by rewrite !app_assoc.
  - by rewrite Hcache.
  - rewrite Hcache. intros Hp. by destruct (Hpaths Hp).
Qed.

Lemma getAllDocuments_again (root : exc (list entry)) (st st2 : State) :
  distinct_paths root →
  documentCache st2
  = documentCache (getAllDocuments extractTitle root st).2 →
  getAllDocuments extractTitle root st2
  = ((getAllDocuments extractTitle root st).1, st2).
Proof.
  intros Hroot Hcache. rewrite !getAllDocuments_files in *.
  destruct (fold_visit_again (files root) Hroot [] st st2 [] Hcache)
    as (added & -> & ->). done.
Qed.

(** On a corpus of distinct paths, [searchWithCopilot] on the store
    returns references to objects of the values that [searchWithCopilot]
    on the documents of the corpus returns. *)
Lemma searchWithCopilot_agrees (copilotService : option Oracle)
    (root : exc (list entry)) (query : jsstring)
    (maxCandidates maxResults : Z) (st : State) :
  wf st → distinct_paths root →
  ∃ ds results rs,
    docs_at (getAllDocuments extractTitle root st).2
      (getAllDocuments extractTitle root st).1 ds
    ∧ (Knowledge.searchWithCopilot copilotService ds query
         maxCandidates maxResults).1 = Ok results
    ∧ (Store.searchWithCopilot extractTitle copilotService root query
         maxCandidates maxResults st).1 = Ok rs
    ∧ docs_at
        (Store.searchWithCopilot extractTitle copilotService root query
           maxCandidates maxResults st).2 rs results.
Proof.
  intros Hwf Hroot.
  destruct copilotService as [oracle|]; [|by apply search_agrees].
  unfold Store.searchWithCopilot, Knowledge.searchWithCopilot.
  pose proof (getAllDocuments_cached root st) as Hcached.
  destruct (getAllDocuments_keeps root st) as [_ Hwf1].
  pose proof (getAllDocuments_again root st) as Hagain.
  destruct (getAllDocuments extractTitle root st) as [documents st1].
  simpl in *. specialize (Hwf1 Hwf).
  destruct (cached_docs_at st1 documents Hwf1 Hcached) as [ds Hds].
  exists ds.
  pose proof (searchWithCopilot_try_refines oracle documents ds query
                maxCandidates maxResults st1 Hds) as Href.
  unfold refines in Href.
  destruct (Knowledge.searchWithCopilot_try oracle ds query
              maxCandidates maxResults) as [[results|e] calls]; simpl in *.
  - destruct Href as (rs & st2 & -> & _ & Hrs). by exists results, rs.
  - destruct Href as (st2 & -> & Hgrow).
    unfold Store.search, Knowledge.search.
    rewrite (Hagain st2 Hroot) by apply Hgrow.
    pose proof (search_try_refines documents ds query st2
                  (docs_at_grows _ _ _ _ Hgrow Hds)) as Href.
    unfold refines in Href.
    destruct (Knowledge.search_try ds query) as [results|e']; simpl.
    + destruct Href as (rs & st3 & -> & _ & Hrs). by exists results, rs.
    + destruct Href as (st3 & -> & _). exists [], []. simpl.
      repeat split; [done | constructor].
Qed.

(** Every operation leaves the objects of the heap as they are. *)
Lemma run_heap (root : exc (list entry)) (op : operation) (st : State) :
  wf st → heap st `prefix_of` heap (run extractTitle root op st).2.
Proof.
  intros Hwf.
  destruct op as [|query|copilotService query maxCandidates maxResults|];
    simpl.
  - by apply (getAllDocuments_keeps root st).
  - pose proof (search_returns_copies root query st Hwf) as ([_ Hh] & _).
    by destruct (search extractTitle root query st).
  - pose proof (searchWithCopilot_returns_copies copilotService root query
                  maxCandidates maxResults st Hwf) as ([_ Hh] & _).
    by destruct (searchWithCopilot extractTitle copilotService root query
                   maxCandidates maxResults st).
  - done.
Qed.

(** Every operation but [clearCache] keeps the entries of the cache. *)
Lemma run_cache (root : exc (list entry)) (op : operation) (st : State) :
  wf st → op ≠ ClearCache →
  documentCache st ⊆ documentCache (run extractTitle root op st).2.
Proof.
  intros Hwf Hop.
  destruct op as [|query|copilotService query maxCandidates maxResults|];
    simpl; [| | |done].
  - by apply (getAllDocuments_keeps root st).
  - pose proof (search_returns_copies root query st Hwf) as ([Hc _] & _).
    by destruct (search extractTitle root query st).
  - pose proof (searchWithCopilot_returns_copies copilotService root query
                  maxCandidates maxResults st Hwf) as ([Hc _] & _).
    by destruct (searchWithCopilot extractTitle copilotService root query
                   maxCandidates maxResults st).
Qed.

(** The documents that a search returns are not entries of the cache. *)
Lemma run_copies (root : exc (list entry)) (op : operation) (st : State)
    (r : ref) (p : jsstring) :
  wf st → op ≠ GetAllDocuments →
  r ∈ (run extractTitle root op st).1 →
  documentCache (run extractTitle root op st).2 !! p ≠ Some r.
Proof.
  intros Hwf Hop.
  destruct op as [|query|copilotService query maxCandidates maxResults|];
    simpl; [done| | |by intros ?%not_elem_of_nil].
  - pose proof (search_returns_copies root query st Hwf) as (_ & _ & Hcopies).
    destruct (search extractTitle root query st) as [[rs|e] st'];
      simpl in *; [by eauto | by intros ?%not_elem_of_nil].
  - pose proof (searchWithCopilot_returns_copies copilotService root query
                  maxCandidates maxResults st Hwf) as (_ & _ & Hcopies).
    destruct (searchWithCopilot extractTitle copilotService root query
                maxCandidates maxResults st) as [[rs|e] st'];
      simpl in *; [by eauto | by intros ?%not_elem_of_nil].
Qed.

End with_files.

End StoreFacts.

Example getAllDocuments_ex :
  (Store.getAllDocuments title_of_path small_root Store.initial).1 = [0; 1]
  ∧ map fst (map_to_list (Store.documentCache after_first_search))
    ≡ₚ [str "care.md"; str "guides/light.MD"].
Proof. split; vm_compute; reflexivity. Qed.

(** C9. A document of the cache keeps its title and its content as long as
    its entry lives: no operation ([search], [searchWithCopilot],
    [getAllDocuments], [clearCache]) changes the object of a cached
    document; every operation but [clearCache] keeps the entry; the cached
    object bears no snippet, and the documents that a search returns, which
    bear the snippets, are objects of their own and no entries of the
    cache. *)
Theorem cached_documents_are_immutable `{RegExp.Engine}
    (extractTitle : jsstring → jsstring → jsstring)
    (root : exc (list Store.entry)) (op : Store.operation)
    (st : Store.State) (p : jsstring) (r : Store.ref) :
  Store.reachable extractTitle st →
  Store.documentCache st !! p = Some r →
  ∃ d,
    Store.heap st !! r = Some (Store.Document d)
    ∧ Knowledge.path d = p
    ∧ Knowledge.snippet d = None
    ∧ Store.heap (Store.run extractTitle root op st).2 !! r
      = Some (Store.Document d)
    ∧ (op ≠ Store.ClearCache →
       Store.documentCache (Store.run extractTitle root op st).2 !! p = Some r)
    ∧ (op = Store.ClearCache →
       Store.documentCache (Store.run extractTitle root op st).2 = ∅)
    ∧ (op ≠ Store.GetAllDocuments →
       ∀ r' p', r' ∈ (Store.run extractTitle root op st).1 →
         Store.documentCache (Store.run extractTitle root op st).2 !! p'
         ≠ Some r').
Proof.
  intros Hreach Hcached.
  pose proof (StoreFacts.reachable_wf extractTitle st Hreach) as Hwf.
  destruct (Hwf p r Hcached) as (d & Hd & Hp & Hs).
  exists d. repeat split; try done.
  - eapply prefix_lookup_Some; [exact Hd|]. by apply StoreFacts.run_heap.
  - intros Hop. eapply lookup_weaken; [exact Hcached|].
    by apply StoreFacts.run_cache.
  - by intros ->.
  - intros Hop r' p' Hr'. by apply StoreFacts.run_copies.
Qed.

Lemma cached_documents_are_immutable_witness :
  ∃ d,
    Store.heap after_first_search !! 0 = Some (Store.Document d)
    ∧ Knowledge.path d = str "care.md"
    ∧ Knowledge.snippet d = None
    ∧ Store.heap
        (Store.run (H := RegExp.strict) title_of_path small_root
           (Store.SearchWithCopilot (Some oracle_down) (str "green moss") 10 1)
           after_first_search).2 !! 0
      = Some (Store.Document d)
    ∧ (Store.SearchWithCopilot (Some oracle_down) (str "green moss") 10 1
       ≠ Store.ClearCache →
       Store.documentCache
         (Store.run (H := RegExp.strict) title_of_path small_root
            (Store.SearchWithCopilot (Some oracle_down) (str "green moss") 10 1)
            after_first_search).2 !! str "care.md" = Some 0)
    ∧ (Store.SearchWithCopilot (Some oracle_down) (str "green moss") 10 1
       = Store.ClearCache →
       Store.documentCache
         (Store.run (H := RegExp.strict) title_of_path small_root
            (Store.SearchWithCopilot (Some oracle_down) (str "green moss") 10 1)
            after_first_search).2 = ∅)
    ∧ (Store.SearchWithCopilot (Some oracle_down) (str "green moss") 10 1
       ≠ Store.GetAllDocuments →
       ∀ r' p',
         r' ∈ (Store.run (H := RegExp.strict) title_of_path small_root
                 (Store.SearchWithCopilot (Some oracle_down)
                    (str "green moss") 10 1)
                 after_first_search).1 →
         Store.documentCache
           (Store.run (H := RegExp.strict) title_of_path small_root
              (Store.SearchWithCopilot (Some oracle_down)
                 (str "green moss") 10 1)
              after_first_search).2 !! p'
         ≠ Some r').
Proof.
  apply (cached_documents_are_immutable (H := RegExp.strict) title_of_path
           small_root
           (Store.SearchWithCopilot (Some oracle_down) (str "green moss") 10 1)
           after_first_search (str "care.md") 0).
  - apply Store.reachable_run, Store.reachable_initial.
  - vm_compute. reflexivity.
Defined.

(** ** Further properties of the keyword search *)

Module ResultFacts.
Import Knowledge LexicalSpec StableSort ExcFacts SortFacts SearchAux.

(** *** The length of a snippet *)

Lemma length_ellipsis (s : jsstring) : length (ellipsis s) ≤ 303.
Proof.
  unfold ellipsis, Str.substring0.
  destruct (Nat.ltb_spec 300 (length s)); [|lia].
  rewrite length_app, length_take. change (length (str "...")) with 3. lia.
Qed.

Lemma scan_lines_ellipsis (lines : list jsstring) (term : jsstring) (i : nat)
    (rest : list jsstring) (snippet : jsstring) :
  scan_lines lines term i rest = Some snippet →
  ∃ s, snippet = ellipsis s ∧ 20 < length s.
Proof.
  revert i. induction rest as [|line rest IH]; intros i; [done|].
  simpl. destruct (Str.includes _ _); [|apply IH].
  destruct (Nat.ltb_spec 20 (length (window lines i))); [|apply IH].
  intros [= <-]. eauto.
Qed.

Lemma scan_terms_ellipsis (lines : list jsstring) (queryTerms : list jsstring)
    (snippet : jsstring) :
  scan_terms lines queryTerms = Some snippet →
  ∃ s, snippet = ellipsis s ∧ 20 < length s.
Proof.
  induction queryTerms as [|term queryTerms IH]; [done|].
  simpl. destruct (length term <? 3); [done|].
  destruct (scan_lines lines term 0 lines) as [found|] eqn:Hscan; [|done].
  intros [= <-]. by eapply scan_lines_ellipsis.
Qed.

Lemma scan_terms_passed (lines : list jsstring) (queryTerms : list jsstring) :
  Forall (SnippetAux.passed lines) queryTerms →
  scan_terms lines queryTerms = None.
Proof.
  induction 1 as [|term queryTerms Hterm _ IH]; [done|].
  simpl. destruct (Nat.ltb_spec (length term) 3); [done|].
  destruct Hterm as [Hterm | Hterm]; [lia|].
  by rewrite SnippetFacts.scan_lines_no_match.
Qed.

(** *** Stable sorting of a list that is sorted *)

Lemma sort_desc_constant {A} (key : A → Z) (k : Z) (l : list A) :
  Forall (λ a, key a = k) l → sort_desc key l = l.
Proof.
  induction 1 as [|x l Hx Hl IH]; [done|].
  simpl. fold (sort_desc key l). rewrite IH.
  destruct Hl as [|y l Hy _]; [done|].
  simpl. destruct (Z.ltb_spec (key x) (key y)); [lia | done].
Qed.

Lemma slice0_twice {A} (l : list A) (e : Z) :
  (0 ≤ e)%Z → slice (slice l 0 e) 0 e = slice l 0 e.
Proof.
  intros He.
  replace e with (Z.of_nat (Z.to_nat e)) by lia.
  change 0%Z with (Z.of_nat 0).
  rewrite !SnippetFacts.slice_nonneg, !drop_0, Nat.sub_0_r.
  by rewrite take_take, Nat.min_id.
Qed.

Section with_engine.
Context `{RegExp.Engine}.

(** *** The two scores of a document *)

Lemma score_loops (doc : KnowledgeDocument) (queryTerms : list jsstring)
    (a a' s : Z) :
  for_of (λ score term,
    if length term <? 3 then Ok score
    else
      let score :=
        if Str.includes (toLowerCase (title doc)) term
        then (score + 10)%Z else score in
      bind (RegExp.match_count term (toLowerCase (content doc))) (λ matches,
      Ok (score + Z.min (Z.of_nat matches) 5)%Z))
    queryTerms a = Ok s →
  ∃ s',
    for_of (λ score term,
      if length term <? 3 then Ok score
      else
        let score :=
          if Str.includes (toLowerCase (title doc)) term
          then (score + 10)%Z else score in
        if Str.includes (toLowerCase (content doc)) term then
          bind (RegExp.match_count term (toLowerCase (content doc)))
            (λ matches, Ok (score + Z.min (Z.of_nat matches) 5)%Z)
        else Ok score)
      queryTerms a' = Ok s'
    ∧ (0 ≤ s' - a' ≤ s - a)%Z
    ∧ (s - a
       ≤ 15 * Z.of_nat (length (List.filter long_term queryTerms)))%Z.
Proof.
  revert a a'. induction queryTerms as [|term queryTerms IH]; intros a a'.
  - simpl. intros [= <-]. exists a'. split; [done|]. lia.
  - cbn [for_of List.filter]. unfold long_term at 1.
    destruct (Nat.ltb_spec (length term) 3), (Nat.leb_spec 3 (length term));
      try lia.
    + simpl. intros Hs. destruct (IH _ a' Hs) as (s' & Hs' & Hle & Hcap).
      exists s'. split; [done|]. lia.
    + intros (b & Hb & Hs)%bind_Ok.
      apply bind_Ok in Hb as (matches & Hmatches & [= <-]).
      rewrite Hmatches.
      destruct (Str.includes (toLowerCase (title doc)) term),
        (Str.includes (toLowerCase (content doc)) term); simpl.
      * destruct (IH _ (a' + 10 + Z.min (Z.of_nat matches) 5)%Z Hs)
          as (s' & Hs' & Hle & Hcap).
        exists s'. split; [done|]. cbn [length]. lia.
      * destruct (IH _ (a' + 10)%Z Hs) as (s' & Hs' & Hle & Hcap).
        exists s'. split; [done|]. cbn [length]. lia.
      * destruct (IH _ (a' + Z.min (Z.of_nat matches) 5)%Z Hs)
          as (s' & Hs' & Hle & Hcap).
        exists s'. split; [done|]. cbn [length]. lia.
      * destruct (IH _ a' Hs) as (s' & Hs' & Hle & Hcap).
        exists s'. split; [done|]. cbn [length]. lia.
Qed.

Lemma relevance_score_short (doc : KnowledgeDocument)
    (queryTerms : list jsstring) :
  Forall (λ term, length term < 3) queryTerms →
  relevance_score doc queryTerms = Ok 0%Z.
Proof.
  intros Hshort. unfold relevance_score. generalize 0%Z.
  induction Hshort as [|term queryTerms Hterm _ IH]; intros score; [done|].
  simpl. destruct (Nat.ltb_spec (length term) 3); [apply IH | lia].
Qed.

(** *** The documents that the selection loop of [search] keeps *)

Lemma search_loop_selected (documents : list KnowledgeDocument)
    (query : jsstring) (acc results : list KnowledgeDocument) :
  for_of (λ results doc,
    bind (relevance_score doc (queryTerms_of query)) (λ score,
    if (0 <? score)%Z
    then Ok (results ++
               [with_snippet doc
                  (extractSnippet (content doc) (queryTerms_of query))])
    else Ok results)) documents acc = Ok results →
  results
  = acc ++ map (with_its_snippet query)
             (List.filter (selected query) documents).
Proof.
  revert acc. induction documents as [|doc documents IH]; intros acc Hloop.
  - simpl in *. injection Hloop as <-. by rewrite app_nil_r.
  - simpl in Hloop. apply bind_Ok in Hloop as (acc' & Hdoc & Hloop).
    apply bind_Ok in Hdoc as (score & Hscore & Hdoc).
    apply IH in Hloop as ->.
    assert (selected query doc = (0 <? score)%Z) as Hsel
      by (unfold selected; by rewrite Hscore).
    cbn [List.filter]. rewrite Hsel.
    destruct (0 <? score)%Z; injection Hdoc as <-; [|done].
    by rewrite <- app_assoc.
Qed.

Lemma search_selected (documents : list KnowledgeDocument) (query : jsstring) :
  ∃ results,
    search documents query = Ok results
    ∧ length results ≤ 3
    ∧ results ⊆+ map (with_its_snippet query)
                   (List.filter (selected query) documents).
Proof.
  unfold search. destruct (search_try documents query) as [results|e] eqn:Htry.
  2: { exists []. simpl. split; [done|]. split; [lia|]. apply submseteq_nil_l. }
  exists results. split; [done|]. unfold search_try in Htry.
  apply bind_Ok in Htry as (kept & Hkept & Htry).
  apply bind_Ok in Htry as (sorted & Hsorted & [= <-]).
  apply search_loop_selected in Hkept. simpl in Hkept. subst kept.
  apply StoreFacts.Array_sort_perm in Hsorted. split.
  - pose proof (length_slice0 sorted 3). lia.
  - rewrite <- Hsorted. apply SearchFacts.slice0_submseteq.
Qed.

(** *** The candidates of [searchWithCopilot] *)

Lemma keyword_candidates_selected (documents : list KnowledgeDocument)
    (query : jsstring) (acc candidates : list Candidate) :
  for_of (λ candidates doc,
    bind (relevance_score doc (queryTerms_of query)) (λ score,
    if (0 <? score)%Z
    then Ok (candidates ++
               [candidate doc
                  (extractSnippet (content doc) (queryTerms_of query)) score])
    else Ok candidates)) documents acc = Ok candidates →
  ∃ new, candidates = acc ++ new
         ∧ map without_score new
           = map (with_its_snippet query)
               (List.filter (selected query) documents).
Proof.
  revert acc. induction documents as [|doc documents IH]; intros acc Hloop.
  - simpl in *. injection Hloop as <-. exists []. by rewrite app_nil_r.
  - simpl in Hloop. apply bind_Ok in Hloop as (acc' & Hdoc & Hloop).
    apply bind_Ok in Hdoc as (score & Hscore & Hdoc).
    apply IH in Hloop as (new & -> & Hnew).
    assert (selected query doc = (0 <? score)%Z) as Hsel
      by (unfold selected; by rewrite Hscore).
    cbn [List.filter]. rewrite Hsel.
    destruct (0 <? score)%Z; injection Hdoc as <-.
    + eexists (_ :: new). rewrite <- app_assoc. split; [done|].
      simpl. by rewrite Hnew.
    + by exists new.
Qed.

Lemma keyword_candidates_short (documents : list KnowledgeDocument)
    (query : jsstring) :
  Forall (λ term, length term < 3) (queryTerms_of query) →
  keyword_candidates documents (queryTerms_of query) = Ok [].
Proof.
  intros Hshort. unfold keyword_candidates. generalize (@nil Candidate).
  induction documents as [|doc documents IH]; intros acc; [done|].
  simpl. rewrite relevance_score_short by done. simpl. apply IH.
Qed.

End with_engine.

End ResultFacts.

Module CandidateFacts.
Import Knowledge LexicalSpec StableSort ExcFacts SortFacts SearchAux.

Lemma elem_of_bool_filter {A} (f : A → bool) (l : list A) (x : A) :
  x ∈ List.filter f l → x ∈ l.
Proof.
  rewrite !list_elem_of_In, filter_In. tauto.
Qed.

Lemma index_elem_of {A} (l : list A) (i : Z) (x : A) :
  index l i = Some x → x ∈ l.
Proof.
  unfold index. destruct (i <? 0)%Z; [done|]. apply list_elem_of_lookup_2.
Qed.

Section with_engine.
Context `{RegExp.Engine}.

(** A candidate is a document of the corpus with its snippet and a
    score. *)
Lemma topCandidates_from_corpus (documents : list KnowledgeDocument)
    (query : jsstring) (maxCandidates : Z) (topCandidates : list Candidate) :
  topCandidates_of documents query maxCandidates = Ok topCandidates →
  Forall (λ c, without_score c ∈ map (with_its_snippet query) documents)
    topCandidates.
Proof.
  intros (candidates & Hcandidates & ->)%SearchFacts.topCandidates_of_Ok.
  apply Forall_forall. intros c Hc.
  eapply elem_of_submseteq in Hc; [|apply SearchFacts.slice0_submseteq].
  rewrite sort_desc_perm in Hc.
  apply ResultFacts.keyword_candidates_selected in Hcandidates
    as (new & -> & Hnew). simpl in Hc.
  assert (c ∈ new → without_score c ∈ map (with_its_snippet query) documents)
    as Hkept.
  { intros Hin. apply (list_elem_of_fmap_2 without_score) in Hin.
    change (without_score <$> new) with (map without_score new) in Hin.
    rewrite Hnew in Hin.
    apply list_elem_of_fmap in Hin as (doc & -> & Hdoc).
    apply list_elem_of_fmap_2. by eapply elem_of_bool_filter. }
  unfold or_first_documents in Hc. destruct (length new =? 0); [|by apply Hkept].
  apply elem_of_app in Hc as [Hc | Hc]; [by apply Hkept|].
  apply list_elem_of_fmap in Hc as (doc & -> & Hdoc).
  apply (list_elem_of_fmap_2 (with_its_snippet query)).
  eapply elem_of_submseteq; [exact Hdoc | apply SearchFacts.slice0_submseteq].
Qed.

Lemma topCandidates_short (documents : list KnowledgeDocument)
    (query : jsstring) (maxCandidates : Z) :
  Forall (λ term, length term < 3) (queryTerms_of query) →
  (0 ≤ maxCandidates)%Z →
  topCandidates_of documents query maxCandidates
  = Ok (map (λ doc, candidate doc
                      (extractSnippet (content doc) (queryTerms_of query)) 0)
          (slice documents 0 maxCandidates)).
Proof.
  intros Hshort Hmax. apply SearchFacts.topCandidates_of_Ok.
  exists []. split; [by apply ResultFacts.keyword_candidates_short|].
  unfold or_first_documents. simpl.
  rewrite (ResultFacts.sort_desc_constant c_score 0).
  - rewrite <- (ResultFacts.slice0_twice documents maxCandidates) at 1 by done.
    generalize (slice documents 0 maxCandidates). intros l.
    destruct (slice0_take l maxCandidates) as [n Hn].
    destruct (slice0_take
                (map (λ doc, candidate doc
                               (extractSnippet (content doc)
                                  (queryTerms_of query)) 0) l)
                maxCandidates) as [m Hm].
    unfold slice in *. rewrite length_map.
    change (slice_bound (length l) 0) with (Nat.min 0 (length l)).
    rewrite Nat.min_0_l, !drop_0, Nat.sub_0_r.
    change (take ?n (map ?f ?l)) with (take n (f <$> l)).
    by rewrite <- fmap_take.
  - apply Forall_forall. intros c (doc & -> & _)%list_elem_of_fmap. done.
Qed.

End with_engine.

End CandidateFacts.

(** X16. Whatever the content and the terms, the snippet that [extractSnippet]
    returns has at most 303 characters, 300 of the text and the three of
    the marker; and it has more than 20 characters unless it is the
    fallback, the first lines of the content. *)
Theorem extractSnippet_length_bound (content : jsstring)
    (queryTerms : list jsstring) :
  length (Knowledge.extractSnippet content queryTerms) ≤ 303
  ∧ (20 < length (Knowledge.extractSnippet content queryTerms)
     ∨ Knowledge.extractSnippet content queryTerms
       = Knowledge.ellipsis
           (Str.join [Str.newline]
              (take 3 (List.filter Knowledge.meaningful
                         (Str.split_lines content))))).
Proof.
  unfold Knowledge.extractSnippet.
  destruct (Knowledge.scan_terms (Str.split_lines content) queryTerms)
    as [snippet|] eqn:Hscan.
  - apply ResultFacts.scan_terms_ellipsis in Hscan as (s & -> & Hlong).
    split; [apply ResultFacts.length_ellipsis|]. left.
    unfold Knowledge.ellipsis, Str.substring0.
    destruct (Nat.ltb_spec 300 (length s)); [|done].
    rewrite length_app, length_take. lia.
  - split; [apply ResultFacts.length_ellipsis|]. right.
    change 0%Z with (Z.of_nat 0). change 3%Z with (Z.of_nat 3).
    by rewrite SnippetFacts.slice_nonneg, drop_0.
Qed.

(** X17. When no term of three characters or more occurs in a line of the
    content, [extractSnippet] returns the first three lines that are not
    blank and start neither with [#] nor with [---], joined by line breaks,
    cut after 300 characters with the marker. *)
Theorem extractSnippet_without_match (content : jsstring)
    (queryTerms : list jsstring) :
  Forall (SnippetAux.passed (Str.split_lines content)) queryTerms →
  Knowledge.extractSnippet content queryTerms
  = Knowledge.ellipsis
      (Str.join [Str.newline]
         (take 3 (List.filter Knowledge.meaningful (Str.split_lines content)))).
Proof.
  intros Hpassed. unfold Knowledge.extractSnippet.
  rewrite ResultFacts.scan_terms_passed by done.
  change 0%Z with (Z.of_nat 0). change 3%Z with (Z.of_nat 3).
  by rewrite SnippetFacts.slice_nonneg, drop_0.
Qed.

Lemma extractSnippet_without_match_witness :
  Knowledge.extractSnippet headed_page [str "is"; str "fern"]
  = str "body text".
Proof.
  refine (eq_trans (extractSnippet_without_match headed_page
                      [str "is"; str "fern"] _) _).
  - constructor; [left; vm_compute; lia|].
    constructor; [right; vm_compute; repeat constructor | constructor].
  - reflexivity.
Defined.

(** X8. When [scoreDocument] returns a score, the scoring loop of [search]
    returns one too, and it is not negative and not higher; neither score
    exceeds 15 for each term of three characters or more. *)
Theorem scoreDocument_bounds `{RegExp.Engine}
    (doc : Knowledge.KnowledgeDocument) (queryTerms : list jsstring)
    (score : Z) :
  Knowledge.scoreDocument doc queryTerms = Ok score →
  ∃ selection,
    Knowledge.relevance_score doc queryTerms = Ok selection
    ∧ (0 ≤ selection ≤ score)%Z
    ∧ (score
       ≤ 15 * Z.of_nat (length (List.filter SearchAux.long_term queryTerms)))%Z.
Proof.
  intros Hscore.
  destruct (ResultFacts.score_loops doc queryTerms 0 0 score Hscore)
    as (selection & Hselection & Hle & Hcap).
  exists selection. split; [exact Hselection|]. lia.
Qed.

Lemma scoreDocument_bounds_witness :
  ∃ selection,
    Knowledge.relevance_score (H := RegExp.strict) mossy_page
      [str "moss."; str "on"] = Ok selection
    ∧ (0 ≤ selection ≤ 1)%Z
    ∧ (1 ≤ 15 * Z.of_nat
              (length (List.filter SearchAux.long_term
                         [str "moss."; str "on"])))%Z.
Proof.
  apply (scoreDocument_bounds (H := RegExp.strict) mossy_page
           [str "moss."; str "on"] 1).
  reflexivity.
Defined.

(** X10. [search] does not raise. It returns at most three documents; each is a
    document of the corpus to which the scoring loop gives a positive
    score, with the snippet for the query, and no document of the corpus
    is returned more often than the corpus has it. *)
Theorem search_returns_selected_documents `{RegExp.Engine}
    (documents : list Knowledge.KnowledgeDocument) (query : jsstring) :
  ∃ results,
    Knowledge.search documents query = Ok results
    ∧ length results ≤ 3
    ∧ results ⊆+ map (LexicalSpec.with_its_snippet query)
                   (List.filter (SearchAux.selected query) documents).
Proof. apply ResultFacts.search_selected. Qed.

(** X11. On a query whose terms of three characters or more have no syntax
    character of the pattern language, [search] returns the documents of a
    positive lexical score (10 for a term in the title, and the number of
    its occurrences in the content, at most 5), each with its snippet, by
    descending score, documents of an equal score in the order of the
    corpus, the first three of them. *)
Theorem search_ranks_literal_queries `{RegExp.Engine}
    (documents : list Knowledge.KnowledgeDocument) (query : jsstring) :
  LexicalSpec.literal_query query →
  ∃ sorted,
    Knowledge.search documents query = Ok (take 3 sorted)
    ∧ StableSort.stable_sorted (λ d, LexicalSpec.score d query)
        (map (LexicalSpec.with_its_snippet query)
           (List.filter (λ d, (0 <? LexicalSpec.score d query)%Z) documents))
        sorted.
Proof. apply ScoreFacts.search_literal. Qed.

Lemma search_ranks_literal_queries_witness :
  ∃ sorted,
    Knowledge.search (H := RegExp.strict) moss_corpus
      (str "How is MOSS watered") = Ok (take 3 sorted)
    ∧ StableSort.stable_sorted
        (λ d, LexicalSpec.score d (str "How is MOSS watered"))
        (map (LexicalSpec.with_its_snippet (str "How is MOSS watered"))
           (List.filter
              (λ d, (0 <? LexicalSpec.score d (str "How is MOSS watered"))%Z)
              moss_corpus))
        sorted.
Proof.
  apply (search_ranks_literal_queries (H := RegExp.strict) moss_corpus
           (str "How is MOSS watered")).
  repeat constructor; vm_compute; lia.
Defined.

(** X9. On such a query, the scoring loop of [search] and [scoreDocument]
    return the same score, the lexical score of the document. *)
Theorem scorers_agree_on_literal_queries `{RegExp.Engine}
    (doc : Knowledge.KnowledgeDocument) (query : jsstring) :
  LexicalSpec.literal_query query →
  Knowledge.scoreDocument doc (Knowledge.queryTerms_of query)
  = Ok (LexicalSpec.score doc query)
  ∧ Knowledge.relevance_score doc (Knowledge.queryTerms_of query)
    = Ok (LexicalSpec.score doc query).
Proof.
  intros Hquery. split.
  - by apply ScoreFacts.scoreDocument_literal.
  - by apply ScoreFacts.relevance_score_literal.
Qed.

Lemma scorers_agree_on_literal_queries_witness :
  Knowledge.scoreDocument (H := RegExp.strict) mossy_page
    (Knowledge.queryTerms_of (str "Moss wall"))
  = Ok (LexicalSpec.score mossy_page (str "Moss wall"))
  ∧ Knowledge.relevance_score (H := RegExp.strict) mossy_page
      (Knowledge.queryTerms_of (str "Moss wall"))
    = Ok (LexicalSpec.score mossy_page (str "Moss wall")).
Proof.
  apply (scorers_agree_on_literal_queries (H := RegExp.strict) mossy_page
           (str "Moss wall")).
  repeat constructor; vm_compute; lia.
Defined.

(** X12. A query without a term of three characters or more, the empty query
    among them, finds nothing: [search] returns the empty array, whatever
    the corpus. *)
Theorem search_without_long_term `{RegExp.Engine}
    (documents : list Knowledge.KnowledgeDocument) (query : jsstring) :
  Forall (λ term, length term < 3) (Knowledge.queryTerms_of query) →
  Knowledge.search documents query = Ok [].
Proof.
  intros Hshort.
  assert (List.filter (SearchAux.selected query) documents = []) as Hnone.
  { induction documents as [|doc documents IH]; [done|].
    simpl. unfold SearchAux.selected at 1.
    by rewrite ResultFacts.relevance_score_short. }
  destruct (ResultFacts.search_selected documents query)
    as (results & -> & _ & Hsub).
  rewrite Hnone in Hsub. by apply submseteq_nil_r in Hsub as ->.
Qed.

Lemma search_without_long_term_witness :
  Knowledge.search (H := RegExp.strict) moss_corpus (str "Is it ok") = Ok [].
Proof.
  apply (search_without_long_term (H := RegExp.strict) moss_corpus
           (str "Is it ok")).
  repeat constructor.
Defined.

(** X13. On a query without a term of three characters or more,
    [searchWithCopilot] with a ranking service takes the first
    [maxCandidates] documents of the corpus as its candidates; when they
    are at most [maxResults], it returns them in the order of the corpus,
    each with its snippet, and does not call the oracle. *)
Theorem searchWithCopilot_without_long_term `{RegExp.Engine}
    (oracle : Knowledge.Oracle)
    (documents : list Knowledge.KnowledgeDocument) (query : jsstring)
    (maxCandidates maxResults : Z) :
  Forall (λ term, length term < 3) (Knowledge.queryTerms_of query) →
  (0 ≤ maxCandidates)%Z →
  (Z.of_nat (length (slice documents 0 maxCandidates)) ≤ maxResults)%Z →
  Knowledge.searchWithCopilot (Some oracle) documents query
    maxCandidates maxResults
  = (Ok (map (LexicalSpec.with_its_snippet query)
           (slice documents 0 maxCandidates)), []).
Proof.
  intros Hshort Hmax Hfew.
  rewrite (SearchFacts.searchWithCopilot_few_candidates oracle documents query
             maxCandidates maxResults _
             (CandidateFacts.topCandidates_short documents query
                maxCandidates Hshort Hmax)).
  - do 2 f_equal.
    change (map ?f (map ?g ?l)) with (f <$> (g <$> l)).
    by rewrite <- list_fmap_compose.
  - by rewrite length_map.
Qed.

Lemma searchWithCopilot_without_long_term_witness :
  Knowledge.searchWithCopilot (H := RegExp.strict) (Some oracle_down)
    moss_corpus (str "Is it ok") 10 3
  = (Ok (map (LexicalSpec.with_its_snippet (str "Is it ok")) moss_corpus), []).
Proof.
  apply (searchWithCopilot_without_long_term (H := RegExp.strict) oracle_down
           moss_corpus (str "Is it ok") 10 3).
  - repeat constructor.
  - lia.
  - vm_compute. discriminate.
Defined.

(** X14. [searchWithCopilot] does not raise, with or without a ranking service
    and whatever the service answers, and every document that it returns
    is a document of the corpus with its snippet for the query. *)
Theorem searchWithCopilot_returns_corpus_documents `{RegExp.Engine}
    (copilotService : option Knowledge.Oracle)
    (documents : list Knowledge.KnowledgeDocument) (query : jsstring)
    (maxCandidates maxResults : Z) :
  ∃ results,
    (Knowledge.searchWithCopilot copilotService documents query
       maxCandidates maxResults).1 = Ok results
    ∧ Forall (λ doc, doc ∈ map (LexicalSpec.with_its_snippet query) documents)
        results.
Proof.
  assert (∃ results,
            Knowledge.search documents query = Ok results
            ∧ Forall (λ doc, doc ∈ map (LexicalSpec.with_its_snippet query)
                               documents) results) as Hsearch.
  { destruct (ResultFacts.search_selected documents query)
      as (results & Hresults & _ & Hsub).
    exists results. split; [done|]. apply Forall_forall. intros doc Hdoc.
    eapply elem_of_submseteq in Hdoc; [|exact Hsub].
    apply list_elem_of_fmap in Hdoc as (d & -> & Hd).
    apply list_elem_of_fmap_2. by eapply CandidateFacts.elem_of_bool_filter. }
  unfold Knowledge.searchWithCopilot.
  destruct copilotService as [oracle|]; [|exact Hsearch].
  destruct (Knowledge.searchWithCopilot_try oracle documents query
              maxCandidates maxResults) as [[results|e] calls] eqn:Htry;
    [|exact Hsearch].
  exists results. split; [done|].
  unfold Knowledge.searchWithCopilot_try in Htry.
  destruct (Knowledge.topCandidates_of documents query maxCandidates)
    as [topCandidates|e] eqn:Htop; [|done].
  apply CandidateFacts.topCandidates_from_corpus in Htop.
  rewrite Forall_forall in Htop.
  destruct (Z.of_nat (length topCandidates) <=? maxResults)%Z.
  - injection Htry as <- _. apply Forall_forall.
    intros doc (c & -> & Hc)%list_elem_of_fmap. by apply Htop.
  - destruct (oracle query (map Knowledge.summary topCandidates))
      as [ranking|e]; [|done].
    injection Htry as <- _. apply Forall_forall.
    intros doc (c & -> & Hc)%list_elem_of_fmap. apply Htop.
    eapply elem_of_submseteq in Hc; [|apply SearchFacts.slice0_submseteq].
    unfold Knowledge.reorder in Hc.
    apply list_elem_of_omap in Hc as (i & _ & Hi).
    by eapply CandidateFacts.index_elem_of.
Qed.

(** ** Further properties of the loader and of the corpus walk *)

Module LoaderFacts.
Import PathSpec PathFacts.

Lemma normalize_not_empty (path : jsstring) : Path.normalize path ≠ [].
Proof.
  unfold Path.normalize. destruct path as [|c path]; [done|].
  destruct (Path.normalizeString _ _) as [|d normalized].
  - by repeat case_match.
  - destruct (Path.isAbsolute _); [done|]. simpl. done.
Qed.

Lemma join_app_prefix (sep : jsstring) (a b : list jsstring) :
  a ≠ [] → ∃ rest, Str.join sep (a ++ b) = Str.join sep a ++ rest.
Proof.
  intros Ha. induction a as [|x a IH]; [done|].
  destruct a as [|y a].
  - destruct b as [|z b]; simpl.
    + exists []. by rewrite app_nil_r.
    + eauto.
  - destruct IH as [rest Hrest]; [done|].
    exists rest. change (Str.join sep ((x :: y :: a) ++ b))
      with (x ++ sep ++ Str.join sep ((y :: a) ++ b)).
    rewrite Hrest. change (Str.join sep (x :: y :: a))
      with (x ++ sep ++ Str.join sep (y :: a)).
    by rewrite <- !app_assoc.
Qed.

Lemma last_app_cons {A} (l : list A) (x : A) (k : list A) :
  k ≠ [] → last (l ++ x :: k) = last k.
Proof.
  intros Hk. destruct k as [|y k] using rev_ind; [done|].
  by rewrite app_comm_cons, app_assoc, !last_snoc.
Qed.

Lemma normalize_resolved (path : jsstring) :
  path ≠ [] →
  Path.normalize path
  = match Str.join [Path.sep] (resolved path) with
    | [] =>
        if Path.isAbsolute path then [Path.sep]
        else if match last path with
                | Some c => Ascii.eqb c Path.sep
                | None => false
                end
             then str "./" else str "."
    | normalized =>
        (if Path.isAbsolute path then [Path.sep] else [])
        ++ normalized
        ++ (if match last path with
               | Some c => Ascii.eqb c Path.sep
               | None => false
               end
            then [Path.sep] else [])
    end.
Proof. by destruct path. Qed.

(** Under a data directory in normal form, the join with a path without
    [..] starts with the data directory. *)
Lemma join_starts_with_root (root relative : jsstring) :
  Path.normalize root = root →
  root ≠ str "." →
  (last root = Some Path.sep → root = [Path.sep]) →
  relative ≠ [] →
  Str.includes relative (str "..") = false →
  Str.startsWith (Path.join root relative) root = true.
Proof.
  intros Hnormal Hdot Htrailing Hrelative Hplain.
  destruct (plain_path_under root relative Hplain) as [more Hmore].
  assert (root ≠ []) as Hroot.
  { intros ->. by apply (normalize_not_empty []). }
  assert (Path.joined root relative ≠ []
          ∧ Path.isAbsolute (Path.joined root relative)
            = Path.isAbsolute root) as [Hfull Habs].
  { destruct root; [done|]. by destruct relative. }
  unfold Path.join. rewrite (normalize_resolved _ Hfull), Hmore, Habs.
  rewrite (normalize_resolved _ Hroot) in Hnormal.
  assert (match last root with
          | Some l => Ascii.eqb l Path.sep
          | None => false
          end = true → root = [Path.sep]) as Hsep.
  { destruct (last root) as [l|]; [|done].
    intros ->%Ascii.eqb_eq. by apply Htrailing. }
  destruct (Str.join [Path.sep] (resolved root)) as [|k joined] eqn:Hkept.
  - destruct (Path.isAbsolute root).
    + rewrite <- Hnormal.
      destruct (Str.join _ (_ ++ more));
        [reflexivity | apply (startsWith_app [Path.sep])].
    + destruct (match last root with
                | Some l => Ascii.eqb l Path.sep
                | None => false
                end); [|done].
      specialize (Hsep eq_refl). by rewrite Hsep in Hnormal.
  - assert (resolved root ≠ []) as Hne
      by (by intros Hnil; rewrite Hnil in Hkept).
    destruct (join_app_prefix [Path.sep] (resolved root) more Hne)
      as [rest ->].
    rewrite Hkept.
    destruct (match last root with
              | Some l => Ascii.eqb l Path.sep
              | None => false
              end).
    { specialize (Hsep eq_refl). rewrite Hsep in Hnormal. exfalso.
      apply (f_equal length) in Hnormal. simpl in Hnormal.
      rewrite length_app in Hnormal. simpl in Hnormal. lia. }
    rewrite app_nil_r in Hnormal. cbn [app].
    set (pre := if Path.isAbsolute root then [Path.sep] else []) in *.
    set (suf := if match last (Path.joined root relative) with
                   | Some c => Ascii.eqb c Path.sep
                   | None => false
                   end
                then [Path.sep] else []).
    clearbody pre suf. clear -Hnormal. subst root.
    replace (pre ++ k :: (joined ++ rest) ++ suf)
      with ((pre ++ k :: joined) ++ rest ++ suf)
      by (by rewrite <- !app_assoc).
    apply startsWith_app.
Qed.

End LoaderFacts.

(** X21. Every file that [loadDocument] tries to read lies under the data
    directory: a call reads at most one file, the join of the data
    directory and of the normal form of the path, which starts with the
    data directory and whose segments go on from those of the data
    directory. *)
Theorem loadDocument_reads_under_root
    (extractTitle : jsstring → jsstring → jsstring)
    (readFile : jsstring → exc jsstring)
    (dataDirectory relativePath file : jsstring) :
  file ∈ (Loader.loadDocument extractTitle readFile dataDirectory
            relativePath).2 →
  (Loader.loadDocument extractTitle readFile dataDirectory relativePath).2
  = [file]
  ∧ file = Path.join dataDirectory (Path.normalize relativePath)
  ∧ Str.startsWith file dataDirectory = true
  ∧ PathSpec.under dataDirectory (Path.normalize relativePath).
Proof.
  unfold Loader.loadDocument.
  destruct (Str.includes (Path.normalize relativePath) (str "..")) eqn:Hdots.
  { by intros ?%not_elem_of_nil. }
  destruct (Str.startsWith _ dataDirectory) eqn:Hstarts.
  2: { by intros ?%not_elem_of_nil. }
  simpl. intros ->%list_elem_of_singleton.
  repeat split; try done. by apply PathFacts.plain_path_under.
Qed.

Lemma loadDocument_reads_under_root_witness :
  (Loader.loadDocument title_of_path no_file (str "/srv/app/data")
     (str "guides/./care.md")).2
  = [str "/srv/app/data/guides/care.md"]
  ∧ str "/srv/app/data/guides/care.md"
    = Path.join (str "/srv/app/data") (Path.normalize (str "guides/./care.md"))
  ∧ Str.startsWith (str "/srv/app/data/guides/care.md") (str "/srv/app/data")
    = true
  ∧ PathSpec.under (str "/srv/app/data")
      (Path.normalize (str "guides/./care.md")).
Proof.
  apply (loadDocument_reads_under_root title_of_path no_file
           (str "/srv/app/data") (str "guides/./care.md")
           (str "/srv/app/data/guides/care.md")).
  vm_compute. left.
Defined.

(** X22. Under a data directory in normal form, which is not [.] and ends with
    no separator unless it is the root, [loadDocument] rejects a path if
    and only if the normal form of the path contains [..]; every other
    path passes both guards and its file is read. The call raises no other
    error: a file that cannot be read gives [null]. *)
Theorem loadDocument_rejects_only_traversal
    (extractTitle : jsstring → jsstring → jsstring)
    (readFile : jsstring → exc jsstring)
    (dataDirectory relativePath : jsstring) :
  Path.normalize dataDirectory = dataDirectory →
  dataDirectory ≠ str "." →
  (last dataDirectory = Some Path.sep → dataDirectory = [Path.sep]) →
  (throws (Loader.loadDocument extractTitle readFile dataDirectory
             relativePath).1
   ↔ Str.includes (Path.normalize relativePath) (str "..") = true)
  ∧ (Str.includes (Path.normalize relativePath) (str "..") = false →
     Loader.loadDocument extractTitle readFile dataDirectory relativePath
     = (match readFile
                (Path.join dataDirectory (Path.normalize relativePath)) with
        | Ok content =>
            Ok (Some {| Knowledge.path := relativePath;
                        Knowledge.title := extractTitle content relativePath;
                        Knowledge.content := content;
                        Knowledge.snippet := None |})
        | Throw _ => Ok None
        end,
        [Path.join dataDirectory (Path.normalize relativePath)])).
Proof.
  intros Hnormal Hdot Htrailing.
  assert (Str.includes (Path.normalize relativePath) (str "..") = false →
          Str.startsWith
            (Path.join dataDirectory (Path.normalize relativePath))
            dataDirectory = true) as Hstarts.
  { apply LoaderFacts.join_starts_with_root; try done.
    apply LoaderFacts.normalize_not_empty. }
  unfold Loader.loadDocument.
  destruct (Str.includes (Path.normalize relativePath) (str "..")).
  - split; [|done]. split; [done|]. intros _. by eexists.
  - rewrite Hstarts by done. simpl. split.
    + split; [|done]. intros [e He]. by destruct (readFile _).
    + intros _. by destruct (readFile _).
Qed.

Lemma loadDocument_rejects_only_traversal_witness :
  (throws (Loader.loadDocument title_of_path no_file (str "/srv/app/data")
             (str "a..b/care.md")).1
   ↔ Str.includes (Path.normalize (str "a..b/care.md")) (str "..") = true)
  ∧ (Str.includes (Path.normalize (str "a..b/care.md")) (str "..") = false →
     Loader.loadDocument title_of_path no_file (str "/srv/app/data")
       (str "a..b/care.md")
     = (match no_file
                (Path.join (str "/srv/app/data")
                   (Path.normalize (str "a..b/care.md"))) with
        | Ok content =>
            Ok (Some {| Knowledge.path := str "a..b/care.md";
                        Knowledge.title :=
                          title_of_path content (str "a..b/care.md");
                        Knowledge.content := content;
                        Knowledge.snippet := None |})
        | Throw _ => Ok None
        end,
        [Path.join (str "/srv/app/data")
           (Path.normalize (str "a..b/care.md"))])).
Proof.
  apply (loadDocument_rejects_only_traversal title_of_path no_file
           (str "/srv/app/data") (str "a..b/care.md")).
  - reflexivity.
  - discriminate.
  - vm_compute. discriminate.
Defined.

(** ** The corpus walk with and without the cache *)

Module CorpusFacts.
Import Knowledge Store StoreInv CorpusAux StoreFacts.

Section with_title.
Context `{RegExp.Engine}.
Context (extractTitle : jsstring → jsstring → jsstring).

(** *** A walk that finds no file in the cache *)

Lemma visit_file_fresh (docs : list ref) (st : State)
    (f : jsstring * jsstring * exc jsstring) :
  documentCache st !! f.1.1 = None →
  ∃ added,
    (visit_file extractTitle (docs, st) f).1 = docs ++ added
    ∧ made_since st added
    ∧ docs_at (visit_file extractTitle (docs, st) f).2 added
        (option_list (page_of extractTitle f)).
Proof.
  destruct f as [[path name] read]. unfold visit_file, visit, page_of, is_page.
  cbn [fst snd]. intros ->.
  destruct (_ || _).
  2: { exists []. rewrite app_nil_r. repeat split; constructor. }
  destruct read as [content|e].
  2: { exists []. rewrite app_nil_r. repeat split; constructor. }
  destruct (length (Str.trim content) <? 10).
  { exists []. rewrite app_nil_r. repeat split; constructor. }
  exists [length (heap st)]. cbn [fst snd option_list]. split; [done|]. split.
  - by repeat constructor.
  - repeat constructor. simpl. by apply list_lookup_middle.
Qed.

Lemma fold_visit_fresh (fs : list (jsstring * jsstring * exc jsstring)) :
  NoDup (map (λ f, f.1.1) fs) →
  ∀ docs st,
    (∀ p, documentCache st !! p ≠ None → p ∉ map (λ f, f.1.1) fs) →
    ∃ added,
      (fold_left (visit_file extractTitle) fs (docs, st)).1 = docs ++ added
      ∧ made_since st added
      ∧ docs_at (fold_left (visit_file extractTitle) fs (docs, st)).2 added
          (omap (page_of extractTitle) fs).
Proof.
  induction fs as [|f fs IH]; intros Hnodup docs st Hfresh.
  { exists []. rewrite app_nil_r. repeat split; constructor. }
  apply NoDup_cons in Hnodup as [Hf Hnodup]. specialize (IH Hnodup).
  cbn [fold_left].
  assert (documentCache st !! f.1.1 = None) as Hnone.
  { destruct (documentCache st !! f.1.1) eqn:Hp; [|done].
    exfalso. apply (Hfresh f.1.1); [by rewrite Hp | by left]. }
  destruct (visit_file_fresh docs st f Hnone) as (a1 & Hdocs & Hmade & Hat).
  assert (keeps (docs, st) (visit_file extractTitle (docs, st) f))
    as [[_ Hprefix] _]
    by apply (visit_keeps extractTitle f.1.1 f.1.2 f.2 (docs, st)).
  pose proof (fold_visit_paths extractTitle [f] (docs, st)) as Hpaths.
  cbn [fold_left fst snd] in Hprefix, Hpaths.
  destruct (visit_file extractTitle (docs, st) f) as [docs1 st1].
  cbn [fst snd] in *. subst docs1.
  destruct (IH (docs ++ a1) st1) as (a2 & Hdocs2 & Hmade2 & Hat2).
  { intros p Hp Hin. destruct (Hpaths p Hp) as [Hold | Hnew].
    - apply (Hfresh p Hold). by right.
    - apply list_elem_of_singleton in Hnew. by subst p. }
  pose proof (fold_visit_keeps extractTitle fs (docs ++ a1, st1))
    as [[_ Hprefix2] _].
  cbn [fst snd] in Hprefix2.
  exists (a1 ++ a2). rewrite Hdocs2, app_assoc. split; [done|]. split.
  - apply Forall_app. split; [done|].
    eapply Forall_impl; [exact Hmade2|]. simpl. intros r Hr.
    apply prefix_length in Hprefix. lia.
  - cbn [omap list_omap].
    replace (match page_of extractTitle f with
             | Some y => y :: omap (page_of extractTitle) fs
             | None => omap (page_of extractTitle) fs
             end)
      with (option_list (page_of extractTitle f)
            ++ omap (page_of extractTitle) fs)
      by (by destruct (page_of extractTitle f)).
    apply Forall2_app; [|done].
    eapply Forall2_impl; [exact Hat|]. simpl. intros r d Hr.
    by eapply prefix_lookup_Some.
Qed.

(** *** Properties of the cached documents *)

Lemma grows_cache_holds (Q : jsstring → KnowledgeDocument → Prop)
    (st st' : State) :
  grows st st' → cache_holds Q st → cache_holds Q st'.
Proof.
  intros [Hc Hh] Hst p r Hr. rewrite Hc in Hr.
  destruct (Hst p r Hr) as (d & Hd & HQ). exists d.
  split; [|done]. by eapply prefix_lookup_Some.
Qed.

Section holds.
Context (Q : jsstring → KnowledgeDocument → Prop).
Context (Hpage : ∀ p content,
           10 ≤ length (Str.trim content) →
           Q p {| path := p; title := extractTitle content p;
                  content := content; snippet := None |}).

Lemma getAllDocuments_cache_holds (root : exc (list entry)) (st : State) :
  cache_holds Q st → cache_holds Q (getAllDocuments extractTitle root st).2.
Proof.
  apply (getAllDocuments_invariant extractTitle (λ acc, cache_holds Q acc.2)).
  intros relativePath name read [documents st1] Hacc. unfold visit.
  cbn [fst snd] in *.
  destruct (_ || _); [|done].
  destruct (documentCache st1 !! relativePath); [done|].
  destruct read as [content|e]; [|done].
  destruct (Nat.ltb_spec (length (Str.trim content)) 10); [done|].
  intros p r Hr. cbn [snd documentCache heap] in *.
  destruct (decide (relativePath = p)) as [->|Hne].
  - rewrite lookup_insert_eq in Hr. injection Hr as <-.
    eexists. split; [by apply list_lookup_middle|]. by apply Hpage.
  - rewrite lookup_insert_ne in Hr by done.
    destruct (Hacc p r Hr) as (d & Hd & HQ). exists d.
    split; [|done]. by apply lookup_app_l_Some.
Qed.

Lemma search_cache_holds (root : exc (list entry)) (query : jsstring)
    (st : State) :
  cache_holds Q st → cache_holds Q (search extractTitle root query st).2.
Proof.
  intros Hst. unfold search.
  pose proof (getAllDocuments_cache_holds root st Hst) as Hst1.
  destruct (getAllDocuments extractTitle root st) as [documents st1].
  pose proof (growing_search_try documents query st1) as Hgrow.
  destruct (search_try documents query st1) as [result st2].
  simpl in *. by eapply grows_cache_holds.
Qed.

Lemma searchWithCopilot_cache_holds (copilotService : option Oracle)
    (root : exc (list entry)) (query : jsstring)
    (maxCandidates maxResults : Z) (st : State) :
  cache_holds Q st →
  cache_holds Q
    (searchWithCopilot extractTitle copilotService root query
       maxCandidates maxResults st).2.
Proof.
  intros Hst. destruct copilotService as [oracle|];
    [|by apply search_cache_holds].
  unfold searchWithCopilot.
  pose proof (getAllDocuments_cache_holds root st Hst) as Hst1.
  destruct (getAllDocuments extractTitle root st) as [documents st1].
  pose proof (growing_searchWithCopilot_try oracle documents query
                maxCandidates maxResults st1) as Hgrow.
  destruct (searchWithCopilot_try oracle documents query
              maxCandidates maxResults st1) as [[results|e] st2];
    simpl in *.
  - by eapply grows_cache_holds.
  - apply search_cache_holds. by eapply grows_cache_holds.
Qed.

Lemma reachable_cache_holds (st : State) :
  reachable extractTitle st → cache_holds Q st.
Proof.
  induction 1 as [|root op st _ IH].
  { intros p r Hr. simpl in Hr. by rewrite lookup_empty in Hr. }
  destruct op as [|query|copilotService query maxCandidates maxResults|];
    simpl.
  - by apply getAllDocuments_cache_holds.
  - pose proof (search_cache_holds root query st IH) as Hst.
    by destruct (search extractTitle root query st).
  - pose proof (searchWithCopilot_cache_holds copilotService root query
                  maxCandidates maxResults st IH) as Hst.
    by destruct (searchWithCopilot extractTitle copilotService root query
                   maxCandidates maxResults st).
  - intros p r Hr. simpl in Hr. by rewrite lookup_empty in Hr.
Qed.

End holds.

End with_title.

End CorpusFacts.

(** X23. On a corpus without two files of the same path, a second
    [getAllDocuments] returns the document objects of the first and leaves
    the cache and the heap as they are: it makes no new document. *)
Theorem getAllDocuments_twice
    (extractTitle : jsstring → jsstring → jsstring)
    (root : exc (list Store.entry)) (st : Store.State) :
  StoreInv.distinct_paths root →
  Store.getAllDocuments extractTitle root
    (Store.getAllDocuments extractTitle root st).2
  = Store.getAllDocuments extractTitle root st.
Proof.
  intros Hroot.
  rewrite (StoreFacts.getAllDocuments_again extractTitle root st
             (Store.getAllDocuments extractTitle root st).2 Hroot eq_refl).
  by destruct (Store.getAllDocuments extractTitle root st).
Qed.

Lemma getAllDocuments_twice_witness :
  Store.getAllDocuments title_of_path small_root
    (Store.getAllDocuments title_of_path small_root Store.initial).2
  = Store.getAllDocuments title_of_path small_root Store.initial.
Proof.
  apply (getAllDocuments_twice title_of_path small_root Store.initial).
  apply (bool_decide_unpack _). vm_compute. exact I.
Defined.

(** X24. With an empty cache, at the start or after [clearCache],
    [getAllDocuments] on a corpus without two files of the same path
    returns new document objects for the pages of the corpus, in the order
    of the walk: the files outside the hidden directories that have the
    extension [.md], [.yaml] or [.yml], can be read, and hold at least ten
    characters once trimmed. *)
Theorem getAllDocuments_reads_pages
    (extractTitle : jsstring → jsstring → jsstring)
    (root : exc (list Store.entry)) (st : Store.State) :
  StoreInv.distinct_paths root →
  Store.documentCache st = ∅ →
  StoreInv.docs_at (Store.getAllDocuments extractTitle root st).2
    (Store.getAllDocuments extractTitle root st).1
    (CorpusAux.pages extractTitle root)
  ∧ StoreInv.made_since st (Store.getAllDocuments extractTitle root st).1.
Proof.
  intros Hroot Hempty. rewrite StoreFacts.getAllDocuments_files.
  destruct (CorpusFacts.fold_visit_fresh extractTitle (StoreInv.files root)
              Hroot [] st) as (added & Hdocs & Hmade & Hat).
  { intros p Hp. by rewrite Hempty, lookup_empty in Hp. }
  rewrite Hdocs. done.
Qed.

Lemma getAllDocuments_reads_pages_witness :
  StoreInv.docs_at
    (Store.getAllDocuments title_of_path small_root
       (Store.clearCache after_first_search)).2
    (Store.getAllDocuments title_of_path small_root
       (Store.clearCache after_first_search)).1
    (CorpusAux.pages title_of_path small_root)
  ∧ StoreInv.made_since (Store.clearCache after_first_search)
      (Store.getAllDocuments title_of_path small_root
         (Store.clearCache after_first_search)).1.
Proof.
  apply (getAllDocuments_reads_pages title_of_path small_root
           (Store.clearCache after_first_search)).
  - apply (bool_decide_unpack _). vm_compute. exact I.
  - reflexivity.
Defined.

(** X25. In every state that the operations of the service reach, a cached
    document bears the path of its entry, the title that [extractTitle]
    gives for its content and that path, and a content of at least ten
    characters once trimmed. *)
Theorem cached_documents_are_pages `{RegExp.Engine}
    (extractTitle : jsstring → jsstring → jsstring)
    (st : Store.State) (p : jsstring) (r : Store.ref) :
  Store.reachable extractTitle st →
  Store.documentCache st !! p = Some r →
  ∃ d,
    Store.heap st !! r = Some (Store.Document d)
    ∧ Knowledge.path d = p
    ∧ Knowledge.title d = extractTitle (Knowledge.content d) p
    ∧ 10 ≤ length (Str.trim (Knowledge.content d)).
Proof.
  intros Hreach Hcached.
  apply (CorpusFacts.reachable_cache_holds extractTitle
           (λ p d, Knowledge.path d = p
                   ∧ Knowledge.title d = extractTitle (Knowledge.content d) p
                   ∧ 10 ≤ length (Str.trim (Knowledge.content d))))
    in Hreach; [|done].
  exact (Hreach p r Hcached).
Qed.

Lemma cached_documents_are_pages_witness :
  ∃ d,
    Store.heap after_first_search !! 1 = Some (Store.Document d)
    ∧ Knowledge.path d = str "guides/light.MD"
    ∧ Knowledge.title d
      = title_of_path (Knowledge.content d) (str "guides/light.MD")
    ∧ 10 ≤ length (Str.trim (Knowledge.content d)).
Proof.
  apply (cached_documents_are_pages (H := RegExp.strict) title_of_path
           after_first_search (str "guides/light.MD") 1).
  - apply Store.reachable_run, Store.reachable_initial.
  - vm_compute. reflexivity.
Defined.

(** ** Titles *)

Example extractTitle_ex :
  Title.extractTitle
    (str "---" ++ [Str.newline] ++ str "# Moss Care " ++ [Str.newline]
     ++ str "name: other") (str "guides/care.md") = str "Moss Care"
  ∧ Title.extractTitle
      (str "id: 7" ++ [Str.newline] ++ str "name:  'Moss Wall'  "
       ++ [Str.newline] ++ str "kind: wall") (str "walls/w7.yaml")
    = str "Moss Wall"
  ∧ Title.extractTitle (str "## Watering" ++ [Str.newline] ++ str "weekly")
      (str "guides/moss-care_2nd-ed.final.md") = str "Moss Care_2nd Ed.Final"
  ∧ Title.extractTitle (str "name:" ++ [Str.newline] ++ str "  moss")
      (str "a.yml") = str "moss"
  ∧ Title.extractTitle (str "#" ++ [Str.newline] ++ str "moss") (str "a.md")
    = str "moss".
Proof. repeat split; vm_compute; reflexivity. Qed.

Example basename_ex :
  PathName.basename (str "guides/care.md") (str ".md") = str "care"
  ∧ PathName.basename (str "guides/care.md/") (str ".md") = str "care"
  ∧ PathName.basename (str ".md") (str ".md") = []
  ∧ PathName.basename (str "a/md/") (str ".md") = str "md/"
  ∧ PathName.basename (str "a/x.md") (str "md") = str "x."
  ∧ PathName.extname (str "a.b/.profile") = []
  ∧ PathName.extname (str "a.b/c.tar.gz/") = str ".gz"
  ∧ PathName.extname (str "a/..") = [].
Proof. repeat split; vm_compute; reflexivity. Qed.

Module PatternFacts.
Import Pattern.

Section parts.
Context {A : Type}.

(** *** Greedy repetition *)

Lemma star_run (class : ascii → bool) (k : jsstring → option A)
    (run s : jsstring) (r : A) :
  Forall (λ c, class c = true) run →
  star class k s = Some r → star class k (run ++ s) = Some r.
Proof.
  intros Hrun Hs. induction Hrun as [|c run Hc _ IH]; [done|].
  simpl. by rewrite Hc, IH.
Qed.

Lemma star_stop (class : ascii → bool) (k : jsstring → option A)
    (s : jsstring) :
  match s with c :: _ => class c = false | [] => True end →
  star class k s = k s.
Proof. destruct s as [|c s]; [done|]. simpl. by intros ->. Qed.

(** A continuation with one possible result. *)
Lemma star_result (class : ascii → bool) (k : jsstring → option A) (r : A) :
  (∀ s, k s = None ∨ k s = Some r) →
  ∀ s, star class k s = None ∨ star class k s = Some r.
Proof.
  intros Hk. induction s as [|c s IH]; simpl; [apply Hk|].
  destruct (class c); [|apply Hk].
  destruct IH as [-> | ->]; [apply Hk | by right].
Qed.

Lemma star_same (class : ascii → bool) (k : jsstring → option A) (r : A)
    (s : jsstring) :
  (∀ s, k s = None ∨ k s = Some r) →
  k s = Some r → star class k s = Some r.
Proof.
  intros Hk Hs. destruct s as [|c s]; simpl; [done|].
  destruct (class c); [|done].
  by destruct (star_result class k r Hk s) as [-> | ->].
Qed.

Lemma optional_same (class : ascii → bool) (k : jsstring → option A) (r : A)
    (s : jsstring) :
  (∀ s, k s = None ∨ k s = Some r) →
  k s = Some r → optional class k s = Some r.
Proof.
  intros Hk Hs. destruct s as [|c s]; simpl; [done|].
  destruct (class c); [|done].
  by destruct (Hk s) as [-> | ->].
Qed.

Lemma optional_stop (class : ascii → bool) (k : jsstring → option A)
    (s : jsstring) :
  match s with c :: _ => class c = false | [] => True end →
  optional class k s = k s.
Proof. destruct s as [|c s]; [done|]. simpl. by intros ->. Qed.

(** Behind a run without a line terminator that does not end with white
    space, no end of line is reached over white space. *)
Lemma star_line_end_blocked (k : jsstring → option A)
    (run : jsstring) (l : ascii) (s : jsstring) :
  Forall (λ c, RegExp.is_line_terminator c = false) (run ++ [l]) →
  is_space l = false →
  star is_space (line_end k) (run ++ l :: s) = None.
Proof.
  intros Hrun Hl. induction run as [|c run IH]; simpl.
  - rewrite Hl. simpl. apply Forall_inv in Hrun. simpl in Hrun.
    by rewrite Hrun.
  - pose proof (Forall_inv Hrun) as Hc. cbn beta in Hc.
    rewrite IH by (by eapply Forall_inv_tail).
    rewrite Hc. by destruct (is_space c).
Qed.

(** *** Groups *)

Lemma group_star_run (class : ascii → bool)
    (k : jsstring → jsstring → option A) (run s : jsstring) (r : A) :
  Forall (λ c, class c = true) run →
  match s with c :: _ => class c = false | [] => True end →
  ∀ captured,
    k (rev captured ++ run) s = Some r →
    group_star class k captured (run ++ s) = Some r.
Proof.
  intros Hrun Hs. induction Hrun as [|c run Hc _ IH]; intros captured Hk.
  - rewrite app_nil_r in Hk. destruct s as [|c s]; simpl; [done|].
    by rewrite Hs.
  - simpl. rewrite Hc, (IH (c :: captured)); [done|].
    simpl. by rewrite <- app_assoc.
Qed.

Lemma group_lazy_star_first (class : ascii → bool)
    (k : jsstring → jsstring → option A) (run s : jsstring) (r : A) :
  Forall (λ c, class c = true) run →
  ∀ captured,
    (∀ t1 t2, run = t1 ++ t2 → t2 ≠ [] →
       k (rev captured ++ t1) (t2 ++ s) = None) →
    k (rev captured ++ run) s = Some r →
    group_lazy_star class k captured (run ++ s) = Some r.
Proof.
  induction 1 as [|c run Hc _ IH]; intros captured Hshort Hk.
  - rewrite app_nil_r in Hk. destruct s; simpl; by rewrite Hk.
  - pose proof (Hshort [] (c :: run) eq_refl) as Hnone.
    rewrite app_nil_r in Hnone. specialize (Hnone ltac:(done)).
    cbn [app] in *. cbn [group_lazy_star].
    rewrite Hnone, Hc. apply IH.
    + intros t1 t2 -> Ht2. simpl. rewrite <- app_assoc.
      by apply (Hshort (c :: t1) t2).
    + simpl. by rewrite <- app_assoc.
Qed.

(** *** The search *)

Lemma search_skip (pattern : jsstring → option A) (before s : jsstring) :
  (∀ b1 b2, before = b1 ++ b2 → b2 ≠ [] → pattern (b2 ++ s) = None) →
  ∀ line_start,
    search pattern line_start (before ++ s)
    = search pattern
        (match last before with
         | Some c => RegExp.is_line_terminator c
         | None => line_start
         end) s.
Proof.
  induction before as [|c before IH]; intros Hnone line_start; [done|].
  pose proof (Hnone [] (c :: before) eq_refl ltac:(done)) as Hhere.
  cbn [app] in *. cbn [search]. rewrite Hhere.
  assert ((if line_start then @None A else None) = None) as ->
    by (by destruct line_start).
  rewrite IH.
  - destruct before as [|d before]; [done|].
    change (last (c :: d :: before)) with (last (d :: before)).
    destruct (last (d :: before)) eqn:Hlast; [done|].
    by apply last_None in Hlast.
  - intros b1 b2 -> Hb2. by apply (Hnone (c :: b1) b2).
Qed.

Lemma search_none (pattern : jsstring → option A) (s : jsstring) :
  (∀ b1 b2, s = b1 ++ b2 → pattern b2 = None) →
  ∀ line_start, search pattern line_start s = None.
Proof.
  induction s as [|c s IH]; intros Hnone line_start; simpl.
  - rewrite (Hnone [] []) by done. by destruct line_start.
  - rewrite (Hnone [] (c :: s)) by done.
    assert ((if line_start then @None A else None) = None) as ->
      by (by destruct line_start).
    apply IH. intros b1 b2 ->. by apply (Hnone (c :: b1) b2).
Qed.

Lemma search_here (pattern : jsstring → option A) (s : jsstring) (r : A) :
  pattern s = Some r → search pattern true s = Some r.
Proof. intros Hs. destruct s; simpl; by rewrite Hs. Qed.

End parts.

End PatternFacts.

Module TitleFacts.
Import Pattern PatternFacts Title PathName.

(** *** Trimming *)

Lemma drop_while_stop {A} (p : A → bool) (s : list A) :
  (∀ c, head s = Some c → p c = false) → Str.drop_while p s = s.
Proof.
  destruct s as [|c s]; [done|]. simpl. intros Hc. by rewrite (Hc c).
Qed.

Lemma head_rev {A} (s : list A) : head (rev s) = last s.
Proof.
  destruct s as [|c s] using rev_ind; [done|].
  by rewrite rev_unit, last_snoc.
Qed.

Lemma trim_tight (t : jsstring) :
  (∀ c, head t = Some c → is_space c = false) →
  (∀ c, last t = Some c → is_space c = false) →
  Str.trim t = t.
Proof.
  intros Hhead Hlast. unfold Str.trim.
  rewrite (drop_while_stop is_space t Hhead).
  rewrite drop_while_stop; [apply rev_involutive|].
  intros c Hc. rewrite head_rev in Hc. by apply Hlast.
Qed.

(** *** Characters *)

Lemma terminator_not_quote (c : ascii) :
  RegExp.is_line_terminator c = true → is_quote c = false.
Proof. by destruct c as [[] [] [] [] [] [] [] []]. Qed.

Lemma quote_not_space (c : ascii) : is_quote c = true → is_space c = false.
Proof. by destruct c as [[] [] [] [] [] [] [] []]. Qed.

Lemma space_not_quote (c : ascii) : is_space c = true → is_quote c = false.
Proof. by destruct c as [[] [] [] [] [] [] [] []]. Qed.

Lemma terminator_is_space (c : ascii) :
  RegExp.is_line_terminator c = true → is_space c = true.
Proof. by destruct c as [[] [] [] [] [] [] [] []]. Qed.

(** *** A text at the start of a string *)

Lemma startsWith_cases (b s t : jsstring) :
  Str.startsWith (b ++ s) t = true →
  (∃ b', b = t ++ b') ∨ (∃ t', t = b ++ t' ∧ t' ≠ []).
Proof.
  revert b. induction t as [|a t IH]; intros b Hb.
  - left. by exists b.
  - destruct b as [|c b].
    + right. by exists (a :: t).
    + simpl in Hb. apply andb_prop in Hb as [Hc Hb].
      apply Ascii.eqb_eq in Hc. subst c.
      destruct (IH b Hb) as [[b' ->] | (t' & -> & Ht')].
      * left. by exists b'.
      * right. by exists t'.
Qed.

Lemma startsWith_elem (s t : jsstring) (c : ascii) :
  Str.startsWith s (c :: t) = true → c ∈ s.
Proof.
  destruct s as [|d s]; [done|]. simpl.
  intros [->%Ascii.eqb_eq _]%andb_prop. by left.
Qed.

(** Before the line of the name, the pattern of the name does not
    match. *)
Lemma name_not_before (before b1 b2 s : jsstring) :
  before = b1 ++ b2 → b2 ≠ [] →
  Str.includes before (str "name:") = false →
  (∀ c, last before = Some c → RegExp.is_line_terminator c = true) →
  Str.startsWith (b2 ++ s) (str "name:") = false.
Proof.
  intros -> Hb2 Hnone Hlast.
  destruct (Str.startsWith (b2 ++ s) (str "name:")) eqn:Hstarts; [|done].
  exfalso. apply startsWith_cases in Hstarts as [[b' ->] | (t' & Ht & Ht')].
  - by rewrite PathFacts.includes_part in Hnone.
  - destruct b2 as [|c b2] using rev_ind; [done|]. clear IHb2.
    rewrite app_assoc, last_snoc in Hlast. specialize (Hlast c eq_refl).
    assert (c ∈ str "name") as Hc.
    { assert (c ∈ b2 ++ [c]) as Hin by (apply elem_of_app; right; by left).
      change (str "name:") with (str "name" ++ [":"%char]) in Ht.
      destruct t' as [|d t'] using rev_ind; [done|]. clear IHt'.
      rewrite app_assoc in Ht. apply app_inj_tail in Ht as [Ht _].
      rewrite Ht. apply elem_of_app. by left. }
    vm_compute in Hc.
    repeat (apply elem_of_cons in Hc as [-> | Hc]; [done|]).
    by apply not_elem_of_nil in Hc.
Qed.

(** *** The file name *)

Lemma split_on_go_none (sep : ascii) (cur s : jsstring) :
  sep ∉ s → Str.split_on_go sep cur s = [rev cur ++ s].
Proof.
  revert cur. induction s as [|c s IH]; intros cur Hs; simpl.
  - by rewrite app_nil_r.
  - apply not_elem_of_cons in Hs as [Hc Hs].
    destruct (Ascii.eqb c sep) eqn:Heq.
    + apply Ascii.eqb_eq in Heq. congruence.
    + rewrite IH by done. simpl. by rewrite <- app_assoc.
Qed.

Lemma last_segment_file (dir file : jsstring) :
  (dir = [] ∨ ∃ d, dir = d ++ [Path.sep]) →
  file ≠ [] → Path.sep ∉ file →
  last_segment (dir ++ file) = file.
Proof.
  intros Hdir Hfile Hsep. unfold last_segment.
  rewrite drop_while_stop.
  - rewrite rev_involutive. destruct Hdir as [-> | [d ->]].
    + simpl. unfold Str.split_on. by rewrite split_on_go_none.
    + rewrite <- app_assoc. simpl. unfold Str.split_on.
      rewrite PathFacts.split_on_go_app. unfold Str.split_on.
      rewrite (split_on_go_none Path.sep [] file) by done.
      simpl. by rewrite last_snoc.
  - intros c Hc. rewrite head_rev in Hc.
    destruct file as [|l file] using rev_ind; [done|].
    rewrite app_assoc, last_snoc in Hc. injection Hc as <-.
    unfold is_sep. destruct (Ascii.eqb l Path.sep) eqn:Heq; [|done].
    apply Ascii.eqb_eq in Heq. subst l. exfalso. apply Hsep.
    apply elem_of_app. right. by left.
Qed.

Lemma last_dot_bound (name : jsstring) (i : nat) (found : option nat)
    (j : nat) :
  Store.last_dot i name found = Some j →
  found = Some j ∨ (i ≤ j < i + length name).
Proof.
  revert i found. induction name as [|c name IH]; intros i found; simpl.
  - by left.
  - intros [Hfound | Hj]%IH; [|right; lia].
    destruct (Ascii.eqb c "."); [|by left].
    injection Hfound as <-. right. lia.
Qed.

(** The extension is empty, or a part of the file name behind a first
    part that is not empty. *)
Lemma extname_suffix (file : jsstring) :
  Store.extname file = []
  ∨ ∃ stem, stem ≠ [] ∧ Store.extname file ≠ []
            ∧ file = stem ++ Store.extname file.
Proof.
  unfold Store.extname. destruct (bool_decide _); [by left|].
  destruct (Store.last_dot 0 file None) as [[|i]|] eqn:Hdot;
    [by left | | by left].
  apply last_dot_bound in Hdot as [? | Hi]; [done|]. right.
  exists (take (S i) file). split; [|split].
  - intros Hnil. apply (f_equal length) in Hnil.
    rewrite length_take in Hnil. change (@length ascii []) with 0 in Hnil.
    lia.
  - intros Hnil. apply (f_equal length) in Hnil.
    rewrite length_drop in Hnil. change (@length ascii []) with 0 in Hnil.
    lia.
  - by rewrite take_drop.
Qed.

Lemma basename_file (dir file : jsstring) :
  (dir = [] ∨ ∃ d, dir = d ++ [Path.sep]) →
  file ≠ [] → Path.sep ∉ file →
  basename (dir ++ file) (extname (dir ++ file))
  = take (length file - length (Store.extname file)) file.
Proof.
  intros Hdir Hfile Hsep. unfold basename, extname.
  rewrite last_segment_file by done.
  destruct (extname_suffix file) as [-> | (stem & Hstem & Hext & Hsplit)].
  { simpl. by rewrite Nat.sub_0_r, firstn_all. }
  set (ext := Store.extname file) in *.
  assert (length file = length stem + length ext) as Hlen
    by (by rewrite Hsplit at 1; rewrite length_app).
  assert (0 < length stem) by (destruct stem; [done | simpl; lia]).
  rewrite bool_decide_eq_false_2 by done.
  destruct (Nat.ltb_spec (length (dir ++ file)) (length ext)) as [Hlt|_].
  { rewrite length_app in Hlt. lia. }
  rewrite bool_decide_eq_false_2.
  2: { intros Heq. apply (f_equal length) in Heq.
       rewrite length_app in Heq. lia. }
  destruct (Nat.ltb_spec (length file) (length ext)) as [Hlt|_]; [lia|].
  cbn [orb andb].
  assert (endsWith file ext = true) as ->.
  { unfold endsWith. rewrite Hsplit at 1. rewrite rev_app_distr.
    apply PathFacts.startsWith_app. }
  rewrite bool_decide_eq_false_2; [done|].
  intros Heq. apply (f_equal length) in Heq. lia.
Qed.

End TitleFacts.

(** X18. A line that starts with [#] and white space gives the title: when no
    [#] precedes that line, the title is the text that follows the white
    space up to the end of its line, trimmed, whatever the rest of the
    content and the path of the file. The white space may hold line
    breaks. *)
Theorem extractTitle_first_heading
    (before ws text after filePath : jsstring) :
  "#"%char ∉ before →
  (∀ c, last before = Some c → RegExp.is_line_terminator c = true) →
  ws ≠ [] →
  Forall (λ c, is_space c = true) ws →
  (∃ c, head text = Some c ∧ is_space c = false) →
  Forall (λ c, RegExp.is_line_terminator c = false) text →
  (∀ c, head after = Some c → RegExp.is_line_terminator c = true) →
  Title.extractTitle (before ++ str "#" ++ ws ++ text ++ after) filePath
  = Str.trim text.
Proof.
  intros Hbefore Hstart Hws Hspace (first & Hfirst & Hnospace) Htext Hafter.
  unfold Title.extractTitle.
  assert (Title.headingMatch (before ++ str "#" ++ ws ++ text ++ after)
          = Some text) as ->; [|done].
  unfold Title.headingMatch. rewrite PatternFacts.search_skip.
  2: { intros b1 b2 -> Hb2. destruct b2 as [|c b2]; [done|].
       unfold Pattern.text. change (str "#") with ["#"%char].
       cbn [app Str.startsWith].
       destruct (Ascii.eqb "#" c) eqn:Hc; [|done].
       apply Ascii.eqb_eq in Hc. subst c. exfalso. apply Hbefore.
       apply elem_of_app. right. by left. }
  assert (match last before with
          | Some c => RegExp.is_line_terminator c
          | None => true
          end = true) as ->.
  { destruct (last before) as [c|]; [by apply Hstart | done]. }
  apply PatternFacts.search_here. unfold Pattern.text.
  rewrite (PathFacts.startsWith_app (str "#")).
  change (drop (length (str "#")) (str "#" ++ ws ++ text ++ after))
    with (ws ++ text ++ after).
  destruct ws as [|w ws]; [done|]. apply Forall_cons in Hspace as [Hw Hspace].
  cbn [app Pattern.plus]. rewrite Hw.
  apply PatternFacts.star_run; [done|].
  destruct text as [|c text]; [done|]. injection Hfirst as ->.
  rewrite PatternFacts.star_stop by done.
  apply Forall_cons in Htext as [Hc Htext].
  cbn [app Pattern.group_plus]. unfold Pattern.not_terminator at 1.
  rewrite Hc. cbn [negb].
  apply PatternFacts.group_star_run.
  - eapply Forall_impl; [exact Htext|]. intros d Hd.
    unfold Pattern.not_terminator. by rewrite Hd.
  - destruct after as [|a after]; [done|].
    unfold Pattern.not_terminator. by rewrite (Hafter a).
  - simpl. destruct after as [|a after]; [done|]. simpl.
    by rewrite (Hafter a).
Qed.

Lemma extractTitle_first_heading_witness :
  Title.extractTitle
    (str "---" ++ [Str.newline] ++ str "#" ++ str "  " ++ str "Moss Care  "
     ++ ([Str.newline] ++ str "name: other"))
    (str "guides/care.md")
  = Str.trim (str "Moss Care  ").
Proof.
  rewrite (app_assoc (str "---")).
  apply (extractTitle_first_heading (str "---" ++ [Str.newline]) (str "  ")
           (str "Moss Care  ") ([Str.newline] ++ str "name: other")
           (str "guides/care.md")).
  - vm_compute. intros Hin.
    repeat (apply elem_of_cons in Hin as [Hin | Hin]; [discriminate|]).
    by apply not_elem_of_nil in Hin.
  - intros c [= <-]. reflexivity.
  - discriminate.
  - repeat constructor.
  - eexists. split; reflexivity.
  - repeat constructor.
  - intros c [= <-]. reflexivity.
Defined.

(** X19. Without a heading, a line that starts with [name:] gives the title:
    when the content holds no [#] and no [name:] precedes that line, the
    title is the value that follows [name:] and white space, between
    quotes or not, up to the white space at the end of its line, when the
    value neither starts nor ends with white space and holds no quote. *)
Theorem extractTitle_yaml_name
    (content before ws opening value closing trail after filePath : jsstring) :
  content
  = before ++ str "name:" ++ ws ++ opening ++ value ++ closing ++ trail
    ++ after →
  "#"%char ∉ content →
  Str.includes before (str "name:") = false →
  (∀ c, last before = Some c → RegExp.is_line_terminator c = true) →
  Forall (λ c, is_space c = true) ws →
  Forall (λ c, is_space c = true) trail →
  (opening = [] ∨ ∃ q, opening = [q] ∧ Title.is_quote q = true) →
  (closing = [] ∨ ∃ q, closing = [q] ∧ Title.is_quote q = true) →
  Forall (λ c, RegExp.is_line_terminator c = false ∧ Title.is_quote c = false)
    value →
  (∃ c, head value = Some c ∧ is_space c = false) →
  (∃ c, last value = Some c ∧ is_space c = false) →
  (∀ c, head after = Some c → RegExp.is_line_terminator c = true) →
  Title.extractTitle content filePath = value.
Proof.
  intros -> Hhash Hbefore Hstart Hws Htrail Hopening Hclosing Hvalue
    (first & Hfirst & Hfirst_space) (final & Hfinal & Hfinal_space) Hafter.
  unfold Title.extractTitle.
  assert (Title.headingMatch
            (before ++ str "name:" ++ ws ++ opening ++ value ++ closing
             ++ trail ++ after) = None) as ->.
  { apply PatternFacts.search_none. intros b1 b2 Hsplit.
    unfold Pattern.text.
    destruct (Str.startsWith b2 (str "#")) eqn:Hb2; [|done].
    apply TitleFacts.startsWith_elem in Hb2. exfalso. apply Hhash.
    rewrite Hsplit. apply elem_of_app. by right. }
  assert (Title.yamlMatch
            (before ++ str "name:" ++ ws ++ opening ++ value ++ closing
             ++ trail ++ after) = Some value) as ->.
  2: { apply TitleFacts.trim_tight.
       - intros c Hc. congruence.
       - intros c Hc. congruence. }
  unfold Title.yamlMatch. rewrite PatternFacts.search_skip.
  2: { intros b1 b2 Hsplit Hb2. unfold Pattern.text.
       by rewrite (TitleFacts.name_not_before before b1 b2). }
  assert (match last before with
          | Some c => RegExp.is_line_terminator c
          | None => true
          end = true) as ->.
  { destruct (last before) as [c|]; [by apply Hstart | done]. }
  apply PatternFacts.search_here. unfold Pattern.text.
  rewrite (PathFacts.startsWith_app (str "name:")).
  change (drop (length (str "name:")) (str "name:" ++ ?s)) with s.
  (* the end of the pattern, behind the value *)
  set (tail := λ group : jsstring,
         Pattern.optional Title.is_quote
           (Pattern.star is_space (Pattern.line_end (λ _, Some group)))).
  assert (∀ group s : jsstring,
            Pattern.line_end (λ _ : jsstring, Some group) s = None
            ∨ Pattern.line_end (λ _ : jsstring, Some group) s = Some group)
    as Hend.
  { intros group [|c s]; simpl; [by right|].
    destruct (RegExp.is_line_terminator c); [by right | by left]. }
  assert (Pattern.star is_space
            (Pattern.line_end (λ _ : jsstring, Some value)) (trail ++ after)
          = Some value) as Hrest.
  { apply PatternFacts.star_run; [done|].
    apply PatternFacts.star_same; [apply Hend|].
    destruct after as [|a after]; [done|]. simpl. by rewrite (Hafter a). }
  assert (tail value (closing ++ trail ++ after) = Some value) as Htail.
  { unfold tail. destruct Hclosing as [-> | (q & -> & Hq)].
    - rewrite PatternFacts.optional_stop; [done|].
      destruct Htrail as [|c trail Hc _]; simpl.
      + destruct after as [|a after]; [done|].
        by apply TitleFacts.terminator_not_quote, Hafter.
      + by apply TitleFacts.space_not_quote.
    - simpl. by rewrite Hq, Hrest. }
  (* the value is the shortest group behind which the end matches *)
  destruct value as [|v value]; [done|]. injection Hfirst as ->.
  apply Forall_cons in Hvalue as [[Hv_line Hv_quote] Hvalue].
  assert (Pattern.group_lazy_plus Pattern.not_terminator tail
            ((first :: value) ++ closing ++ trail ++ after)
          = Some (first :: value)) as Hgroup.
  { cbn [app Pattern.group_lazy_plus]. unfold Pattern.not_terminator at 1.
    rewrite Hv_line. cbn [negb].
    apply PatternFacts.group_lazy_star_first.
    - eapply Forall_impl; [exact Hvalue|]. intros c [Hc _].
      unfold Pattern.not_terminator. by rewrite Hc.
    - intros t1 t2 -> Ht2. unfold tail.
      destruct t2 as [|l t2] using rev_ind; [done|]. clear IHt2.
      rewrite app_comm_cons, !app_assoc, last_snoc in Hfinal.
      injection Hfinal as ->.
      apply Forall_app in Hvalue as [_ Hvalue].
      rewrite PatternFacts.optional_stop.
      + rewrite <- app_assoc. apply PatternFacts.star_line_end_blocked.
        * eapply Forall_impl; [exact Hvalue|]. by intros c [Hc _].
        * done.
      + destruct t2 as [|c t2]; simpl.
        * apply Forall_inv in Hvalue. tauto.
        * apply Forall_inv in Hvalue. tauto.
    - exact Htail. }
  apply PatternFacts.star_run; [done|].
  destruct Hopening as [-> | (q & -> & Hq)].
  - rewrite PatternFacts.star_stop by done.
    by rewrite PatternFacts.optional_stop.
  - rewrite PatternFacts.star_stop
      by (by apply TitleFacts.quote_not_space).
    cbn [app] in Hgroup. cbn [app Pattern.optional].
    by rewrite Hq, Hgroup.
Qed.

Lemma extractTitle_yaml_name_witness :
  Title.extractTitle
    (str "id: 7" ++ [Str.newline] ++ str "name:  'Moss Wall'  "
     ++ [Str.newline] ++ str "kind: wall") (str "walls/w7.yaml")
  = str "Moss Wall".
Proof.
  apply (extractTitle_yaml_name _ (str "id: 7" ++ [Str.newline]) (str "  ")
           (str "'") (str "Moss Wall") (str "'") (str "  ")
           ([Str.newline] ++ str "kind: wall") (str "walls/w7.yaml")).
  - reflexivity.
  - vm_compute. intros Hin.
    repeat (apply elem_of_cons in Hin as [Hin | Hin]; [discriminate|]).
    by apply not_elem_of_nil in Hin.
  - reflexivity.
  - intros c [= <-]. reflexivity.
  - repeat constructor.
  - repeat constructor.
  - right. eexists. split; reflexivity.
  - right. eexists. split; reflexivity.
  - repeat constructor.
  - eexists. split; reflexivity.
  - eexists. split; reflexivity.
  - intros c [= <-]. reflexivity.
Defined.

(** X20. Without a heading and without a name, the title comes from the name
    of the file: when the content holds no [#] and no [name:], the title
    is the last segment of the path without its extension, with a space
    for every hyphen and the first character of every word in upper
    case. *)
Theorem extractTitle_falls_back_to_file_name
    (content dir file : jsstring) :
  "#"%char ∉ content →
  Str.includes content (str "name:") = false →
  (dir = [] ∨ ∃ d, dir = d ++ [Path.sep]) →
  file ≠ [] →
  Path.sep ∉ file →
  Title.extractTitle content (dir ++ file)
  = Title.capitalized false
      (Title.spaced
         (take (length file - length (Store.extname file)) file)).
Proof.
  intros Hhash Hname Hdir Hfile Hsep. unfold Title.extractTitle.
  assert (Title.headingMatch content = None) as ->.
  { apply PatternFacts.search_none. intros b1 b2 Hsplit.
    unfold Pattern.text.
    destruct (Str.startsWith b2 (str "#")) eqn:Hb2; [|done].
    apply TitleFacts.startsWith_elem in Hb2. exfalso. apply Hhash.
    rewrite Hsplit. apply elem_of_app. by right. }
  assert (Title.yamlMatch content = None) as ->.
  { apply PatternFacts.search_none. intros b1 b2 Hsplit.
    unfold Pattern.text.
    destruct (Str.startsWith b2 (str "name:")) eqn:Hb2; [|done].
    exfalso.
    destruct (TitleFacts.startsWith_cases b2 [] (str "name:"))
      as [[b' ->] | (t' & Ht & Ht')].
    - by rewrite app_nil_r.
    - rewrite Hsplit in Hname.
      rewrite <- (app_nil_r b') in Hname.
      by rewrite PathFacts.includes_part in Hname.
    - rewrite Ht in Hb2.
      clear -Hb2 Ht'. induction b2 as [|c b2 IH]; simpl in Hb2.
      + by destruct t'.
      + apply andb_prop in Hb2 as [_ Hb2]. by apply IH. }
  by rewrite TitleFacts.basename_file.
Qed.

Lemma extractTitle_falls_back_to_file_name_witness :
  Title.extractTitle (str "Water the moss wall weekly.")
    (str "guides/" ++ str "moss-wall_care.v2.md")
  = str "Moss Wall_care.V2".
Proof.
  refine (eq_trans
            (extractTitle_falls_back_to_file_name
               (str "Water the moss wall weekly.") (str "guides/")
               (str "moss-wall_care.v2.md") _ _ _ _ _) _).
  - vm_compute. intros Hin.
    repeat (apply elem_of_cons in Hin as [Hin | Hin]; [discriminate|]).
    by apply not_elem_of_nil in Hin.
  - reflexivity.
  - right. by exists (str "guides").
  - discriminate.
  - vm_compute. intros Hin.
    repeat (apply elem_of_cons in Hin as [Hin | Hin]; [discriminate|]).
    by apply not_elem_of_nil in Hin.
  - reflexivity.
Defined.

(** ** The Copilot service *)

Module LifecycleFacts.
Import CopilotService Lifecycle LifecycleInv.

Lemma initialize_cases (sdk : CopilotService.Sdk) (st : State) :
  ((initialize sdk st).1 = Ok ()
   ∧ isInitialized (initialize sdk st).2 = true
   ∧ (isInitialized st = true ∧ (initialize sdk st).2 = st
      ∨ isInitialized st = false ∧ client (initialize sdk st).2 ≠ None))
  ∨ ((initialize sdk st).1 = Throw initialize_failed
     ∧ isInitialized st = false
     ∧ isInitialized (initialize sdk st).2 = false).
Proof.
  unfold initialize. destruct (isInitialized st) eqn:Hinit.
  { left. simpl. repeat split; try done. by left. }
  destruct (new_CopilotClient sdk) as [c|e]; [|by right].
  destruct (client_start sdk) as [[]|e]; [|by right].
  left. simpl. repeat split; try done. by right.
Qed.

Lemma initialize_consistent (sdk : CopilotService.Sdk) (st : State) :
  consistent st → consistent (initialize sdk st).2.
Proof.
  intros Hst.
  destruct (initialize_cases sdk st)
    as [(_ & _ & [[_ ->] | [_ Hclient]]) | (_ & _ & Hinit)].
  - done.
  - by intros _.
  - intros Habs. congruence.
Qed.

(** What the start of a method leaves: a service that is initialised and
    has a client, or the error of [initialize]. *)
Lemma started_cases (sdk : CopilotService.Sdk) (st : State) :
  consistent st →
  ((started sdk st).1 = Ok ()
   ∧ isInitialized (started sdk st).2 = true
   ∧ client (started sdk st).2 ≠ None)
  ∨ ((started sdk st).1 = Throw initialize_failed
     ∧ isInitialized st = false
     ∧ isInitialized (started sdk st).2 = false).
Proof.
  intros Hst. unfold started.
  destruct (bool_decide (client st = None)) eqn:Hclient; simpl.
  - destruct (initialize_cases sdk st)
      as [(Hok & Hinit & [[Hwas ->] | [_ Hnew]]) | Hfailed].
    + left. auto.
    + left. auto.
    + by right.
  - apply bool_decide_eq_false in Hclient.
    destruct (isInitialized st) eqn:Hinit; simpl.
    + left. auto.
    + destruct (initialize_cases sdk st)
        as [(Hok & Hinit' & [[Hwas _] | [_ Hnew]]) | Hfailed].
      * congruence.
      * left. auto.
      * right. destruct Hfailed as (? & ? & ?). auto.
Qed.

Lemma started_consistent (sdk : CopilotService.Sdk) (st : State) :
  consistent st → consistent (started sdk st).2.
Proof.
  intros Hst. destruct (started_cases sdk st Hst)
    as [(_ & _ & Hclient) | (_ & _ & Hinit)].
  - by intros _.
  - intros Habs. congruence.
Qed.

Lemma getResponse_state (sdk : CopilotService.Sdk) (st : State)
    (prompt : jsstring) (context : option jsstring) :
  (getResponse sdk st prompt context).2 = (started sdk st).2.
Proof. unfold getResponse. by destruct (started sdk st). Qed.

Lemma streamResponse_state (sdk : CopilotService.Sdk) (st : State)
    (prompt : jsstring) (context : option jsstring)
    (onChunk : jsstring → exc unit) :
  (streamResponse sdk st prompt context onChunk).1.2 = (started sdk st).2.
Proof.
  unfold streamResponse. destruct (started sdk st) as [[[]|e] st1]; [|done].
  destruct (client st1); [|done].
  destruct (client_createSession sdk); [|done].
  destruct (session_sendAndWait sdk _); [|done].
  by destruct (truthy _).
Qed.

Lemma rank_state (sdk : CopilotService.Sdk) (st : State)
    (query : jsstring) (documents : list Summary) :
  (rankDocumentsByRelevance sdk st query documents).2 = (started sdk st).2.
Proof.
  unfold rankDocumentsByRelevance, rank_try, started.
  by destruct (if bool_decide (client st = None) || negb (isInitialized st)
               then initialize sdk st else (Ok (), st)).
Qed.

Lemma shutdown_consistent (sdk : Lifecycle.Sdk) (st : State) :
  consistent st → consistent (shutdown sdk st).2.
Proof.
  intros Hst. unfold shutdown.
  destruct (negb _ && _); [|done].
  destruct (client_stop sdk); [|done]. by intros Habs.
Qed.

Lemma run_consistent (sdk : Lifecycle.Sdk) (op : operation) (st : State) :
  consistent st → consistent (run sdk op st).
Proof.
  intros Hst. destruct op; simpl.
  - by apply initialize_consistent.
  - rewrite getResponse_state. by apply started_consistent.
  - rewrite streamResponse_state. by apply started_consistent.
  - rewrite rank_state. by apply started_consistent.
  - by apply shutdown_consistent.
Qed.

Lemma reachable_consistent (st : State) : reachable st → consistent st.
Proof.
  induction 1 as [|sdk op st _ IH]; [done|]. by apply run_consistent.
Qed.

Lemma truthy_content (s : option jsstring) :
  truthy s = true → default [] s ≠ [] ∧ s = Some (default [] s).
Proof. by destruct s as [[|c s]|]. Qed.

Lemma getResponse_cases (sdk : CopilotService.Sdk) (st : State)
    (prompt : jsstring) (context : option jsstring) :
  consistent st →
  match (getResponse sdk st prompt context).1 with
  | Ok answer =>
      answer ≠ []
      ∧ (answer = apology
         ∨ ∃ response,
             session_sendAndWait sdk (enhancedPrompt prompt context)
             = Ok response
             ∧ content_of response = Some answer)
  | Throw e =>
      e = initialize_failed ∨ e = str "Failed to get response from Copilot"
  end.
Proof.
  intros Hst. unfold getResponse.
  destruct (started_cases sdk st Hst)
    as [(Hok & _ & Hclient) | (Hfailed & _)];
    destruct (started sdk st) as [ready st1]; simpl in *; subst ready.
  2: { by left. }
  destruct (client st1); [|done].
  destruct (client_createSession sdk); simpl; [|by right].
  destruct (session_sendAndWait sdk _) as [response|e] eqn:Hsend;
    simpl; [|by right].
  destruct (truthy _) eqn:Hcontent; simpl.
  - apply truthy_content in Hcontent as [Hne Hsome].
    split; [done|]. right. by exists response.
  - split; [done|]. by left.
Qed.

(** A method starts exactly when the service is ready. *)
Lemma started_ready (sdk : CopilotService.Sdk) (st : State) :
  consistent st →
  (ready sdk st
   ∧ (started sdk st).1 = Ok () ∧ client (started sdk st).2 ≠ None)
  ∨ (¬ ready sdk st ∧ (started sdk st).1 = Throw initialize_failed).
Proof.
  intros Hst. unfold started, ready, starts.
  destruct (isInitialized st) eqn:Hinit.
  - rewrite bool_decide_eq_false_2 by (by apply Hst). simpl.
    left. split; [by left|]. split; [done | by apply Hst].
  - rewrite orb_true_r. unfold initialize. rewrite Hinit.
    destruct (new_CopilotClient sdk) as [c|e].
    + destruct (client_start sdk) as [[]|e]; simpl.
      * left. split; [right; eauto | done].
      * right. split; [|done]. intros [? | [_ ?]]; done.
    + right. split; [|done]. intros [? | [[c' ?] _]]; done.
Qed.

Lemma getResponse_ready (sdk : CopilotService.Sdk) (st : State)
    (prompt : jsstring) (context : option jsstring) :
  consistent st →
  (¬ ready sdk st
   ∧ (getResponse sdk st prompt context).1 = Throw initialize_failed)
  ∨ (ready sdk st
     ∧ (throws (client_createSession sdk)
        ∨ throws (session_sendAndWait sdk (enhancedPrompt prompt context)))
     ∧ (getResponse sdk st prompt context).1
       = Throw (str "Failed to get response from Copilot"))
  ∨ (ready sdk st
     ∧ client_createSession sdk = Ok ()
     ∧ ∃ response,
         session_sendAndWait sdk (enhancedPrompt prompt context) = Ok response
         ∧ ((∃ answer,
               content_of response = Some answer ∧ answer ≠ []
               ∧ (getResponse sdk st prompt context).1 = Ok answer)
            ∨ ((content_of response = None ∨ content_of response = Some [])
               ∧ (getResponse sdk st prompt context).1 = Ok apology))).
Proof.
  intros Hst. unfold getResponse.
  destruct (started_ready sdk st Hst)
    as [(Hready & Hok & Hclient) | (Hnot & Hfailed)];
    destruct (started sdk st) as [started st1]; simpl in *; subst started.
  2: { by left. }
  right. destruct (client st1); [|done].
  destruct (client_createSession sdk) as [[]|e]; simpl.
  2: { left. split; [done|]. split; [left; by exists e | done]. }
  destruct (session_sendAndWait sdk _) as [response|e] eqn:Hsend; simpl.
  2: { left. split; [done|]. split; [right; by exists e | done]. }
  right. split; [done|]. split; [done|]. exists response. split; [done|].
  destruct (content_of response) as [[|a answer]|]; simpl.
  - right. split; [by right | done].
  - left. by exists (a :: answer).
  - right. split; [by left | done].
Qed.

End LifecycleFacts.

(** X4. In every state that the methods of the service reach, a service that
    is marked as initialised has a client. *)
Theorem initialized_service_has_client (st : CopilotService.State) :
  Lifecycle.reachable st →
  CopilotService.isInitialized st = true →
  CopilotService.client st ≠ None.
Proof. apply LifecycleFacts.reachable_consistent. Qed.

Lemma initialized_service_has_client_witness :
  CopilotService.client
    (Lifecycle.run (sdk_live (str "0")) Lifecycle.Initialize
       CopilotService.fresh) ≠ None.
Proof.
  apply (initialized_service_has_client
           (Lifecycle.run (sdk_live (str "0")) Lifecycle.Initialize
              CopilotService.fresh)).
  - apply Lifecycle.reachable_call, Lifecycle.reachable_fresh.
  - reflexivity.
Defined.

(** X3. [initialize] succeeds and leaves the service initialised, so that a
    second call changes nothing, or it raises its one error and leaves the
    service not initialised, so that the next call tries again. *)
Theorem initialize_outcome (sdk : CopilotService.Sdk)
    (st : CopilotService.State) :
  ((CopilotService.initialize sdk st).1 = Ok ()
   ∧ CopilotService.isInitialized (CopilotService.initialize sdk st).2 = true
   ∧ ∀ sdk',
       CopilotService.initialize sdk' (CopilotService.initialize sdk st).2
       = (Ok (), (CopilotService.initialize sdk st).2))
  ∨ ((CopilotService.initialize sdk st).1
     = Throw LifecycleInv.initialize_failed
     ∧ CopilotService.isInitialized (CopilotService.initialize sdk st).2
       = false
     ∧ ∀ sdk',
         (CopilotService.initialize sdk' (CopilotService.initialize sdk st).2).1
         = (CopilotService.initialize sdk' st).1).
Proof.
  destruct (LifecycleFacts.initialize_cases sdk st)
    as [(Hok & Hinit & _) | (Hfailed & Hwas & Hinit)].
  - left. repeat split; try done. intros sdk'.
    unfold CopilotService.initialize at 1. by rewrite Hinit.
  - right. repeat split; try done. intros sdk'.
    unfold CopilotService.initialize at 1 3. rewrite Hinit, Hwas.
    destruct (CopilotService.new_CopilotClient sdk'); [|done].
    by destruct (CopilotService.client_start sdk').
Qed.

(** X5. In every state that the methods of the service reach, the outcome
    of [getResponse] is one of four, each under its own condition. When
    the service is not initialised and the client cannot be created or
    started, it raises the error of [initialize]. Otherwise, when the
    session cannot be opened or the request fails, it raises [Failed to get
    response from Copilot]. Otherwise it returns the content of the reply
    to the enhanced prompt when the reply has a content that is not empty,
    and the apology when the reply has no content or an empty one. An
    answer is never empty. *)
Theorem getResponse_outcome (sdk : CopilotService.Sdk)
    (st : CopilotService.State) (prompt : jsstring)
    (context : option jsstring) :
  Lifecycle.reachable st →
  ((¬ LifecycleInv.ready sdk st
    ∧ (Lifecycle.getResponse sdk st prompt context).1
      = Throw LifecycleInv.initialize_failed)
   ∨ (LifecycleInv.ready sdk st
      ∧ (throws (CopilotService.client_createSession sdk)
         ∨ throws (CopilotService.session_sendAndWait sdk
                     (Lifecycle.enhancedPrompt prompt context)))
      ∧ (Lifecycle.getResponse sdk st prompt context).1
        = Throw (str "Failed to get response from Copilot"))
   ∨ (LifecycleInv.ready sdk st
      ∧ CopilotService.client_createSession sdk = Ok ()
      ∧ ∃ response,
          CopilotService.session_sendAndWait sdk
            (Lifecycle.enhancedPrompt prompt context) = Ok response
          ∧ ((∃ answer,
                CopilotService.content_of response = Some answer
                ∧ answer ≠ []
                ∧ (Lifecycle.getResponse sdk st prompt context).1 = Ok answer)
             ∨ ((CopilotService.content_of response = None
                 ∨ CopilotService.content_of response = Some [])
                ∧ (Lifecycle.getResponse sdk st prompt context).1
                  = Ok Lifecycle.apology))))
  ∧ ∀ answer,
      (Lifecycle.getResponse sdk st prompt context).1 = Ok answer →
      answer ≠ [].
Proof.
  intros Hst%LifecycleFacts.reachable_consistent. split.
  - by apply LifecycleFacts.getResponse_ready.
  - intros answer Hanswer.
    pose proof (LifecycleFacts.getResponse_cases sdk st prompt context Hst)
      as Hcases.
    rewrite Hanswer in Hcases. by destruct Hcases.
Qed.

Lemma getResponse_outcome_witness :
  ((¬ LifecycleInv.ready sdk_silent started_service
    ∧ (Lifecycle.getResponse sdk_silent started_service
         (str "How do I water moss?") None).1
      = Throw LifecycleInv.initialize_failed)
   ∨ (LifecycleInv.ready sdk_silent started_service
      ∧ (throws (CopilotService.client_createSession sdk_silent)
         ∨ throws (CopilotService.session_sendAndWait sdk_silent
                     (Lifecycle.enhancedPrompt (str "How do I water moss?")
                        None)))
      ∧ (Lifecycle.getResponse sdk_silent started_service
           (str "How do I water moss?") None).1
        = Throw (str "Failed to get response from Copilot"))
   ∨ (LifecycleInv.ready sdk_silent started_service
      ∧ CopilotService.client_createSession sdk_silent = Ok ()
      ∧ ∃ response,
          CopilotService.session_sendAndWait sdk_silent
            (Lifecycle.enhancedPrompt (str "How do I water moss?") None)
          = Ok response
          ∧ ((∃ answer,
                CopilotService.content_of response = Some answer
                ∧ answer ≠ []
                ∧ (Lifecycle.getResponse sdk_silent started_service
                     (str "How do I water moss?") None).1 = Ok answer)
             ∨ ((CopilotService.content_of response = None
                 ∨ CopilotService.content_of response = Some [])
                ∧ (Lifecycle.getResponse sdk_silent started_service
                     (str "How do I water moss?") None).1
                  = Ok Lifecycle.apology))))
  ∧ ∀ answer,
      (Lifecycle.getResponse sdk_silent started_service
         (str "How do I water moss?") None).1 = Ok answer →
      answer ≠ [].
Proof.
  apply (getResponse_outcome sdk_silent started_service
           (str "How do I water moss?") None).
  exact (Lifecycle.reachable_call (sdk_live (str "0")) Lifecycle.Initialize
           CopilotService.fresh Lifecycle.reachable_fresh).
Defined.

(** The four outcomes, on a new service: an answer, the apology for a
    reply without content, and the two errors. *)
Example getResponse_ex :
  (Lifecycle.getResponse (sdk_replying (str "Mist it weekly."))
     CopilotService.fresh (str "How do I water moss?") None).1
  = Ok (str "Mist it weekly.")
  ∧ (Lifecycle.getResponse sdk_silent CopilotService.fresh
       (str "How do I water moss?") None).1
    = Ok Lifecycle.apology
  ∧ (Lifecycle.getResponse (sdk_replying []) CopilotService.fresh
       (str "How do I water moss?") None).1
    = Ok Lifecycle.apology
  ∧ (Lifecycle.getResponse sdk_down CopilotService.fresh
       (str "How do I water moss?") None).1
    = Throw LifecycleInv.initialize_failed
  ∧ (Lifecycle.getResponse sdk_refusing CopilotService.fresh
       (str "How do I water moss?") None).1
    = Throw (str "Failed to get response from Copilot").
Proof. repeat split; reflexivity. Qed.



(** X7. [shutdown] does not raise. In every state that the methods of
    the service reach, behind a [shutdown] whose stop has succeeded, or of
    a service that was not initialised, the service is not initialised and
    its next [getResponse] starts over: it answers as that of a new
    service does. *)
Theorem shutdown_then_starts_over (sdk : Lifecycle.Sdk)
    (st : CopilotService.State) (sdk' : CopilotService.Sdk)
    (prompt : jsstring) (context : option jsstring) :
  (Lifecycle.shutdown sdk st).1 = Ok ()
  ∧ (Lifecycle.reachable st →
     Lifecycle.client_stop sdk = Ok ()
     ∨ CopilotService.isInitialized st = false →
     CopilotService.isInitialized (Lifecycle.shutdown sdk st).2 = false
     ∧ (Lifecycle.getResponse sdk' (Lifecycle.shutdown sdk st).2
          prompt context).1
       = (Lifecycle.getResponse sdk' CopilotService.fresh prompt context).1).
Proof.
  split.
  { unfold Lifecycle.shutdown. destruct (negb _ && _); [|done].
    by destruct (Lifecycle.client_stop sdk). }
  intros Hst%LifecycleFacts.reachable_consistent Hstop.
  assert (CopilotService.isInitialized (Lifecycle.shutdown sdk st).2 = false)
    as Hinit.
  { unfold Lifecycle.shutdown.
    destruct (CopilotService.isInitialized st) eqn:Hwas.
    - destruct Hstop as [-> | ?]; [|done].
      rewrite bool_decide_eq_false_2 by (by apply Hst). done.
    - by rewrite andb_false_r. }
  split; [done|].
  generalize dependent (Lifecycle.shutdown sdk st).2. intros st1 Hinit.
  unfold Lifecycle.getResponse, Lifecycle.started.
  rewrite Hinit, orb_true_r. simpl.
  unfold CopilotService.initialize. rewrite Hinit. simpl.
  destruct (CopilotService.new_CopilotClient sdk'); [|done].
  by destruct (CopilotService.client_start sdk').
Qed.

Lemma shutdown_then_starts_over_witness :
  CopilotService.isInitialized
    (Lifecycle.shutdown (sdk_live (str "0")) started_service).2 = false
  ∧ (Lifecycle.getResponse sdk_down
       (Lifecycle.shutdown (sdk_live (str "0")) started_service).2
       (str "How do I water moss?") None).1
    = (Lifecycle.getResponse sdk_down CopilotService.fresh
         (str "How do I water moss?") None).1.
Proof.
  apply (proj2 (shutdown_then_starts_over (sdk_live (str "0")) started_service
                  sdk_down (str "How do I water moss?") None)).
  - exact (Lifecycle.reachable_call (sdk_live (str "0")) Lifecycle.Initialize
             CopilotService.fresh Lifecycle.reachable_fresh).
  - left. reflexivity.
Defined.

(** X2. [rankDocumentsByRelevance] does not raise, whatever the SDK does and
    whatever the reply says: it returns a permutation of the indices of
    the documents. *)
Theorem rankDocumentsByRelevance_returns_permutation
    (sdk : CopilotService.Sdk) (st : CopilotService.State)
    (query : jsstring) (documents : list CopilotService.Summary) :
  ∃ ranking,
    (CopilotService.rankDocumentsByRelevance sdk st query documents).1
    = Ok ranking
    ∧ ranking ≡ₚ Array_from_length (length documents).
Proof. apply CopilotFacts.rank_permutation. Qed.

(** ** The chat endpoint *)

Module ServerFacts.
Import Server.

Lemma fallbackResponse_not_empty (context : option jsstring) :
  fallbackResponse context ≠ [].
Proof. unfold fallbackResponse. by destruct (CopilotService.truthy context). Qed.

Lemma after_search_consistent (sdk : CopilotService.Sdk)
    (st : CopilotService.State) (calls : Knowledge.Calls) :
  LifecycleInv.consistent st →
  LifecycleInv.consistent (after_search sdk st calls).
Proof.
  intros Hst. destruct calls as [|[query documents] calls]; [done|].
  simpl. rewrite LifecycleFacts.rank_state.
  by apply LifecycleFacts.started_consistent.
Qed.

End ServerFacts.

(** X28. The chat endpoint answers 400 with [Invalid message format]
    exactly when the message is not a string or is empty, and 200 with a
    response that is not empty in every other case, whatever the corpus
    and whatever the SDK does. It never answers 500: the search does not
    raise, and an error of the Copilot service is answered with the
    fallback text. *)
Theorem chat_answers_200_or_400 `{RegExp.Engine}
    (during_search during_answer : CopilotService.Sdk)
    (st : CopilotService.State)
    (documents : list Knowledge.KnowledgeDocument)
    (message : option jsstring) :
  Lifecycle.reachable st →
  (Server.status
     (Server.chat during_search during_answer st documents message).1 = 400
   ∧ Server.response
       (Server.chat during_search during_answer st documents message).1
     = str "Invalid message format"
   ∧ (message = None ∨ message = Some []))
  ∨ (Server.status
       (Server.chat during_search during_answer st documents message).1 = 200
     ∧ Server.response
         (Server.chat during_search during_answer st documents message).1
       ≠ []
     ∧ ∃ text, message = Some text ∧ text ≠ []).
Proof.
  intros Hst%LifecycleFacts.reachable_consistent.
  destruct message as [[|c text]|]; [left; auto | | left; auto].
  right. unfold Server.chat.
  destruct (SearchFacts.searchWithCopilot_never_throws
              (Some (Retrieval.oracle during_search st)) documents
              (c :: text) 10 3) as [relevantDocs Hfound].
  destruct (Knowledge.searchWithCopilot _ documents (c :: text) 10 3)
    as [found calls].
  simpl in Hfound. subst found.
  pose proof (LifecycleFacts.getResponse_cases during_answer
                (Server.after_search during_search st calls) (c :: text)
                (Server.context_of relevantDocs)
                (ServerFacts.after_search_consistent _ _ _ Hst)) as Hanswer.
  destruct (Lifecycle.getResponse during_answer _ (c :: text) _)
    as [[aiResponse|e] st2]; simpl in *.
  - split; [done|]. split; [tauto|]. by exists (c :: text).
  - split; [done|]. split; [apply ServerFacts.fallbackResponse_not_empty|].
    by exists (c :: text).
Qed.

Lemma chat_answers_200_or_400_witness :
  (Server.status
     (Server.chat (H := RegExp.strict) sdk_down sdk_down CopilotService.fresh
        moss_corpus (Some (str "moss"))).1 = 400
   ∧ Server.response
       (Server.chat (H := RegExp.strict) sdk_down sdk_down
          CopilotService.fresh moss_corpus (Some (str "moss"))).1
     = str "Invalid message format"
   ∧ (Some (str "moss") = None ∨ Some (str "moss") = Some []))
  ∨ (Server.status
       (Server.chat (H := RegExp.strict) sdk_down sdk_down
          CopilotService.fresh moss_corpus (Some (str "moss"))).1 = 200
     ∧ Server.response
         (Server.chat (H := RegExp.strict) sdk_down sdk_down
            CopilotService.fresh moss_corpus (Some (str "moss"))).1
       ≠ []
     ∧ ∃ text, Some (str "moss") = Some text ∧ text ≠ []).
Proof.
  apply (chat_answers_200_or_400 (H := RegExp.strict) sdk_down sdk_down
           CopilotService.fresh moss_corpus (Some (str "moss"))).
  apply Lifecycle.reachable_fresh.
Defined.

Example chat_fallback_ex :
  Server.response
    (Server.chat (H := RegExp.strict) sdk_down sdk_down CopilotService.fresh
       [mossy_page] (Some (str "moss"))).1
  = str "I found relevant information in the knowledge base:"
    ++ [Str.newline; Str.newline] ++ str "Guide: mossy wall..."
    ++ [Str.newline; Str.newline]
    ++ str "However, the AI service is currently unavailable. Please "
    ++ str "ensure GitHub Copilot is properly configured.".
Proof. vm_compute. reflexivity. Qed.

(** ** A reply in the format that the prompt asks for *)

Module ReplyFacts.
Import RankingSpec JSFacts RankingFacts.

Lemma uint_digits (d : Decimal.uint) :
  Forall (λ c, is_digit c = true) (str (NilEmpty.string_of_uint d)).
Proof. induction d; simpl; by constructor. Qed.

Lemma parseInt_uint (d : Decimal.uint) (acc : nat) :
  fold_left (λ acc c, (10 * acc + digit_value c)%Z)
    (str (NilEmpty.string_of_uint d)) (Z.of_nat acc)
  = Z.of_nat (Nat.of_uint_acc d acc).
Proof.
  revert acc. induction d; intros acc; simpl; [done|..];
    rewrite <- IHd; f_equal; rewrite Nat.tail_mul_spec;
    unfold digit_value; simpl; lia.
Qed.

Lemma parseInt_of_nat (n : nat) : parseInt (Str.of_nat n) = Z.of_nat n.
Proof.
  unfold parseInt, Str.of_nat. rewrite (parseInt_uint _ 0).
  change (Nat.of_uint_acc (Nat.to_uint n) 0) with (Nat.of_uint (Nat.to_uint n)).
  by rewrite DecimalNat.Unsigned.of_to.
Qed.

Lemma of_nat_digits (n : nat) : Forall (λ c, is_digit c = true) (Str.of_nat n).
Proof. apply uint_digits. Qed.

Lemma of_nat_not_empty (n : nat) : Str.of_nat n ≠ [].
Proof.
  unfold Str.of_nat.
  assert (Nat.to_uint n ≠ Decimal.Nil) as Hd.
  { rewrite <- (DecimalNat.Unsigned.of_to n) at 1.
    rewrite DecimalNat.Unsigned.to_of. apply DecimalFacts.unorm_nonnil. }
  by destruct (Nat.to_uint n).
Qed.

(** *** The scanner on digits and separators *)

Lemma scan_digits_run (cur ds rest : jsstring) :
  Forall (λ c, is_digit c = true) ds →
  scan_digits cur (ds ++ rest) = scan_digits (rev ds ++ cur) rest.
Proof.
  intros Hds. revert cur. induction Hds as [|d ds Hd _ IH]; intros cur.
  - done.
  - simpl. rewrite Hd, IH. by rewrite <- app_assoc.
Qed.

Lemma scan_digits_gap (gap rest : jsstring) :
  Forall (λ c, is_digit c = false) gap →
  scan_digits [] (gap ++ rest) = scan_digits [] rest.
Proof.
  induction 1 as [|c gap Hc _ IH]; [done|]. simpl. by rewrite Hc.
Qed.

Lemma scan_digits_number (ds gap rest : jsstring) :
  ds ≠ [] →
  Forall (λ c, is_digit c = true) ds →
  gap ≠ [] →
  Forall (λ c, is_digit c = false) gap →
  scan_digits [] (ds ++ gap ++ rest) = ds :: scan_digits [] rest.
Proof.
  intros Hne Hds Hgap Hnodigit. rewrite scan_digits_run by done.
  rewrite app_nil_r. destruct gap as [|c gap]; [done|].
  apply Forall_cons in Hnodigit as [Hc Hnodigit].
  simpl. rewrite Hc.
  destruct (rev ds) as [|d ds'] eqn:Hrev.
  { apply (f_equal (@rev ascii)) in Hrev. rewrite rev_involutive in Hrev.
    done. }
  rewrite <- Hrev, rev_involutive. by rewrite scan_digits_gap.
Qed.

Lemma scan_digits_join (sep : jsstring) (indices : list nat) :
  sep ≠ [] →
  Forall (λ c, is_digit c = false) sep →
  scan_digits [] (Str.join sep (map Str.of_nat indices))
  = map Str.of_nat indices.
Proof.
  intros Hsep Hnodigit. induction indices as [|i indices IH]; [done|].
  destruct indices as [|j indices].
  - simpl. rewrite <- (app_nil_r (Str.of_nat i)) at 1.
    rewrite scan_digits_run by apply of_nat_digits.
    rewrite app_nil_r. simpl.
    destruct (rev (Str.of_nat i)) as [|d ds] eqn:Hrev.
    { apply (f_equal (@rev ascii)) in Hrev. rewrite rev_involutive in Hrev.
      by apply of_nat_not_empty in Hrev. }
    by rewrite <- Hrev, rev_involutive.
  - change (Str.join sep (map Str.of_nat (i :: j :: indices)))
      with (Str.of_nat i ++ sep ++ Str.join sep (map Str.of_nat (j :: indices))).
    rewrite scan_digits_number;
      [| apply of_nat_not_empty | apply of_nat_digits | done | done].
    by rewrite IH.
Qed.

Lemma filter_other (x : Z) (l : list Z) :
  x ∉ l → filter (λ y, y ≠ x) l = l.
Proof.
  induction l as [|y l IH]; [done|].
  intros [Hne Hx]%not_elem_of_cons.
  rewrite filter_cons, decide_True by congruence. f_equal. by apply IH.
Qed.

Lemma dedup_first_NoDup_id (l : list Z) : NoDup l → dedup_first l = l.
Proof.
  induction 1 as [|x l Hx _ IH]; [done|].
  simpl. rewrite IH. f_equal. by apply filter_other.
Qed.

Lemma filter_map {A B} (p : B → bool) (f : A → B) (l : list A) :
  List.filter p (map f l) = map f (List.filter (λ x, p (f x)) l).
Proof.
  induction l as [|x l IH]; [done|].
  simpl. destruct (p (f x)); simpl; by rewrite IH.
Qed.

End ReplyFacts.

(** X1. [parseRanking] reads back a ranking that is written as the prompt asks
    for it: on the decimal numbers of distinct indices below the number of
    documents, separated by a text without digits, a comma for one, it
    returns these indices in their order, followed by the indices that the
    reply leaves out, in ascending order. *)
Theorem parseRanking_reads_back (sep : jsstring) (indices : list nat)
    (documentCount : nat) :
  sep ≠ [] →
  Forall (λ c, is_digit c = false) sep →
  NoDup indices →
  Forall (λ i, i < documentCount) indices →
  Ranking.parseRanking (Str.join sep (map Str.of_nat indices)) documentCount
  = map Z.of_nat indices
    ++ map Z.of_nat
         (List.filter (λ i, negb (bool_decide (i ∈ indices)))
            (seq 0 documentCount)).
Proof.
  intros Hsep Hnodigit Hnodup Hrange. unfold Ranking.parseRanking.
  assert (default []
            (List.filter
               (λ num, (0 <=? num)%Z && (num <? Z.of_nat documentCount)%Z)
               <$> (map parseInt
                      <$> match_digits
                            (Str.join sep (map Str.of_nat indices))))
          = map Z.of_nat indices) as ->.
  { unfold match_digits. rewrite ReplyFacts.scan_digits_join by done.
    assert (map parseInt (map Str.of_nat indices) = map Z.of_nat indices)
      as Hvalues.
    { rewrite List.map_map. apply map_ext. intros i.
      apply ReplyFacts.parseInt_of_nat. }
    assert (List.filter
              (λ num, (0 <=? num)%Z && (num <? Z.of_nat documentCount)%Z)
              (map Z.of_nat indices) = map Z.of_nat indices) as Hkept.
    { clear -Hrange. induction Hrange as [|i indices Hi _ IH]; [done|].
      simpl. rewrite IH.
      destruct (Z.leb_spec 0 (Z.of_nat i)); [|lia].
      by destruct (Z.ltb_spec (Z.of_nat i) (Z.of_nat documentCount)); [|lia]. }
    destruct indices as [|i indices]; [done|].
    cbn [map fmap option_fmap option_map default] in *.
    by rewrite Hvalues, Hkept. }
  unfold Array_from_Set. rewrite RankingFacts.new_Set_spec.
  rewrite ReplyFacts.dedup_first_NoDup_id
    by (by apply (NoDup_fmap_2 Z.of_nat)).
  f_equal. unfold Array_from_length. rewrite ReplyFacts.filter_map.
  f_equal. apply List.filter_ext. intros i. f_equal.
  destruct (Array_includes (map Z.of_nat indices) (Z.of_nat i)) eqn:Hin.
  - apply JSFacts.Array_includes_spec in Hin.
    apply list_elem_of_fmap in Hin as (j & Hj & Hin).
    apply Nat2Z.inj in Hj. subst j. by rewrite bool_decide_eq_true_2.
  - apply JSFacts.Array_includes_false in Hin.
    rewrite bool_decide_eq_false_2; [done|]. intros Hi. apply Hin.
    by apply (list_elem_of_fmap_2 Z.of_nat).
Qed.

Lemma parseRanking_reads_back_witness :
  Ranking.parseRanking (str "2,0,4,1") 6 = [2; 0; 4; 1; 3; 5]%Z.
Proof.
  apply (parseRanking_reads_back (str ",") [2; 0; 4; 1] 6).
  - discriminate.
  - repeat constructor.
  - apply (bool_decide_unpack _). vm_compute. exact I.
  - repeat constructor.
Defined.

(** ** The enhanced search and the plain search *)

Module AgreementFacts.
Import Knowledge LexicalSpec StableSort ExcFacts SortFacts.

Lemma insert_desc_map {A B} (f : A → B) (key : A → Z) (key' : B → Z)
    (x : A) (l : list A) :
  key' (f x) = key x →
  Forall (λ y, key' (f y) = key y) l →
  insert_desc key' (f x) (map f l) = map f (insert_desc key x l).
Proof.
  intros Hx Hl. induction Hl as [|y l Hy _ IH]; [done|].
  simpl. rewrite Hx, Hy. destruct (key x <? key y)%Z; [|done].
  simpl. by rewrite IH.
Qed.

Lemma sort_desc_map {A B} (f : A → B) (key : A → Z) (key' : B → Z)
    (l : list A) :
  Forall (λ y, key' (f y) = key y) l →
  sort_desc key' (map f l) = map f (sort_desc key l).
Proof.
  induction 1 as [|x l Hx Hl IH]; [done|].
  simpl. fold (sort_desc key' (map f l)). fold (sort_desc key l).
  rewrite IH. apply insert_desc_map; [done|].
  by rewrite sort_desc_perm.
Qed.

Lemma slice0_all {A} (l : list A) (e : Z) :
  (Z.of_nat (length l) ≤ e)%Z → slice l 0 e = l.
Proof.
  intros Hl. replace e with (Z.of_nat (Z.to_nat e)) by lia.
  change 0%Z with (Z.of_nat 0).
  rewrite SnippetFacts.slice_nonneg, drop_0, Nat.sub_0_r.
  apply take_ge. lia.
Qed.

Section with_engine.
Context `{RegExp.Engine}.

Lemma keyword_candidates_literal (documents : list KnowledgeDocument)
    (query : jsstring) (acc : list Candidate) :
  literal_query query →
  for_of (λ candidates doc,
    bind (relevance_score doc (queryTerms_of query)) (λ score,
    if (0 <? score)%Z
    then Ok (candidates ++
               [candidate doc
                  (extractSnippet (content doc) (queryTerms_of query)) score])
    else Ok candidates)) documents acc
  = Ok (acc ++
          map (λ doc, candidate doc
                        (extractSnippet (content doc) (queryTerms_of query))
                        (score doc query))
            (List.filter (λ d, (0 <? score d query)%Z) documents)).
Proof.
  intros Hquery. revert acc.
  induction documents as [|doc documents IH]; intros acc; simpl.
  - by rewrite app_nil_r.
  - rewrite ScoreFacts.relevance_score_literal by done. simpl.
    destruct (0 <? score doc query)%Z; simpl; rewrite IH; [|done].
    by rewrite <- app_assoc.
Qed.

Lemma search_literal_sorted (documents : list KnowledgeDocument)
    (query : jsstring) :
  literal_query query →
  search documents query
  = Ok (take 3
          (sort_desc (λ d, score d query)
             (map (with_its_snippet query)
                (List.filter (λ d, (0 <? score d query)%Z) documents)))).
Proof.
  intros Hquery. unfold search, search_try.
  rewrite (ScoreFacts.search_loop_literal documents query []) by done. simpl.
  rewrite (Array_sort_by_key (λ d, score d query)).
  - simpl. rewrite (SnippetFacts.slice_nonneg _ 0 3). by rewrite drop_0.
  - intros a b _ _. by rewrite !ScoreFacts.scoreDocument_literal.
Qed.

End with_engine.

End AgreementFacts.

(** X15. On a query whose terms have no syntax character of the pattern
    language and that one, two or three documents match, within the limits
    [maxCandidates] and [maxResults], [searchWithCopilot] returns what
    [search] returns, in the same order, and does not call the oracle. *)
Theorem searchWithCopilot_is_search_on_few_matches `{RegExp.Engine}
    (oracle : Knowledge.Oracle)
    (documents : list Knowledge.KnowledgeDocument) (query : jsstring)
    (maxCandidates maxResults : Z) (matches : nat) :
  LexicalSpec.literal_query query →
  matches
  = length (List.filter (λ d, (0 <? LexicalSpec.score d query)%Z) documents) →
  0 < matches ≤ 3 →
  (Z.of_nat matches ≤ maxCandidates)%Z →
  (Z.of_nat matches ≤ maxResults)%Z →
  Knowledge.searchWithCopilot (Some oracle) documents query
    maxCandidates maxResults
  = (Knowledge.search documents query, []).
Proof.
  intros Hquery -> Hmatches HmaxC HmaxR.
  set (matching :=
         List.filter (λ d, (0 <? LexicalSpec.score d query)%Z) documents) in *.
  set (candidates :=
         map (λ doc, Knowledge.candidate doc
                       (Knowledge.extractSnippet (Knowledge.content doc)
                          (Knowledge.queryTerms_of query))
                       (LexicalSpec.score doc query)) matching).
  assert (length candidates = length matching) as Hlen
    by apply length_map.
  assert (Knowledge.topCandidates_of documents query maxCandidates
          = Ok (StableSort.sort_desc Knowledge.c_score candidates)) as Htop.
  { apply SearchFacts.topCandidates_of_Ok. exists candidates. split.
    - unfold Knowledge.keyword_candidates.
      by rewrite AgreementFacts.keyword_candidates_literal.
    - unfold Knowledge.or_first_documents.
      destruct (Nat.eqb_spec (length candidates) 0) as [Hnone|_]; [lia|].
      rewrite AgreementFacts.slice0_all; [done|].
      rewrite SortFacts.sort_desc_perm. lia. }
  rewrite (SearchFacts.searchWithCopilot_few_candidates oracle documents query
             maxCandidates maxResults _ Htop)
    by (rewrite SortFacts.sort_desc_perm; lia).
  f_equal. rewrite AgreementFacts.search_literal_sorted by done. f_equal.
  rewrite take_ge.
  2: { rewrite SortFacts.sort_desc_perm, length_map. fold matching. lia. }
  rewrite <- (AgreementFacts.sort_desc_map Knowledge.without_score
                Knowledge.c_score (λ d, LexicalSpec.score d query)).
  - f_equal. unfold candidates. rewrite List.map_map. done.
  - apply Forall_forall. intros c (doc & -> & _)%list_elem_of_fmap. done.
Qed.

Lemma searchWithCopilot_is_search_on_few_matches_witness :
  Knowledge.searchWithCopilot (H := RegExp.strict) (Some oracle_down)
    moss_corpus (str "How is MOSS watered") 10 3
  = (Knowledge.search (H := RegExp.strict) moss_corpus
       (str "How is MOSS watered"), []).
Proof.
  apply (searchWithCopilot_is_search_on_few_matches (H := RegExp.strict)
           oracle_down moss_corpus (str "How is MOSS watered") 10 3 3).
  - repeat constructor; vm_compute; lia.
  - reflexivity.
  - lia.
  - lia.
  - lia.
Defined.

(** ** The service and the functions on values *)

Module NewObjectFacts.
Import Knowledge Store StoreInv StoreFacts.

Lemma made_since_prefix (st st' : State) (rs : list ref) :
  heap st `prefix_of` heap st' → made_since st' rs → made_since st rs.
Proof.
  intros Hh%prefix_length Hrs. eapply Forall_impl; [exact Hrs|].
  simpl. intros; lia.
Qed.

Section with_files.
Context `{RegExp.Engine}.
Context (extractTitle : jsstring → jsstring → jsstring).

(** The objects that [search] returns are made behind the walk of the
    corpus. *)
Lemma search_makes (root : exc (list entry)) (query : jsstring) (st : State)
    (rs : list ref) :
  (Store.search extractTitle root query st).1 = Ok rs →
  made_since (getAllDocuments extractTitle root st).2 rs.
Proof.
  unfold Store.search.
  destruct (getAllDocuments extractTitle root st) as [documents st1].
  pose proof (search_try_makes documents query st1) as Hmade.
  destruct (Store.search_try documents query st1) as [[results|e] st2];
    simpl in *; intros [= <-]; [done | constructor].
Qed.

Lemma searchWithCopilot_makes (copilotService : option Oracle)
    (root : exc (list entry)) (query : jsstring)
    (maxCandidates maxResults : Z) (st : State) (rs : list ref) :
  (Store.searchWithCopilot extractTitle copilotService root query
     maxCandidates maxResults st).1 = Ok rs →
  made_since (getAllDocuments extractTitle root st).2 rs.
Proof.
  destruct copilotService as [oracle|]; [|apply search_makes].
  unfold Store.searchWithCopilot.
  destruct (getAllDocuments extractTitle root st) as [documents st1].
  pose proof (searchWithCopilot_try_makes oracle documents query
                maxCandidates maxResults st1) as Hmade.
  pose proof (growing_searchWithCopilot_try oracle documents query
                maxCandidates maxResults st1) as [_ Hgrow].
  destruct (Store.searchWithCopilot_try oracle documents query
              maxCandidates maxResults st1) as [[results|e] st2]; simpl in *.
  - by intros [= <-].
  - intros Hrs. apply search_makes in Hrs.
    destruct (getAllDocuments_keeps extractTitle root st2) as [[_ Hwalk] _].
    simpl in Hwalk.
    eapply made_since_prefix; [exact Hgrow|].
    eapply made_since_prefix; [exact Hwalk | exact Hrs].
Qed.

End with_files.

End NewObjectFacts.

(** X26. In every state that the operations of the service reach, [search] of
    the service returns objects that hold what the keyword search returns
    on the documents that [getAllDocuments] returns; and these objects are
    new: the call has made them behind its walk of the corpus, so that
    none is an object that existed before the call or a document of the
    walk. *)
Theorem service_search_agrees `{RegExp.Engine}
    (extractTitle : jsstring → jsstring → jsstring)
    (root : exc (list Store.entry)) (query : jsstring) (st : Store.State) :
  Store.reachable extractTitle st →
  ∃ documents results rs,
    StoreInv.docs_at (Store.getAllDocuments extractTitle root st).2
      (Store.getAllDocuments extractTitle root st).1 documents
    ∧ Knowledge.search documents query = Ok results
    ∧ (Store.search extractTitle root query st).1 = Ok rs
    ∧ StoreInv.docs_at (Store.search extractTitle root query st).2 rs results
    ∧ StoreInv.made_since (Store.getAllDocuments extractTitle root st).2 rs
    ∧ StoreInv.made_since st rs.
Proof.
  intros Hst%StoreFacts.reachable_wf.
  destruct (StoreFacts.search_agrees extractTitle root query st Hst)
    as (documents & results & rs & Hdocs & Hsearch & Hrs & Hat).
  exists documents, results, rs. repeat split; try done.
  - by apply (NewObjectFacts.search_makes extractTitle root query).
  - eapply NewObjectFacts.made_since_prefix;
      [|by apply (NewObjectFacts.search_makes extractTitle root query)].
    apply (StoreFacts.getAllDocuments_keeps extractTitle root st).
Qed.

Lemma service_search_agrees_witness :
  ∃ documents results rs,
    StoreInv.docs_at
      (Store.getAllDocuments title_of_path small_root after_first_search).2
      (Store.getAllDocuments title_of_path small_root after_first_search).1
      documents
    ∧ Knowledge.search (H := RegExp.strict) documents (str "green") = Ok results
    ∧ (Store.search (H := RegExp.strict) title_of_path small_root (str "green")
         after_first_search).1 = Ok rs
    ∧ StoreInv.docs_at
        (Store.search (H := RegExp.strict) title_of_path small_root
           (str "green") after_first_search).2 rs results
    ∧ StoreInv.made_since
        (Store.getAllDocuments title_of_path small_root after_first_search).2
        rs
    ∧ StoreInv.made_since after_first_search rs.
Proof.
  apply (service_search_agrees (H := RegExp.strict) title_of_path small_root
           (str "green") after_first_search).
  apply Store.reachable_run, Store.reachable_initial.
Defined.

(** X27. In every state that the operations of the service reach, on a corpus
    without two files of the same path, [searchWithCopilot] of the service
    returns objects that hold what [searchWithCopilot] on values returns
    on the documents that [getAllDocuments] returns; and these objects are
    new: the call has made them behind its walk of the corpus, so that
    none is an object that existed before the call or a document of the
    walk. *)
Theorem service_searchWithCopilot_agrees `{RegExp.Engine}
    (extractTitle : jsstring → jsstring → jsstring)
    (copilotService : option Knowledge.Oracle)
    (root : exc (list Store.entry)) (query : jsstring)
    (maxCandidates maxResults : Z) (st : Store.State) :
  Store.reachable extractTitle st →
  StoreInv.distinct_paths root →
  ∃ documents results rs,
    StoreInv.docs_at (Store.getAllDocuments extractTitle root st).2
      (Store.getAllDocuments extractTitle root st).1 documents
    ∧ (Knowledge.searchWithCopilot copilotService documents query
         maxCandidates maxResults).1 = Ok results
    ∧ (Store.searchWithCopilot extractTitle copilotService root query
         maxCandidates maxResults st).1 = Ok rs
    ∧ StoreInv.docs_at
        (Store.searchWithCopilot extractTitle copilotService root query
           maxCandidates maxResults st).2 rs results
    ∧ StoreInv.made_since (Store.getAllDocuments extractTitle root st).2 rs
    ∧ StoreInv.made_since st rs.
Proof.
  intros Hst%StoreFacts.reachable_wf Hroot.
  destruct (StoreFacts.searchWithCopilot_agrees extractTitle copilotService
              root query maxCandidates maxResults st Hst Hroot)
    as (documents & results & rs & Hdocs & Hsearch & Hrs & Hat).
  exists documents, results, rs. repeat split; try done.
  - by apply (NewObjectFacts.searchWithCopilot_makes extractTitle
                copilotService root query maxCandidates maxResults).
  - eapply NewObjectFacts.made_since_prefix;
      [|by apply (NewObjectFacts.searchWithCopilot_makes extractTitle
                    copilotService root query maxCandidates maxResults)].
    apply (StoreFacts.getAllDocuments_keeps extractTitle root st).
Qed.

Lemma service_searchWithCopilot_agrees_witness :
  ∃ documents results rs,
    StoreInv.docs_at
      (Store.getAllDocuments title_of_path small_root Store.initial).2
      (Store.getAllDocuments title_of_path small_root Store.initial).1
      documents
    ∧ (Knowledge.searchWithCopilot (H := RegExp.strict) (Some oracle_down)
         documents (str "green") 10 1).1 = Ok results
    ∧ (Store.searchWithCopilot (H := RegExp.strict) title_of_path
         (Some oracle_down) small_root (str "green") 10 1 Store.initial).1
      = Ok rs
    ∧ StoreInv.docs_at
        (Store.searchWithCopilot (H := RegExp.strict) title_of_path
           (Some oracle_down) small_root (str "green") 10 1 Store.initial).2
        rs results
    ∧ StoreInv.made_since
        (Store.getAllDocuments title_of_path small_root Store.initial).2 rs
    ∧ StoreInv.made_since Store.initial rs.
Proof.
  apply (service_searchWithCopilot_agrees (H := RegExp.strict) title_of_path
           (Some oracle_down) small_root (str "green") 10 1 Store.initial).
  - apply Store.reachable_initial.
  - apply (bool_decide_unpack _). vm_compute. exact I.
Defined.

(** ** The database connection *)

(** X29. Once [getDb] has opened the database, every later [getDb] returns
    that connection and makes no call to the driver, also when the first
    call has raised because [pragma] or [exec] failed: the first call
    succeeds only if both succeed, and no later call runs them again. *)
Theorem getDb_opens_once (driver driver' : Db.Driver)
    (dbPath dbPath' : jsstring) (d : Db.Database) :
  Db.new_Database driver dbPath = Ok d →
  Db.getDb driver' dbPath' (Db.getDb driver dbPath None).1.2
  = (Ok d, Some d, [])
  ∧ ((Db.getDb driver dbPath None).1.1 = Ok d
     ↔ Db.pragma driver = Ok () ∧ Db.exec driver = Ok ())
  ∧ Db.Open dbPath ∈ (Db.getDb driver dbPath None).2.
Proof.
  intros Hopen. unfold Db.getDb at 2 3 4. rewrite Hopen.
  destruct (Db.pragma driver) as [[]|e]; simpl.
  - destruct (Db.exec driver) as [[]|e]; simpl.
    + repeat split; try done. by left.
    + repeat split; try done; [naive_solver.. | by left].
  - repeat split; try done; [naive_solver.. | by left].
Qed.

Lemma getDb_opens_once_witness :
  Db.getDb
    {| Db.new_Database := λ _, Ok Db.the_database;
       Db.pragma := Ok (); Db.exec := Ok (); Db.close := Ok () |}
    (str "other.db")
    (Db.getDb
       {| Db.new_Database := λ _, Ok Db.the_database;
          Db.pragma := Ok (); Db.exec := Throw (str "SQLITE_BUSY");
          Db.close := Ok () |}
       (str "data/auth.db") None).1.2
  = (Ok Db.the_database, Some Db.the_database, [])
  ∧ ((Db.getDb
        {| Db.new_Database := λ _, Ok Db.the_database;
           Db.pragma := Ok (); Db.exec := Throw (str "SQLITE_BUSY");
           Db.close := Ok () |}
        (str "data/auth.db") None).1.1 = Ok Db.the_database
     ↔ Ok () = Ok () ∧ Throw (str "SQLITE_BUSY") = Ok ())
  ∧ Db.Open (str "data/auth.db")
    ∈ (Db.getDb
         {| Db.new_Database := λ _, Ok Db.the_database;
            Db.pragma := Ok (); Db.exec := Throw (str "SQLITE_BUSY");
            Db.close := Ok () |}
         (str "data/auth.db") None).2.
Proof.
  apply (getDb_opens_once
           {| Db.new_Database := λ _, Ok Db.the_database;
              Db.pragma := Ok (); Db.exec := Throw (str "SQLITE_BUSY");
              Db.close := Ok () |}
           {| Db.new_Database := λ _, Ok Db.the_database;
              Db.pragma := Ok (); Db.exec := Ok (); Db.close := Ok () |}
           (str "data/auth.db") (str "other.db") Db.the_database).
  reflexivity.
Defined.

(** ** The candidates of the enhanced search *)

Module ShortCircuitFacts.
Import Knowledge LexicalSpec StableSort ExcFacts SortFacts SearchAux.


Section with_engine.
Context `{RegExp.Engine}.







End with_engine.

End ShortCircuitFacts.



(** On the pages of [dotted_corpus] the loop scores the term [moss.] as a
    pattern: the second page has the higher score and comes first. *)
Example dotted_candidates_ex :
  map Knowledge.path
    (default []
       (match (Knowledge.searchWithCopilot (H := RegExp.strict)
                 (Some oracle_down) dotted_corpus (str "moss.") 10 3).1 with
        | Ok results => Some results
        | Throw _ => None
        end))
  = [str "two.md"; str "one.md"]
  ∧ map (SearchAux.loop_score (H := RegExp.strict) (str "moss.")) dotted_corpus
    = [2%Z; 4%Z].
Proof. split; reflexivity. Qed.
